(** * The focused-vault manager of the VS Code extension

    A shallow embedding of
    [src/extensions/vscode/src/vaults/FocusedVaultManager.ts]: the class
    [FocusedVaultManager] (discovery of the most recent vault, focus switch,
    subscriber registries) and the class [FocusedVault] (one WebSocket, the
    first-frame rule, the throttled batcher).

    The program is single-threaded and callback driven.  Every handler is a
    computation in a state-and-trace monad over one [World]: the manager's
    fields, the heap of [FocusedVault] objects ever constructed (closed ones
    stay reachable from their socket handlers and timers), the clock and the
    pending [setTimeout] timers.  Closures are defunctionalised: a closure is
    the data it captures. *)

From stdpp Require Import base option list strings.
From Stdlib Require Import ZArith Lia.

#[local] Open Scope string_scope.
#[local] Open Scope list_scope.
#[local] Open Scope Z_scope.

(** ** JavaScript containers *)

Module JsMap.
(** A JS [Map] with string keys: insertion ordered, [set] overwrites in
    place, [delete] removes the entry of the key (a [Map] holds one at most),
    [forEach] visits entries in insertion order. *)
Section JsMap.
Context {V : Type}.

Fixpoint set (k : string) (v : V) (m : list (string * V)) : list (string * V) :=
  match m with
  | [] => [(k, v)]
  | (k', v') :: m' =>
      if decide (k' = k) then (k, v) :: m' else (k', v') :: set k v m'
  end.

Definition delete (k : string) (m : list (string * V)) : list (string * V) :=
  filter (λ kv, kv.1 ≠ k) m.

Definition keys (m : list (string * V)) : list string := m.*1.

End JsMap.
End JsMap.

Module JsArray.
(** [Array.prototype.sort(compareFn)]: the stable sort of ECMAScript 2019,
    as a stable insertion sort.  [compareFn a b <= 0] keeps [a] in front. *)
Section JsArray.
Context {A : Type} (compareFn : A → A → Z).

Fixpoint insert (a : A) (l : list A) : list A :=
  match l with
  | [] => [a]
  | b :: l' => if compareFn a b <=? 0 then a :: l else b :: insert a l'
  end.

Definition sort (l : list A) : list A := foldr insert [] l.
End JsArray.

(** [a.forEach(x => target.push(x))] *)
Definition push_each {A : Type} (target a : list A) : list A :=
  fold_left (λ acc x, acc ++ [x]) a target.
End JsArray.

(** [s.replace(/^http/, 'ws')] *)
Definition replace_http_ws (s : string) : string :=
  if String.prefix "http" s
  then "ws" +:+ String.substring 4 (String.length s - 4) s
  else s.

(** ** Data *)

(** [VaultHistoryEntry], as far as this file reads it. *)
Record VaultHistoryEntry := {
  key : string;
  createdAt : Z;
}.

(** Subscriber callbacks are opaque to the manager; a listener is known by a
    name and every call made to it is recorded in the trace.  Listeners are
    taken to return normally and not to call back into the manager. *)
Definition Listener := nat.

(** The [onClose] closure built by [switchFocusedVault]; it captures
    [newFocusKey] and [retries]. *)
Inductive CloseCallback :=
| RetryLater (newFocusKey : string) (retries : nat).

(** The [onBatchTrace] closure built by [switchFocusedVault]; it captures
    only the manager. *)
Inductive BatchCallback :=
| NotifyBatchSubscribers.

(** The two callbacks handed to [setTimeout]. *)
Inductive TimerAction :=
| FlushPending (this : nat)
    (* () => this.sendPendingTraces() *)
| RetrySwitch (newFocusKey : string) (retries : nat).
    (* () => { if (focusedVault?.key === newFocusKey)
                 switchFocusedVault(newFocusKey, retries + 1) } *)

Record Timer := {
  handle : nat;
  due : Z;
  action : TimerAction;
}.

(** The function returned by a subscription; it captures the uuid. *)
Inductive Unsubscribe :=
| UnsubscribeFocusedVault (uuid : string)
| UnsubscribeBatchTrace (uuid : string).

Record WebSocket := { url : string }.

#[global] Instance TimerAction_eq_dec : EqDecision TimerAction.
Proof. solve_decision. Defined.

Section Model.

(** [Trace] is an imported binding and [Buffer] the payload type of the
    socket library; [JSON_parse data] is [None] when
    [JSON.parse(data.toString())] throws, [inr] for an array and [inl] for
    any other value.  [apiUrl] is [getConfig().apiUrl]. *)
Context {Trace Buffer : Type}.
Context (JSON_parse : Buffer → option (Trace + list Trace)).
Context (apiUrl : string).

(** class FocusedVault; [isFirst] is the [let] captured by the message
    handler of its socket. *)
Record FocusedVault := {
  fv_key : string;
  tracesData : list Trace;
  wsConnection : option WebSocket;
  onBatchTrace : BatchCallback;
  onClose : CloseCallback;
  pendingTraces : list Trace;
  throttleTimeout : option nat;
  throttleInterval : Z;
  isFirst : bool;
}.

Definition set_tracesData (x : list Trace) (v : FocusedVault) : FocusedVault :=
  {| fv_key := fv_key v; tracesData := x; wsConnection := wsConnection v;
     onBatchTrace := onBatchTrace v; onClose := onClose v;
     pendingTraces := pendingTraces v; throttleTimeout := throttleTimeout v;
     throttleInterval := throttleInterval v; isFirst := isFirst v |}.

Definition set_wsConnection (x : option WebSocket) (v : FocusedVault) : FocusedVault :=
  {| fv_key := fv_key v; tracesData := tracesData v; wsConnection := x;
     onBatchTrace := onBatchTrace v; onClose := onClose v;
     pendingTraces := pendingTraces v; throttleTimeout := throttleTimeout v;
     throttleInterval := throttleInterval v; isFirst := isFirst v |}.

Definition set_pendingTraces (x : list Trace) (v : FocusedVault) : FocusedVault :=
  {| fv_key := fv_key v; tracesData := tracesData v; wsConnection := wsConnection v;
     onBatchTrace := onBatchTrace v; onClose := onClose v;
     pendingTraces := x; throttleTimeout := throttleTimeout v;
     throttleInterval := throttleInterval v; isFirst := isFirst v |}.

Definition set_throttleTimeout (x : option nat) (v : FocusedVault) : FocusedVault :=
  {| fv_key := fv_key v; tracesData := tracesData v; wsConnection := wsConnection v;
     onBatchTrace := onBatchTrace v; onClose := onClose v;
     pendingTraces := pendingTraces v; throttleTimeout := x;
     throttleInterval := throttleInterval v; isFirst := isFirst v |}.

Definition set_isFirst (x : bool) (v : FocusedVault) : FocusedVault :=
  {| fv_key := fv_key v; tracesData := tracesData v; wsConnection := wsConnection v;
     onBatchTrace := onBatchTrace v; onClose := onClose v;
     pendingTraces := pendingTraces v; throttleTimeout := throttleTimeout v;
     throttleInterval := throttleInterval v; isFirst := x |}.

(** What the program does to the outside, in order. *)
Inductive Effect :=
| NewWebSocket (this : nat) (fullWsUrl : string)
| CloseWebSocket (this : nat)
| CallOnBatchTrace (this : nat) (traces : list Trace)
    (* object [this] calls the [onBatchTrace] it was constructed with *)
| CallOnClose (this : nat)
    (* object [this] calls the [onClose] it was constructed with *)
| ToFocusedVaultSubscriber (uuid : string) (l : Listener) (vault : option nat)
| ToBatchTraceSubscriber (uuid : string) (l : Listener) (traces : list Trace).

(** The trace: each effect with the clock value at which it happened. *)
Definition Log := list (Z * Effect).

(** class FocusedVaultManager, the heap and the timer queue. *)
Record World := {
  focusedVault : option nat;
  lastVaultFoundTimestamp : Z;
  vaultKeyPollingInterval : option nat;
  focusedVaultSubscribers : list (string * Listener);
  batchTraceSubscribers : list (string * Listener);
  heap : list FocusedVault;
  clock : Z;
  timers : list Timer;
  next_handle : nat;
}.

Definition set_focusedVault (x : option nat) (w : World) : World :=
  {| focusedVault := x; lastVaultFoundTimestamp := lastVaultFoundTimestamp w;
     vaultKeyPollingInterval := vaultKeyPollingInterval w;
     focusedVaultSubscribers := focusedVaultSubscribers w;
     batchTraceSubscribers := batchTraceSubscribers w; heap := heap w;
     clock := clock w; timers := timers w; next_handle := next_handle w |}.

Definition set_lastVaultFoundTimestamp (x : Z) (w : World) : World :=
  {| focusedVault := focusedVault w; lastVaultFoundTimestamp := x;
     vaultKeyPollingInterval := vaultKeyPollingInterval w;
     focusedVaultSubscribers := focusedVaultSubscribers w;
     batchTraceSubscribers := batchTraceSubscribers w; heap := heap w;
     clock := clock w; timers := timers w; next_handle := next_handle w |}.

Definition set_vaultKeyPollingInterval (x : option nat) (w : World) : World :=
  {| focusedVault := focusedVault w;
     lastVaultFoundTimestamp := lastVaultFoundTimestamp w;
     vaultKeyPollingInterval := x;
     focusedVaultSubscribers := focusedVaultSubscribers w;
     batchTraceSubscribers := batchTraceSubscribers w; heap := heap w;
     clock := clock w; timers := timers w; next_handle := next_handle w |}.

Definition set_focusedVaultSubscribers (x : list (string * Listener)) (w : World) : World :=
  {| focusedVault := focusedVault w;
     lastVaultFoundTimestamp := lastVaultFoundTimestamp w;
     vaultKeyPollingInterval := vaultKeyPollingInterval w;
     focusedVaultSubscribers := x;
     batchTraceSubscribers := batchTraceSubscribers w; heap := heap w;
     clock := clock w; timers := timers w; next_handle := next_handle w |}.

Definition set_batchTraceSubscribers (x : list (string * Listener)) (w : World) : World :=
  {| focusedVault := focusedVault w;
     lastVaultFoundTimestamp := lastVaultFoundTimestamp w;
     vaultKeyPollingInterval := vaultKeyPollingInterval w;
     focusedVaultSubscribers := focusedVaultSubscribers w;
     batchTraceSubscribers := x; heap := heap w;
     clock := clock w; timers := timers w; next_handle := next_handle w |}.

Definition set_heap (x : list FocusedVault) (w : World) : World :=
  {| focusedVault := focusedVault w;
     lastVaultFoundTimestamp := lastVaultFoundTimestamp w;
     vaultKeyPollingInterval := vaultKeyPollingInterval w;
     focusedVaultSubscribers := focusedVaultSubscribers w;
     batchTraceSubscribers := batchTraceSubscribers w; heap := x;
     clock := clock w; timers := timers w; next_handle := next_handle w |}.

Definition set_clock (x : Z) (w : World) : World :=
  {| focusedVault := focusedVault w;
     lastVaultFoundTimestamp := lastVaultFoundTimestamp w;
     vaultKeyPollingInterval := vaultKeyPollingInterval w;
     focusedVaultSubscribers := focusedVaultSubscribers w;
     batchTraceSubscribers := batchTraceSubscribers w; heap := heap w;
     clock := x; timers := timers w; next_handle := next_handle w |}.

Definition set_timers (x : list Timer) (w : World) : World :=
  {| focusedVault := focusedVault w;
     lastVaultFoundTimestamp := lastVaultFoundTimestamp w;
     vaultKeyPollingInterval := vaultKeyPollingInterval w;
     focusedVaultSubscribers := focusedVaultSubscribers w;
     batchTraceSubscribers := batchTraceSubscribers w; heap := heap w;
     clock := clock w; timers := x; next_handle := next_handle w |}.

Definition set_next_handle (x : nat) (w : World) : World :=
  {| focusedVault := focusedVault w;
     lastVaultFoundTimestamp := lastVaultFoundTimestamp w;
     vaultKeyPollingInterval := vaultKeyPollingInterval w;
     focusedVaultSubscribers := focusedVaultSubscribers w;
     batchTraceSubscribers := batchTraceSubscribers w; heap := heap w;
     clock := clock w; timers := timers w; next_handle := x |}.

(** ** The monad of handlers *)

Definition Eff (A : Type) : Type := World → A * World * Log.

#[global] Instance Eff_ret : MRet Eff := λ A a w, (a, w, []).

#[global] Instance Eff_bind : MBind Eff := λ A B f m w,
  let '(a, w1, l1) := m w in
  let '(b, w2, l2) := f a w1 in
  (b, w2, l1 ++ l2).

Definition gets {A : Type} (f : World → A) : Eff A := λ w, (f w, w, []).
Definition modify (f : World → World) : Eff unit := λ w, (tt, f w, []).
Definition emit (e : Effect) : Eff unit := λ w, (tt, w, [(clock w, e)]).

Definition when (b : bool) (m : Eff unit) : Eff unit :=
  if b then m else mret tt.

(** [m.forEach(f)] on a JS map *)
Fixpoint forEach {V : Type} (m : list (string * V)) (f : V → string → Eff unit) : Eff unit :=
  match m with
  | [] => mret tt
  | (k, v) :: m' => f v k ;; forEach m' f
  end.

Definition world_of {A : Type} (r : A * World * Log) : World := r.1.2.
Definition log_of {A : Type} (r : A * World * Log) : Log := r.2.

(** Field access through a reference.  A method is only ever called on an
    object that exists; under a dangling reference it does nothing. *)
Definition deref (this : nat) : Eff (option FocusedVault) :=
  gets (λ w, heap w !! this).

Definition update (this : nat) (f : FocusedVault → FocusedVault) : Eff unit :=
  modify (λ w, set_heap (alter f this (heap w)) w).

(** [setTimeout(action, delay)], where [delay] is the time Node waits: the
    argument itself when it lies between 1 and [2 ** 31 - 1], as the
    throttle interval of the class (800) does; the delay of the retry, which
    can leave that range, goes through [timeout_after] first
    ([retry_delay]). *)
Definition setTimeout (a : TimerAction) (delay : Z) : Eff nat :=
  λ w, let h := next_handle w in
       (h, set_next_handle (S h)
             (set_timers (timers w ++ [{| handle := h; due := clock w + delay; action := a |}]) w),
        []).

(** ** class FocusedVault *)

(** [this.onBatchTrace(traces)], the closure
    [(traces) => batchTraceSubscribers.forEach(subscriber => subscriber(traces))] *)
Definition call_onBatchTrace (this : nat) (traces : list Trace) : Eff unit :=
  cb ← gets (λ w, onBatchTrace <$> heap w !! this);
  match cb with
  | Some NotifyBatchSubscribers =>
      emit (CallOnBatchTrace this traces);;
      subscribers ← gets batchTraceSubscribers;
      forEach subscribers (λ subscriber uuid,
        emit (ToBatchTraceSubscriber uuid subscriber traces))
  | None => mret tt
  end.

(** *** The delay of the retry

    The delay is computed in IEEE 754 doubles.  The numbers that occur are
    whole and positive, or [Infinity]. *)
Inductive JsNumber : Type :=
| Finite (z : Z)
| Infinity.

(** The double nearest to the whole number [x], ties to the even
    significand: what an addition of doubles returns when its exact sum is
    [x].  A double has 53 significant bits and an exponent up to 1023. *)
Definition nearest_double (x : Z) : JsNumber :=
  let e := Z.log2 x in
  if e <=? 52 then Finite x
  else
    let ulp := 2 ^ (e - 52) in
    let q := x / ulp in
    let r := x mod ulp in
    let q' := if 2 * r <? ulp then q
              else if ulp <? 2 * r then q + 1
              else if Z.even q then q else q + 1 in
    if 1024 <=? Z.log2 (q' * ulp) then Infinity else Finite (q' * ulp).

(** [Math.pow(2, y)] for a whole [y] from 0: a power of two is a double up
    to [2^1023], beyond it the result is [Infinity]. *)
Definition Math_pow2 (y : Z) : JsNumber :=
  if y <=? 1023 then Finite (2 ^ y) else Infinity.

(** [x + y] for a whole [y] *)
Definition js_add (x : JsNumber) (y : Z) : JsNumber :=
  match x with
  | Finite z => nearest_double (z + y)
  | Infinity => Infinity
  end.

(** [Math.pow(2, (retries + 1)) + 100] *)
Definition backoff (retries : nat) : JsNumber :=
  js_add (Math_pow2 (Z.of_nat retries + 1)) 100.

(** Node's timers: [if (!(after >= 1 && after <= TIMEOUT_MAX)) after = 1],
    with [TIMEOUT_MAX = 2 ** 31 - 1]. *)
Definition TIMEOUT_MAX : Z := 2147483647.

Definition timeout_after (after : JsNumber) : Z :=
  match after with
  | Finite z => if (1 <=? z) && (z <=? TIMEOUT_MAX) then z else 1
  | Infinity => 1
  end.

(** The time after which Node runs the callback of
    [setTimeout(f, Math.pow(2, (retries + 1)) + 100)]. *)
Definition retry_delay (retries : nat) : Z := timeout_after (backoff retries).

(** [this.onClose()], the closure that schedules the guarded retry *)
Definition call_onClose (this : nat) : Eff unit :=
  cb ← gets (λ w, onClose <$> heap w !! this);
  match cb with
  | Some (RetryLater newFocusKey retries) =>
      emit (CallOnClose this);;
      setTimeout (RetrySwitch newFocusKey retries) (retry_delay retries);;
      mret tt
  | None => mret tt
  end.

Definition queueTracesForSending (this : nat) (traces : list Trace) : Eff unit :=
  update this (λ v, set_pendingTraces (pendingTraces v ++ traces) v);;
  v ← deref this;
  match v with
  | Some v =>
      match throttleTimeout v with
      | None =>
          h ← setTimeout (FlushPending this) (throttleInterval v);
          update this (set_throttleTimeout (Some h))
      | Some _ => mret tt
      end
  | None => mret tt
  end.

Definition sendTracesImmediately (this : nat) (traces : list Trace) : Eff unit :=
  when (0 <? length traces)%nat (call_onBatchTrace this traces).

Definition sendPendingTraces (this : nat) : Eff unit :=
  v ← deref this;
  match v with
  | Some v =>
      when (0 <? length (pendingTraces v))%nat (
        let tracesToSend := pendingTraces v in
        update this (set_pendingTraces []);;
        call_onBatchTrace this tracesToSend);;
      update this (set_throttleTimeout None)
  | None => mret tt
  end.

(** The ['message'] handler of the socket of [this].  A throw of
    [JSON.parse] lands in the [catch], which only logs.  (The array of a
    first frame becomes [tracesData] itself; the trace records the value
    at the time of the call.) *)
Definition on_message (this : nat) (data : Buffer) : Eff unit :=
  match JSON_parse data with
  | None => mret tt
  | Some parsedData =>
      v ← deref this;
      match v with
      | Some v =>
          match parsedData with
          | inr parsedData =>
              if isFirst v then
                update this (set_tracesData parsedData);;
                sendTracesImmediately this parsedData
              else
                update this (λ v, set_tracesData (JsArray.push_each (tracesData v) parsedData) v);;
                queueTracesForSending this parsedData
          | inl parsedData =>
              update this (λ v, set_tracesData (tracesData v ++ [parsedData]) v);;
              queueTracesForSending this [parsedData]
          end;;
          update this (set_isFirst false)
      | None => mret tt
      end
  end.

(** The ['close'] handler of the socket of [this]. *)
Definition on_close (this : nat) : Eff unit :=
  update this (set_wsConnection None);;
  call_onClose this.

Definition fullWsUrl (vaultSecretKey : string) : string :=
  replace_http_ws apiUrl +:+ "/vaults/traces/" +:+ vaultSecretKey +:+ "/stream".

Definition connectToTraceWebSocket (this : nat) (vaultSecretKey : string) : Eff unit :=
  emit (NewWebSocket this (fullWsUrl vaultSecretKey));;
  update this (λ v, set_isFirst true
                      (set_wsConnection (Some {| url := fullWsUrl vaultSecretKey |}) v)).

(** [new FocusedVault(key, onBatchTrace, onClose)]; the result is the
    reference of the new object. *)
Definition new_FocusedVault (k : string) (onBatchTrace : BatchCallback)
    (onClose : CloseCallback) : Eff nat :=
  this ← gets (λ w, length (heap w));
  modify (λ w, set_heap (heap w ++ [
    {| fv_key := k; tracesData := []; wsConnection := None;
       onBatchTrace := onBatchTrace; onClose := onClose;
       pendingTraces := []; throttleTimeout := None;
       throttleInterval := 800; isFirst := true |}]) w);;
  connectToTraceWebSocket this k;;
  mret this.

(** ** class FocusedVaultManager *)

(** [this.focusedVault?.key] *)
Definition focusedVault_key (w : World) : option string :=
  r ← focusedVault w; v ← heap w !! r; Some (fv_key v).

(** [this.focusedVault?.tracesData ?? []] *)
Definition getFocusedVaultTraces (w : World) : list Trace :=
  default [] (r ← focusedVault w; v ← heap w !! r; Some (tracesData v)).

Definition getFocusedVault (w : World) : option nat := focusedVault w.

(** [uuid] is the value of [crypto.randomUUID()]. *)
Definition subscribeToFocusedVaultChange (uuid : string) (onChange : Listener) : Eff Unsubscribe :=
  modify (λ w, set_focusedVaultSubscribers (JsMap.set uuid onChange (focusedVaultSubscribers w)) w);;
  mret (UnsubscribeFocusedVault uuid).

Definition subscribeToBatchTrace (uuid : string) (onChange : Listener) : Eff Unsubscribe :=
  modify (λ w, set_batchTraceSubscribers (JsMap.set uuid onChange (batchTraceSubscribers w)) w);;
  mret (UnsubscribeBatchTrace uuid).

(** Calling the function a subscription returned. *)
Definition call_unsubscribe (u : Unsubscribe) : Eff unit :=
  match u with
  | UnsubscribeFocusedVault uuid =>
      modify (λ w, set_focusedVaultSubscribers (JsMap.delete uuid (focusedVaultSubscribers w)) w)
  | UnsubscribeBatchTrace uuid =>
      modify (λ w, set_batchTraceSubscribers (JsMap.delete uuid (batchTraceSubscribers w)) w)
  end.

(** [this.focusedVault?.wsConnection?.close()] *)
Definition close_focused_socket : Eff unit :=
  r ← gets focusedVault;
  match r with
  | Some r =>
      v ← deref r;
      match v ≫= wsConnection with
      | Some _ => emit (CloseWebSocket r)
      | None => mret tt
      end
  | None => mret tt
  end.

Definition dispose : Eff unit :=
  modify (set_vaultKeyPollingInterval None);;
  close_focused_socket;;
  modify (set_focusedVault None).

Definition switchFocusedVault (newFocusKey : string) (retries : nat) : Eff unit :=
  k ← gets focusedVault_key;
  when (bool_decide (k ≠ Some newFocusKey)) (
    r ← gets focusedVault;
    match r with
    | Some r =>
        close_focused_socket;;
        update r (set_wsConnection None)
    | None => mret tt
    end;;
    this ← new_FocusedVault newFocusKey NotifyBatchSubscribers
              (RetryLater newFocusKey retries);
    modify (set_focusedVault (Some this)));;
  subscribers ← gets focusedVaultSubscribers;
  forEach subscribers (λ subscriber uuid,
    v ← gets focusedVault;
    emit (ToFocusedVaultSubscriber uuid subscriber v)).

(** The comparator of the sort "by recency". *)
Definition by_recency (a b : option VaultHistoryEntry) : Z :=
  match a, b with
  | Some a, Some b => createdAt b - createdAt a
  | _, _ => 0
  end.

(** The part of [checkVaultKeyAndUpdateConnection] after the [await]:
    [workspaceFolders] is [None] when no folder is open, else it holds what
    [getCurrentLocalVaultKey(...) ?? null] resolved to for every folder. *)
Definition checkVaultKeyAndUpdateConnection
    (workspaceFolders : option (list (option VaultHistoryEntry))) : Eff unit :=
  match workspaceFolders with
  | None => mret tt
  | Some vaults =>
      let vaults := filter (λ v, v ≠ None) vaults in
      let vaults := JsArray.sort by_recency vaults in
      match vaults !! 0%nat with
      | Some (Some mostRecentVault) =>
          ts ← gets lastVaultFoundTimestamp;
          when (ts <? createdAt mostRecentVault) (
            modify (set_lastVaultFoundTimestamp (createdAt mostRecentVault));;
            switchFocusedVault (key mostRecentVault) 0)
      | _ => mret tt
      end
  end.

(** [startVaultKeyMonitoring], up to the calls it makes: the first pass and
    every tick of the interval reach the state only through the
    continuation above, which the event loop runs when the lookups
    resolve. *)
Definition startVaultKeyMonitoring : Eff unit :=
  dispose;;
  h ← gets next_handle;
  modify (λ w, set_next_handle (S h) (set_vaultKeyPollingInterval (Some h) w)).

(** ** Timers and the event loop *)

Definition fire (a : TimerAction) : Eff unit :=
  match a with
  | FlushPending this => sendPendingTraces this
  | RetrySwitch newFocusKey retries =>
      k ← gets focusedVault_key;
      when (bool_decide (k = Some newFocusKey))
        (switchFocusedVault newFocusKey (retries + 1))
  end.

(** The pending timer that fires next, and the queue without it: the least
    [due], the oldest among equals. *)
Fixpoint pop_earliest (l : list Timer) : option (Timer * list Timer) :=
  match l with
  | [] => None
  | x :: l' =>
      match pop_earliest l' with
      | Some (y, rest) => if due y <? due x then Some (y, x :: rest) else Some (x, l')
      | None => Some (x, l')
      end
  end.

(** [None] when no timer is due by time [t]. *)
Definition next_due (t : Z) (l : list Timer) : option (Timer * list Timer) :=
  xr ← pop_earliest l; if due xr.1 <=? t then Some xr else None.

(** Let time pass until [t]: the due timers fire in order, each at its own
    due time. *)
Fixpoint fire_due (fuel : nat) (t : Z) : Eff unit :=
  match fuel with
  | O => mret tt
  | S fuel =>
      x ← gets (λ w, next_due t (timers w));
      match x with
      | Some (x, rest) =>
          modify (λ w, set_clock (Z.max (clock w) (due x)) (set_timers rest w));;
          fire (action x);;
          fire_due fuel t
      | None => mret tt
      end
  end.

Definition advance (t : Z) : Eff unit :=
  n ← gets (λ w, length (timers w));
  fire_due n t;;
  modify (λ w, set_clock (Z.max (clock w) t) w).

(** What the environment can make happen. *)
Inductive Input :=
| SubscribeFocusedVault (uuid : string) (onChange : Listener)
| SubscribeBatchTrace (uuid : string) (onChange : Listener)
| CallUnsubscribe (u : Unsubscribe)
| StartVaultKeyMonitoring
| Dispose
| VaultKeysResolved (workspaceFolders : option (list (option VaultHistoryEntry)))
| SwitchFocusedVault (newFocusKey : string) (retries : nat)
| SocketMessage (this : nat) (data : Buffer)
| SocketClose (this : nat).

Definition handle_input (i : Input) : Eff unit :=
  match i with
  | SubscribeFocusedVault uuid onChange =>
      subscribeToFocusedVaultChange uuid onChange;; mret tt
  | SubscribeBatchTrace uuid onChange =>
      subscribeToBatchTrace uuid onChange;; mret tt
  | CallUnsubscribe u => call_unsubscribe u
  | StartVaultKeyMonitoring => startVaultKeyMonitoring
  | Dispose => dispose
  | VaultKeysResolved workspaceFolders =>
      checkVaultKeyAndUpdateConnection workspaceFolders
  | SwitchFocusedVault newFocusKey retries => switchFocusedVault newFocusKey retries
  | SocketMessage this data => on_message this data
  | SocketClose this => on_close this
  end.

(** The event loop on a schedule of inputs, each with its arrival time. *)
Fixpoint run (schedule : list (Z * Input)) : Eff unit :=
  match schedule with
  | [] => mret tt
  | (t, i) :: schedule => advance t;; handle_input i;; run schedule
  end.

(** A manager just constructed. *)
Definition fresh : World :=
  {| focusedVault := None; lastVaultFoundTimestamp := 0;
     vaultKeyPollingInterval := None; focusedVaultSubscribers := [];
     batchTraceSubscribers := []; heap := []; clock := 0; timers := [];
     next_handle := 0 |}.

(** ** Vocabulary of the properties *)

(** The world after object [this] has become [v]. *)
Definition put (this : nat) (v : FocusedVault) (w : World) : World :=
  set_heap (<[this := v]> (heap w)) w.

(** The world after [setTimeout(a, delay)]. *)
Definition scheduled (a : TimerAction) (delay : Z) (w : World) : World :=
  set_next_handle (S (next_handle w))
    (set_timers (timers w ++ [{| handle := next_handle w; due := clock w + delay; action := a |}]) w).

(** Every focus-change subscriber is told the current focus. *)
Definition focus_notifications (w : World) : Log :=
  map (λ kv, (clock w, ToFocusedVaultSubscriber kv.1 kv.2 (focusedVault w)))
      (focusedVaultSubscribers w).

(** Every batch subscriber is handed [traces]. *)
Definition batch_notifications (w : World) (traces : list Trace) : Log :=
  map (λ kv, (clock w, ToBatchTraceSubscriber kv.1 kv.2 traces))
      (batchTraceSubscribers w).

(** What a call of [onBatchTrace] by [this] adds to the trace. *)
Definition delivery (w : World) (this : nat) (traces : list Trace) : Log :=
  (clock w, CallOnBatchTrace this traces) :: batch_notifications w traces.

(** What a first frame that is an array hands to [onBatchTrace] at once. *)
Definition immediate_delivery (w : World) (this : nat) (traces : list Trace) : Log :=
  if (0 <? length traces)%nat then delivery w this traces else [].

(** What the throttle timer of [this] delivers when it fires. *)
Definition flush_delivery (w : World) (this : nat) (v : FocusedVault) : Log :=
  if (0 <? length (pendingTraces v))%nat then delivery w this (pendingTraces v) else [].

(** What a frame other than the initial backlog hands to the batcher. *)
Definition increment (parsedData : Trace + list Trace) : list Trace :=
  match parsedData with
  | inl one => [one]
  | inr many => many
  end.

(** The object [new FocusedVault(newFocusKey, ...)] once its constructor
    has returned. *)
Definition connected (newFocusKey : string) (retries : nat) : FocusedVault :=
  {| fv_key := newFocusKey; tracesData := [];
     wsConnection := Some {| url := fullWsUrl newFocusKey |};
     onBatchTrace := NotifyBatchSubscribers;
     onClose := RetryLater newFocusKey retries;
     pendingTraces := []; throttleTimeout := None;
     throttleInterval := 800; isFirst := true |}.

(** The heap once the focused object, if any, has lost its socket. *)
Definition detached_heap (w : World) : list FocusedVault :=
  match focusedVault w with
  | Some r => alter (set_wsConnection None) r (heap w)
  | None => heap w
  end.

(** What [this.focusedVault?.wsConnection?.close()] adds to the trace. *)
Definition close_log (w : World) : Log :=
  match focusedVault w with
  | Some r =>
      match heap w !! r ≫= wsConnection with
      | Some _ => [(clock w, CloseWebSocket r)]
      | None => []
      end
  | None => []
  end.

(** The world after a switch to an identifier that was not focused. *)
Definition switched (newFocusKey : string) (retries : nat) (w : World) : World :=
  set_focusedVault (Some (length (heap w)))
    (set_heap (detached_heap w ++ [connected newFocusKey retries]) w).

(** A discovery pass in which no root yields a candidate. *)
Definition no_candidate (workspaceFolders : option (list (option VaultHistoryEntry))) : Prop :=
  match workspaceFolders with
  | None => True
  | Some vaults => Forall (λ v, v = None) vaults
  end.

(** The candidates a discovery pass reports, in folder order. *)
Definition candidates (workspaceFolders : option (list (option VaultHistoryEntry))) : list VaultHistoryEntry :=
  match workspaceFolders with
  | None => []
  | Some vaults => omap id vaults
  end.

(** The candidate with the greatest [createdAt], the first one among equals. *)
Fixpoint newest (l : list VaultHistoryEntry) : option VaultHistoryEntry :=
  match l with
  | [] => None
  | c :: l' =>
      match newest l' with
      | Some d => if createdAt c <? createdAt d then Some d else Some c
      | None => Some c
      end
  end.

(** The candidates an input reports. *)
Definition reported (i : Input) : list VaultHistoryEntry :=
  match i with
  | VaultKeysResolved workspaceFolders => candidates workspaceFolders
  | _ => []
  end.

(** Every candidate the passes of a schedule have reported, in order. *)
Definition observed (schedule : list (Z * Input)) : list VaultHistoryEntry :=
  flat_map (λ ti, reported ti.2) schedule.

(** Inputs of a run in which only discovery moves the focus: no [dispose],
    no restart, no direct call of [switchFocusedVault]. *)
Definition discovery_input (i : Input) : Prop :=
  match i with
  | Dispose | StartVaultKeyMonitoring | SwitchFocusedVault _ _ => False
  | _ => True
  end.

(** "The focused identifier is that of the newest candidate observed." *)
Definition focus_is_newest (obs : list VaultHistoryEntry) (w : World) : Prop :=
  match newest obs with
  | Some c => focusedVault_key w = Some (key c)
  | None => True
  end.

(** The calls made through the subscription [uuid] of either registry. *)
Definition to_focusedVault_subscription (uuid : string) (e : Effect) : bool :=
  match e with
  | ToFocusedVaultSubscriber k _ _ => bool_decide (k = uuid)
  | _ => false
  end.

Definition to_batchTrace_subscription (uuid : string) (e : Effect) : bool :=
  match e with
  | ToBatchTraceSubscriber k _ _ => bool_decide (k = uuid)
  | _ => false
  end.

(** The subscription [uuid] is not in the registry, and nothing is sent
    through it. *)
Definition focus_gone (uuid : string) (w : World) : Prop :=
  uuid ∉ JsMap.keys (focusedVaultSubscribers w).

Definition focus_quiet (uuid : string) (e : Effect) : Prop :=
  to_focusedVault_subscription uuid e = false.

Definition batch_gone (uuid : string) (w : World) : Prop :=
  uuid ∉ JsMap.keys (batchTraceSubscribers w).

Definition batch_quiet (uuid : string) (e : Effect) : Prop :=
  to_batchTrace_subscription uuid e = false.

(** What the batcher of object [this] holds: the pending buffer, the timer
    handle and the throttle interval. *)
Definition batcher (this : nat) (w : World) : option (list Trace * option nat * Z) :=
  (λ v, (pendingTraces v, throttleTimeout v, throttleInterval v)) <$> heap w !! this.

(** The pending flush timers of object [this]. *)
Definition flush_timers (this : nat) (w : World) : list Timer :=
  filter (λ x, action x = FlushPending this) (timers w).

(** The calls object [this] makes of its [onBatchTrace], with their times. *)
Definition batch_call (this : nat) (e : Z * Effect) : option (Z * list Trace) :=
  match e.2 with
  | CallOnBatchTrace r traces => if decide (r = this) then Some (e.1, traces) else None
  | _ => None
  end.

Definition batch_calls (this : nat) (l : Log) : list (Z * list Trace) :=
  omap (batch_call this) l.

(** An effect that is not such a call. *)
Definition not_batch_call (this : nat) (e : Effect) : Prop :=
  ∀ traces, e ≠ CallOnBatchTrace this traces.

(** [enqueue] calls on the batcher of [this], each at its time. *)
Fixpoint enqueue_all (this : nat) (calls : list (Z * list Trace)) : Eff unit :=
  match calls with
  | [] => mret tt
  | (t, traces) :: calls =>
      advance t;; queueTracesForSending this traces;; enqueue_all this calls
  end.

(** The batcher of [this], the timer queue and the clock are as given. *)
Definition undisturbed (this : nat) (b : list Trace * option nat * Z)
    (queue : list Timer) (now : Z) (w : World) : Prop :=
  batcher this w = Some b ∧ timers w = queue ∧ clock w = now.

(** Object [this] has not processed a frame yet. *)
Definition awaits_first_frame (this : nat) (w : World) : Prop :=
  isFirst <$> heap w !! this = Some true.

(** A call object [this] makes of a callback it was constructed with. *)
Definition callback_of (this : nat) (e : Effect) : bool :=
  match e with
  | CallOnBatchTrace r _ | CallOnClose r => bool_decide (r = this)
  | _ => false
  end.

(** "After [close()] on the socket of an object, the object makes no
    callback any more." *)
Fixpoint silent_after_close (l : Log) : bool :=
  match l with
  | [] => true
  | (_, CloseWebSocket this) :: l' =>
      forallb (λ e, negb (callback_of this e.2)) l' && silent_after_close l'
  | _ :: l' => silent_after_close l'
  end.

(** A handler keeps [P] true of the world and adds only effects in [G]. *)
Definition keeps {A : Type} (P : World → Prop) (G : Effect → Prop) (m : Eff A) : Prop :=
  ∀ w, P w → P (world_of (m w)) ∧ Forall (λ e, G e.2) (log_of (m w)).

(** What discovery remembers: the last accepted timestamp and the focused
    identifier. *)
Definition accepted (w : World) : Z * option string :=
  (lastVaultFoundTimestamp w, focusedVault_key w).

(** One more candidate is reported: it is accepted when it is strictly
    newer than the last accepted one. *)
Definition accept (s : Z * option string) (c : VaultHistoryEntry) : Z * option string :=
  if s.1 <? createdAt c then (createdAt c, Some (key c)) else s.

(** ** Vocabulary of the further properties *)

(** The sockets a trace opens: when, for which object, to which address. *)
Definition opened_socket (e : Z * Effect) : option (Z * nat * string) :=
  match e.2 with
  | NewWebSocket this fullWsUrl => Some (e.1, this, fullWsUrl)
  | _ => None
  end.

Definition opened_sockets (l : Log) : list (Z * nat * string) :=
  omap opened_socket l.

(** The records a frame brings. *)
Definition arrived (this : nat) (i : Input) : list Trace :=
  match i with
  | SocketMessage r data =>
      if decide (r = this) then from_option increment [] (JSON_parse data) else []
  | _ => []
  end.

(** Every record the socket of object [this] receives in a schedule, in
    order. *)
Definition received (this : nat) (schedule : list (Z * Input)) : list Trace :=
  flat_map (λ ti, arrived this ti.2) schedule.

(** Every record object [this] hands to its [onBatchTrace] in a trace, in
    order. *)
Definition delivered (this : nat) (l : Log) : list Trace :=
  concat (batch_calls this l).*2.

(** The event view of object [this] and its first-frame flag. *)
Definition stream_state (this : nat) (w : World) : option (list Trace * bool) :=
  (λ v, (tracesData v, isFirst v)) <$> heap w !! this.

(** Object [this] as a handler for something else must leave it. *)
Definition untouched (this : nat) (b : list Trace * option nat * Z)
    (flushes : list Timer) (now : Z) (s : list Trace * bool) (w : World) : Prop :=
  batcher this w = Some b ∧ flush_timers this w = flushes ∧ clock w = now ∧
  stream_state this w = Some s.

(** Object [this] in the middle of its stream: [view] is its event view,
    [pending] its buffer; a flush timer is pending exactly when the batcher
    is armed, and it is due within one interval of time [bound]. *)
Definition streaming (this : nat) (itv bound : Z) (view pending : list Trace)
    (w : World) : Prop :=
  ∃ th first,
    batcher this w = Some (pending, th, itv) ∧
    stream_state this w = Some (view, first) ∧
    (first = true → view = [] ∧ pending = []) ∧
    ((th = None ∧ pending = [] ∧ flush_timers this w = []) ∨
     (∃ x, th ≠ None ∧ flush_timers this w = [x] ∧ due x ≤ bound + itv)) ∧
    clock w ≤ bound.

(** An object knows its own identifier: its socket, if it has one, is the
    stream of that identifier, its [onClose] retries that identifier, and
    its throttle interval is the constant of the class. *)
Definition self_consistent (v : FocusedVault) : Prop :=
  (∀ ws, wsConnection v = Some ws → url ws = fullWsUrl (fv_key v)) ∧
  (∃ retries, onClose v = RetryLater (fv_key v) retries) ∧
  throttleInterval v = 800.

(** Every object is self consistent and the focus is one of the objects. *)
Definition consistent (w : World) : Prop :=
  Forall self_consistent (heap w) ∧
  (∀ r, focusedVault w = Some r → (r < length (heap w))%nat).


(** An input that cannot move the focus when the last accepted timestamp is
    [bound]: anything but a direct switch, a discovery pass only if it finds
    no vault newer than [bound]. *)
Definition stale (bound : Z) (i : Input) : Prop :=
  match i with
  | SwitchFocusedVault _ _ => False
  | VaultKeysResolved workspaceFolders =>
      ∀ c, c ∈ candidates workspaceFolders → createdAt c ≤ bound
  | _ => True
  end.

(** An effect other than the construction of a socket. *)
Definition opens_nothing (e : Effect) : Prop :=
  match e with
  | NewWebSocket _ _ => False
  | _ => True
  end.

(** Object [this] has no socket and the last accepted timestamp is [bound]. *)
Definition closed_at (this : nat) (bound : Z) (w : World) : Prop :=
  lastVaultFoundTimestamp w = bound ∧
  ∀ v, heap w !! this = Some v → wsConnection v = None.

(** Object [this], constructed for [newFocusKey] with retry count
    [retries], is the focus and has no socket. *)
Definition closed_focus (this : nat) (newFocusKey : string) (retries : nat)
    (w : World) : Prop :=
  focusedVault w = Some this ∧
  ∃ v, heap w !! this = Some v ∧ fv_key v = newFocusKey ∧
       wsConnection v = None ∧ onClose v = RetryLater newFocusKey retries.

(** The calls made through the focus-change subscription [uuid]: when, to
    which listener, with which focus. *)
Definition told (uuid : string) (l : Log) : list (Z * Listener * option nat) :=
  omap (λ e, match e.2 with
             | ToFocusedVaultSubscriber k onChange vault =>
                 if decide (k = uuid) then Some (e.1, onChange, vault) else None
             | _ => None
             end) l.

(** What the subscription [uuid] hears: when, and which focus. *)
Definition heard (uuid : string) (l : Log) : list (Z * option nat) :=
  (λ x, (x.1.1, x.2)) <$> told uuid l.

(** The focus-change registry holds [onChange] under [uuid], once. *)
Definition focus_subscribed (uuid : string) (onChange : Listener) (w : World) : Prop :=
  filter (λ kv, kv.1 = uuid) (focusedVaultSubscribers w) = [(uuid, onChange)].

(** An input that neither takes the focus-change subscription [uuid] back
    nor subscribes under [uuid] again. *)
Definition leaves_focus_subscription (uuid : string) (i : Input) : Prop :=
  match i with
  | SubscribeFocusedVault k _ => k ≠ uuid
  | CallUnsubscribe (UnsubscribeFocusedVault k) => k ≠ uuid
  | _ => True
  end.

(** An effect other than a call to a focus-change listener. *)
Definition not_focus_call (e : Effect) : Prop :=
  match e with
  | ToFocusedVaultSubscriber _ _ _ => False
  | _ => True
  end.

(** [m] keeps the invariant [P] and its log satisfies [R]. *)
Definition yields {A : Type} (P : World → Prop) (R : Log → Prop) (m : Eff A) : Prop :=
  ∀ w, P w → P (world_of (m w)) ∧ R (log_of (m w)).
End Model.

(** ** A concrete instance

    Traces are numbers and a frame is given by what it decodes to ([None]: it
    does not decode). *)

Definition DemoBuffer : Type := option (nat + list nat).

Definition demo_parse (data : DemoBuffer) : option (nat + list nat) := data.

Definition DemoSchedule : Type := list (Z * Input (Buffer := DemoBuffer)).

Definition demo_api : string := "http://localhost:8080".

Definition demo_fresh : World := fresh (Trace := nat).

Definition demo_run (schedule : DemoSchedule) : World :=
  world_of (run demo_parse demo_api schedule demo_fresh).

(** Two subscribers, then a discovery pass that finds vault ["a"]. *)
Definition demo_schedule_a : DemoSchedule :=
  [(0, SubscribeFocusedVault "u1" 1%nat);
   (0, SubscribeBatchTrace "u2" 2%nat);
   (10, VaultKeysResolved (Some [None; Some {| key := "a"; createdAt := 100 |}]))].

Definition demo_focus_a : World := demo_run demo_schedule_a.

(** A later pass finds the newer vault ["b"], and still reports ["a"]. *)
Definition demo_schedule_b : DemoSchedule :=
  demo_schedule_a ++
  [(5010, VaultKeysResolved (Some [Some {| key := "a"; createdAt := 100 |};
                                   Some {| key := "b"; createdAt := 200 |}]));
   (10010, VaultKeysResolved (Some [Some {| key := "a"; createdAt := 100 |}]))].

Definition demo_focus_b : World := demo_run demo_schedule_b.

(** The only vault found was created at time 0. *)
Definition demo_schedule_epoch : DemoSchedule :=
  [(10, VaultKeysResolved (Some [Some {| key := "a"; createdAt := 0 |}]))].

(** Vault ["a"] is focused and streams: a backlog of two records, then a
    single record that waits in the batcher. *)
Definition demo_schedule_streaming : DemoSchedule :=
  demo_schedule_a ++
  [(20, SocketMessage 0%nat (Some (inr [1; 2]%nat)));
   (30, SocketMessage 0%nat (Some (inl 3%nat)))].

Definition demo_streaming : World := demo_run demo_schedule_streaming.

Definition demo_streaming_vault : FocusedVault (Trace := nat) :=
  {| fv_key := "a"; tracesData := [1; 2; 3]%nat;
     wsConnection := Some {| url := fullWsUrl demo_api "a" |};
     onBatchTrace := NotifyBatchSubscribers; onClose := RetryLater "a" 0;
     pendingTraces := [3%nat]; throttleTimeout := Some 0%nat;
     throttleInterval := 800; isFirst := false |}.

(** Then discovery finds the newer vault ["b"]: the socket of ["a"] is
    closed while its batcher is armed. *)
Definition demo_schedule_superseded : DemoSchedule :=
  demo_schedule_streaming ++
  [(40, VaultKeysResolved (Some [Some {| key := "b"; createdAt := 200 |}]))].

(** The same, and the closed socket reports its closure. *)
Definition demo_schedule_closed : DemoSchedule :=
  demo_schedule_superseded ++ [(50, SocketClose 0%nat)].

(** What happens on a schedule, time running on until [T]. *)
Definition demo_log (schedule : DemoSchedule) (T : Z) : Log :=
  log_of ((run demo_parse demo_api schedule;; advance demo_api T) demo_fresh).


(** The stream of ["a"]: a backlog, a record, a frame that does not decode,
    and another record. *)
Definition demo_schedule_frames : DemoSchedule :=
  [(20, SocketMessage 0%nat (Some (inr [1; 2]%nat)));
   (30, SocketMessage 0%nat (Some (inl 3%nat)));
   (40, SocketMessage 0%nat None);
   (50, SocketMessage 0%nat (Some (inl 4%nat)))].

(** After the closure of the stream of ["a"]: a frame still in flight, and
    the next polling pass, which finds ["a"] again. *)
Definition demo_schedule_after_close : DemoSchedule :=
  [(20, SocketMessage 0%nat (Some (inl 5%nat)));
   (5010, VaultKeysResolved (Some [Some {| key := "a"; createdAt := 100 |}]))].

(** After a third listener has subscribed: one more subscription, a pass
    that finds the newer vault ["b"], the closure of its stream, and a
    batch subscription taken back. *)
Definition demo_schedule_switches : DemoSchedule :=
  [(20, SubscribeFocusedVault "u4" 4%nat);
   (5010, VaultKeysResolved (Some [Some {| key := "b"; createdAt := 200 |}]));
   (5020, SocketClose 1%nat);
   (6000, CallUnsubscribe (UnsubscribeBatchTrace "u2"))].
(** ** Properties *)

(** Handlers and the vocabulary are unfolded by name in the proofs, never
    by [cbn]. *)
Arguments call_onBatchTrace : simpl never.
Arguments call_onClose : simpl never.
Arguments queueTracesForSending : simpl never.
Arguments sendTracesImmediately : simpl never.
Arguments sendPendingTraces : simpl never.
Arguments on_message : simpl never.
Arguments on_close : simpl never.
Arguments new_FocusedVault : simpl never.
Arguments close_focused_socket : simpl never.
Arguments switchFocusedVault : simpl never.
Arguments checkVaultKeyAndUpdateConnection : simpl never.
Arguments dispose : simpl never.
Arguments fire : simpl never.
Arguments advance : simpl never.
Arguments focus_notifications : simpl never.
Arguments batch_notifications : simpl never.
Arguments delivery : simpl never.
Arguments immediate_delivery : simpl never.
Arguments put : simpl never.
Arguments scheduled : simpl never.
Arguments retry_delay : simpl never.
Arguments switched : simpl never.
Arguments flush_delivery : simpl never.
Arguments close_log : simpl never.

Section Properties.

Context {Trace Buffer : Type}.
Context (JSON_parse : Buffer → option (Trace + list Trace)).
Context (apiUrl : string).

(** Inside this section the parameters of the model are fixed. *)
#[local] Abbreviation Eff := (Eff (Trace := Trace)).
#[local] Abbreviation World := (World (Trace := Trace)).
#[local] Abbreviation Log := (Log (Trace := Trace)).
#[local] Abbreviation Effect := (Effect (Trace := Trace)).
#[local] Abbreviation FocusedVault := (FocusedVault (Trace := Trace)).
#[local] Abbreviation on_message := (on_message JSON_parse).
#[local] Abbreviation handle_input := (handle_input JSON_parse apiUrl).
#[local] Abbreviation run := (run JSON_parse apiUrl).
#[local] Abbreviation switchFocusedVault := (switchFocusedVault apiUrl).
#[local] Abbreviation checkVaultKeyAndUpdateConnection := (checkVaultKeyAndUpdateConnection apiUrl).
#[local] Abbreviation new_FocusedVault := (new_FocusedVault apiUrl).
#[local] Abbreviation fire := (fire apiUrl).
#[local] Abbreviation fire_due := (fire_due apiUrl).
#[local] Abbreviation advance := (advance apiUrl).
#[local] Abbreviation arrived := (arrived JSON_parse).
#[local] Abbreviation received := (received JSON_parse).
#[local] Abbreviation untouched := (untouched (Trace := Trace)).
#[local] Abbreviation streaming := (streaming (Trace := Trace)).
#[local] Abbreviation self_consistent := (self_consistent apiUrl (Trace := Trace)).
#[local] Abbreviation consistent := (consistent apiUrl (Trace := Trace)).
#[local] Abbreviation opened_sockets := (opened_sockets (Trace := Trace)).
#[local] Abbreviation stale := (stale (Buffer := Buffer)).
#[local] Abbreviation opens_nothing := (opens_nothing (Trace := Trace)).
#[local] Abbreviation closed_at := (closed_at (Trace := Trace)).
#[local] Abbreviation told := (told (Trace := Trace)).
#[local] Abbreviation heard := (heard (Trace := Trace)).
#[local] Abbreviation focus_subscribed := (focus_subscribed (Trace := Trace)).
#[local] Abbreviation leaves_focus_subscription := (leaves_focus_subscription (Buffer := Buffer)).
#[local] Abbreviation not_focus_call := (not_focus_call (Trace := Trace)).
#[local] Abbreviation closed_focus := (closed_focus (Trace := Trace)).
#[local] Abbreviation awaits_first_frame := (awaits_first_frame (Trace := Trace)).
#[local] Abbreviation undisturbed := (undisturbed (Trace := Trace)).
#[local] Abbreviation enqueue_all := (enqueue_all apiUrl).
#[local] Abbreviation not_batch_call := (not_batch_call (Trace := Trace)).
#[local] Abbreviation focus_gone := (focus_gone (Trace := Trace)).
#[local] Abbreviation focus_quiet := (focus_quiet (Trace := Trace)).
#[local] Abbreviation batch_gone := (batch_gone (Trace := Trace)).
#[local] Abbreviation batch_quiet := (batch_quiet (Trace := Trace)).
#[local] Abbreviation switched := (switched apiUrl).
#[local] Abbreviation connected := (connected (Trace := Trace) apiUrl).
#[local] Abbreviation fullWsUrl := (fullWsUrl apiUrl).

Implicit Types (w : World) (this : nat) (traces : list Trace).

(** Unfold the monad and compute as far as the state is known. *)
Ltac eff :=
  unfold update, deref, gets, modify, emit, when, mbind, mret, Eff_bind, Eff_ret;
  cbn.

Lemma bind_silent {A : Type} (m : Eff unit) (k : Eff A) w :
  m w = (tt, w, []) → (m;; k) w = k w.
Proof.
  intros Hm. unfold mbind, Eff_bind. rewrite Hm.
  destruct (k w) as [[b w2] l2]. reflexivity.
Qed.

(** A [forEach] whose callback only reports to the listener. *)
Lemma forEach_report {V : Type} (m : list (string * V))
    (f : V → string → Eff unit) (g : string → V → Effect) w :
  (∀ k v, f v k w = (tt, w, [(clock w, g k v)])) →
  forEach m f w = (tt, w, map (λ kv, (clock w, g kv.1 kv.2)) m).
Proof.
  intros Hf. induction m as [|[k v] m IH]; [reflexivity|].
  cbn [forEach]. unfold mbind, Eff_bind. rewrite (Hf k v), IH. reflexivity.
Qed.

Lemma alter_put (f : FocusedVault → FocusedVault) this v w :
  heap w !! this = Some v →
  set_heap (alter f this (heap w)) w = put this (f v) w.
Proof.
  intros Hv. unfold put. f_equal.
  apply list_eq. intros i. destruct (decide (i = this)) as [->|Hne].
  - rewrite list_lookup_alter_eq, Hv, list_lookup_insert_eq; [done|].
    by eapply lookup_lt_Some.
  - by rewrite list_lookup_alter_ne, list_lookup_insert_ne.
Qed.

Lemma heap_put this v v0 w :
  heap w !! this = Some v0 → heap (put this v w) !! this = Some v.
Proof.
  intros Hv. unfold put. cbn. apply list_lookup_insert_eq. by eapply lookup_lt_Some.
Qed.

Lemma heap_put_ne this other v w :
  this ≠ other → heap (put this v w) !! other = heap w !! other.
Proof. intros Hne. unfold put. cbn. by apply list_lookup_insert_ne. Qed.

Lemma put_put this v v' w : put this v' (put this v w) = put this v' w.
Proof. unfold put. cbn. by rewrite list_insert_insert_eq. Qed.

Lemma call_onBatchTrace_eq this traces v w :
  heap w !! this = Some v →
  call_onBatchTrace this traces w = (tt, w, delivery w this traces).
Proof.
  intros Hv. unfold call_onBatchTrace. eff. rewrite Hv. cbn.
  destruct (onBatchTrace v).
  rewrite (forEach_report _ _ (λ k v, ToBatchTraceSubscriber k v traces));
    reflexivity.
Qed.

Lemma call_onClose_eq this v newFocusKey retries w :
  heap w !! this = Some v →
  onClose v = RetryLater newFocusKey retries →
  call_onClose this w =
    (tt, scheduled (RetrySwitch newFocusKey retries) (retry_delay retries) w,
     [(clock w, CallOnClose this)]).
Proof.
  intros Hv Hc. unfold call_onClose. eff. by rewrite Hv; cbn; rewrite Hc.
Qed.

Lemma notify_focus_eq w :
  forEach (focusedVaultSubscribers w) (λ subscriber uuid,
    v ← gets focusedVault;
    emit (ToFocusedVaultSubscriber uuid subscriber v)) w
  = (tt, w, focus_notifications w).
Proof.
  apply (forEach_report _ _ (λ k v, ToFocusedVaultSubscriber k v (focusedVault w))).
  reflexivity.
Qed.

Lemma sendTracesImmediately_eq this traces v w :
  heap w !! this = Some v →
  sendTracesImmediately this traces w = (tt, w, immediate_delivery w this traces).
Proof.
  intros Hv. unfold sendTracesImmediately, immediate_delivery, when.
  destruct (0 <? length traces)%nat; [|reflexivity].
  by rewrite (call_onBatchTrace_eq _ _ _ _ Hv).
Qed.

(** [enqueue]: append, and arm the timer unless one is armed. *)
Lemma queueTracesForSending_eq this traces v w :
  heap w !! this = Some v →
  queueTracesForSending this traces w =
    (tt,
     match throttleTimeout v with
     | Some _ => put this (set_pendingTraces (pendingTraces v ++ traces) v) w
     | None =>
         put this (set_throttleTimeout (Some (next_handle w))
                     (set_pendingTraces (pendingTraces v ++ traces) v))
           (scheduled (FlushPending this) (throttleInterval v) w)
     end, []).
Proof.
  intros Hv. unfold queueTracesForSending, setTimeout. eff.
  rewrite list_lookup_alter_eq, Hv. cbn.
  rewrite (alter_put _ _ _ _ Hv).
  destruct (throttleTimeout v) as [h|]; [reflexivity|].
  unfold put, scheduled, set_heap, set_next_handle, set_timers. cbn. do 3 f_equal.
  pose proof (lookup_lt_Some _ _ _ Hv) as Hlt.
  apply list_eq. intros i. destruct (decide (i = this)) as [->|Hne].
  - rewrite list_lookup_alter_eq, !list_lookup_insert_eq; [done|done|done].
  - by rewrite list_lookup_alter_ne, !list_lookup_insert_ne.
Qed.

Lemma world_of_bind {A B : Type} (m : Eff A) (f : A → Eff B) w :
  world_of ((m ≫= f) w) = world_of (f (m w).1.1 (world_of (m w))).
Proof.
  unfold mbind, Eff_bind, world_of.
  destruct (m w) as [[a w1] l1]. cbn. by destruct (f a w1) as [[b w2] l2].
Qed.

Lemma log_of_bind {A B : Type} (m : Eff A) (f : A → Eff B) w :
  log_of ((m ≫= f) w) = log_of (m w) ++ log_of (f (m w).1.1 (world_of (m w))).
Proof.
  unfold mbind, Eff_bind, world_of, log_of.
  destruct (m w) as [[a w1] l1]. cbn. by destruct (f a w1) as [[b w2] l2].
Qed.
Lemma sendPendingTraces_eq this v w :
  heap w !! this = Some v →
  sendPendingTraces this w =
    (tt, put this (set_throttleTimeout None (set_pendingTraces [] v)) w,
     flush_delivery w this v).
Proof.
  intros Hv. unfold sendPendingTraces, flush_delivery. eff. rewrite Hv. cbn.
  destruct (pendingTraces v) as [|x pending] eqn:Hpending; cbn.
  - rewrite (alter_put _ _ _ _ Hv). do 3 f_equal.
    destruct v. cbn in *. by subst.
  - rewrite (alter_put _ _ _ _ Hv).
    erewrite call_onBatchTrace_eq by (by eapply heap_put).
    rewrite app_nil_r.
    rewrite (alter_put _ _ (set_pendingTraces [] v)) by (by eapply heap_put).
    by rewrite put_put.
Qed.

Lemma on_message_undecodable this data w :
  JSON_parse data = None → on_message this data w = (tt, w, []).
Proof. intros Hp. unfold on_message. by rewrite Hp. Qed.

(** The first frame, when it is an array: the initial backlog. *)
Lemma on_message_backlog this data parsedData v w :
  JSON_parse data = Some (inr parsedData) →
  heap w !! this = Some v →
  isFirst v = true →
  on_message this data w =
    (tt, put this (set_isFirst false (set_tracesData parsedData v)) w,
     immediate_delivery w this parsedData).
Proof.
  intros Hp Hv Hfirst. unfold on_message. rewrite Hp. eff.
  rewrite Hv, Hfirst. cbn. rewrite (alter_put _ _ _ _ Hv).
  erewrite sendTracesImmediately_eq by (by eapply heap_put).
  rewrite (alter_put _ _ (set_tracesData parsedData v)) by (by eapply heap_put).
  by rewrite put_put, app_nil_r.
Qed.

Lemma push_each_app {A : Type} (target a : list A) :
  JsArray.push_each target a = target ++ a.
Proof.
  unfold JsArray.push_each. revert target.
  induction a as [|x a IH]; intros target; cbn.
  - by rewrite app_nil_r.
  - by rewrite IH, <- app_assoc.
Qed.

Lemma put_scheduled_put this v v' a delay w :
  put this v' (scheduled a delay (put this v w)) = put this v' (scheduled a delay w).
Proof.
  unfold put, scheduled, set_heap. cbn. by rewrite list_insert_insert_eq.
Qed.

(** An increment that finds object [v]: what the batcher and the handler's
    last line leave behind. *)
Lemma queue_and_clear_first this traces v0 v w :
  heap w !! this = Some v0 →
  (let '(_, w1, l1) := queueTracesForSending this traces (put this v w) in
   (tt, set_heap (alter (set_isFirst false) this (heap w1)) w1, l1 ++ []))
  = (tt,
     put this
       (set_isFirst false
          (set_throttleTimeout
             (match throttleTimeout v with
              | Some h => Some h
              | None => Some (next_handle w)
              end)
             (set_pendingTraces (pendingTraces v ++ traces) v)))
       (match throttleTimeout v with
        | Some _ => w
        | None => scheduled (FlushPending this) (throttleInterval v) w
        end),
     []).
Proof.
  intros Hv0.
  assert (heap (put this v w) !! this = Some v) as Hv by (by eapply heap_put).
  rewrite (queueTracesForSending_eq _ _ _ _ Hv).
  destruct (throttleTimeout v) as [h|] eqn:Hh.
  - rewrite put_put. erewrite alter_put by (by eapply heap_put).
    rewrite put_put. do 4 f_equal. destruct v; cbn in *; by subst.
  - erewrite alter_put.
    2:{ eapply heap_put. unfold scheduled. cbn. exact Hv. }
    by rewrite put_put, put_scheduled_put.
Qed.

(** Any other decodable frame: an increment. *)
Lemma on_message_increment this data parsedData v w :
  JSON_parse data = Some parsedData →
  heap w !! this = Some v →
  (isFirst v = false ∨ ∃ one, parsedData = inl one) →
  on_message this data w =
    (tt,
     put this
       (set_isFirst false
          (set_throttleTimeout
             (match throttleTimeout v with
              | Some h => Some h
              | None => Some (next_handle w)
              end)
             (set_pendingTraces (pendingTraces v ++ increment parsedData)
                (set_tracesData (tracesData v ++ increment parsedData) v))))
       (match throttleTimeout v with
        | Some _ => w
        | None => scheduled (FlushPending this) (throttleInterval v) w
        end),
     []).
Proof.
  intros Hp Hv Hcase. unfold on_message. rewrite Hp. eff. rewrite Hv. cbn.
  destruct parsedData as [one|many]; cbn.
  - rewrite (alter_put _ _ _ _ Hv).
    pose proof (queue_and_clear_first this [one]
      v (set_tracesData (tracesData v ++ [one]) v) w Hv) as Hq.
    cbn in Hq. destruct (queueTracesForSending _ _ _) as [[[] w1] l1].
    exact Hq.
  - destruct Hcase as [Hfirst|[one ?]]; [|done]. rewrite Hfirst.
    rewrite (alter_put _ _ _ _ Hv), push_each_app.
    pose proof (queue_and_clear_first this many
      v (set_tracesData (tracesData v ++ many) v) w Hv) as Hq.
    cbn in Hq. destruct (queueTracesForSending _ _ _) as [[[] w1] l1].
    exact Hq.
Qed.

Lemma on_close_eq this v newFocusKey retries w :
  heap w !! this = Some v →
  onClose v = RetryLater newFocusKey retries →
  on_close this w =
    (tt,
     scheduled (RetrySwitch newFocusKey retries) (retry_delay retries)
       (put this (set_wsConnection None v) w),
     [(clock w, CallOnClose this)]).
Proof.
  intros Hv Hc. unfold on_close. eff. rewrite (alter_put _ _ _ _ Hv).
  erewrite call_onClose_eq; [reflexivity|by eapply heap_put|exact Hc].
Qed.

Lemma close_focused_socket_eq w :
  close_focused_socket w = (tt, w, close_log w).
Proof.
  unfold close_focused_socket, close_log. eff.
  destruct (focusedVault w) as [r|]; [|reflexivity]. cbn.
  by destruct (option_bind _ _ _ _).
Qed.

Lemma new_FocusedVault_eq newFocusKey retries w :
  new_FocusedVault newFocusKey NotifyBatchSubscribers (RetryLater newFocusKey retries) w =
    (length (heap w), set_heap (heap w ++ [connected newFocusKey retries]) w,
     [(clock w, NewWebSocket (length (heap w)) (fullWsUrl newFocusKey))]).
Proof.
  unfold new_FocusedVault, connectToTraceWebSocket. eff.
  do 2 f_equal. unfold set_heap. cbn. f_equal.
  rewrite alter_app_r_alt by lia. by rewrite Nat.sub_diag.
Qed.

(** A switch to an identifier that is not the focused one. *)
Lemma switchFocusedVault_other newFocusKey retries w :
  focusedVault_key w ≠ Some newFocusKey →
  switchFocusedVault newFocusKey retries w =
    (tt, switched newFocusKey retries w,
     close_log w
       ++ [(clock w, NewWebSocket (length (heap w)) (fullWsUrl newFocusKey))]
       ++ focus_notifications (switched newFocusKey retries w)).
Proof.
  intros Hk. unfold switchFocusedVault. eff.
  rewrite bool_decide_eq_true_2 by done.
  unfold switched, focus_notifications, detached_heap, close_log.
  destruct (focusedVault w) as [r|] eqn:Hr; cbn.
  - rewrite close_focused_socket_eq.
    rewrite new_FocusedVault_eq. cbn. rewrite length_alter.
    erewrite (forEach_report _ _
      (λ k v, ToFocusedVaultSubscriber k v (Some (length (heap w)))))
      by reflexivity.
    unfold close_log. rewrite Hr. cbn.
    by rewrite !app_nil_r, <- app_assoc.
  - rewrite new_FocusedVault_eq. cbn.
    erewrite (forEach_report _ _
      (λ k v, ToFocusedVaultSubscriber k v (Some (length (heap w)))))
      by reflexivity.
    reflexivity.
Qed.
Lemma focusedVault_key_put this v v0 w :
  heap w !! this = Some v0 →
  fv_key v = fv_key v0 →
  focusedVault_key (put this v w) = focusedVault_key w.
Proof.
  intros Hv Hk. unfold focusedVault_key, put. cbn.
  destruct (focusedVault w) as [r|]; [|reflexivity]. cbn.
  destruct (decide (this = r)) as [->|Hne].
  - rewrite list_lookup_insert_eq by (by eapply lookup_lt_Some).
    rewrite Hv. cbn. by rewrite Hk.
  - by rewrite list_lookup_insert_ne.
Qed.

Lemma fire_retry_stale newFocusKey retries w :
  focusedVault_key w ≠ Some newFocusKey →
  fire (RetrySwitch newFocusKey retries) w = (tt, w, []).
Proof.
  intros Hk. unfold fire. eff. by rewrite bool_decide_eq_false_2.
Qed.

Lemma fire_retry_focused newFocusKey retries w :
  focusedVault_key w = Some newFocusKey →
  fire (RetrySwitch newFocusKey retries) w
  = switchFocusedVault newFocusKey (retries + 1) w.
Proof.
  intros Hk. unfold fire. eff. rewrite bool_decide_eq_true_2 by done.
  by destruct (switchFocusedVault _ _ _) as [[[] ?] ?].
Qed.

Lemma switchFocusedVault_same newFocusKey retries w :
  focusedVault_key w = Some newFocusKey →
  switchFocusedVault newFocusKey retries w = (tt, w, focus_notifications w).
Proof.
  intros Hk. unfold switchFocusedVault. eff. rewrite Hk.
  rewrite bool_decide_eq_false_2 by (by intros H; apply H).
  by rewrite notify_focus_eq.
Qed.

(** Whatever the focus is when it fires, a scheduled retry leaves the state
    as it is: under another focus it does nothing, under its own it finds
    the identifier already focused. *)
Lemma fire_retry_keeps_world newFocusKey retries w :
  world_of (fire (RetrySwitch newFocusKey retries) w) = w.
Proof.
  destruct (decide (focusedVault_key w = Some newFocusKey)) as [Hk|Hk].
  - by rewrite (fire_retry_focused _ _ _ Hk), (switchFocusedVault_same _ _ _ Hk).
  - by rewrite (fire_retry_stale _ _ _ Hk).
Qed.

(** C4: a retry that fires when the focused identifier is not the one it was
    scheduled for (another identifier, or no focus at all) does nothing.  In
    particular, when the socket of an object whose identifier is not focused
    closes, the handler only schedules that guarded retry: it switches
    nothing and opens nothing, and the retry is a no-op when it fires. *)
Theorem C4_superseded_retry_is_noop newFocusKey retries w :
  focusedVault_key w ≠ Some newFocusKey →
  fire (RetrySwitch newFocusKey retries) w = (tt, w, []) ∧
  ∀ this v,
    heap w !! this = Some v →
    onClose v = RetryLater newFocusKey retries →
    let w' := world_of (on_close this w) in
    log_of (on_close this w) = [(clock w, CallOnClose this)] ∧
    focusedVault w' = focusedVault w ∧
    length (heap w') = length (heap w) ∧
    fire (RetrySwitch newFocusKey retries) w' = (tt, w', []).
Proof.
  intros Hk. split; [by apply fire_retry_stale|].
  intros this v Hv Hc. cbn zeta.
  rewrite (on_close_eq _ _ _ _ _ Hv Hc). unfold world_of, log_of. cbn.
  split; [reflexivity|]. split; [reflexivity|]. split.
  - unfold scheduled, put. cbn. by rewrite length_insert.
  - apply fire_retry_stale.
    change (focusedVault_key (put this (set_wsConnection None v) w) ≠ Some newFocusKey).
    by erewrite focusedVault_key_put.
Qed.

(** C7: [switchFocusedVault] on the identifier that is already focused
    leaves the whole state alone (no socket closed or opened, no buffer
    reset) and still tells every focus-change subscriber the current focus. *)
Theorem C7_same_identifier_only_notifies newFocusKey retries w :
  focusedVault_key w = Some newFocusKey →
  switchFocusedVault newFocusKey retries w = (tt, w, focus_notifications w).
Proof. apply switchFocusedVault_same. Qed.

(** C8: a discovery pass in which no root yields a candidate (no workspace
    folder, or every lookup absent) leaves the whole state as it was and
    notifies nobody. *)
Theorem C8_empty_pass_changes_nothing workspaceFolders w :
  no_candidate workspaceFolders →
  checkVaultKeyAndUpdateConnection workspaceFolders w = (tt, w, []).
Proof.
  unfold checkVaultKeyAndUpdateConnection.
  destruct workspaceFolders as [vaults|]; [|reflexivity].
  cbn. intros Hall.
  assert (filter (λ v : option VaultHistoryEntry, v ≠ None) vaults = []) as ->.
  { induction Hall as [|x l Hx _ IH]; [reflexivity|].
    subst x. rewrite filter_cons_False; [exact IH|]. intros H. by apply H. }
  reflexivity.
Qed.

(** C10: a frame that fails to decode changes nothing at all, the
    first-frame flag included; the frame after it is handled as if the
    undecodable one had never arrived, and if it is the first decodable frame
    and an array, it is the initial backlog. *)
Theorem C10_undecodable_frame_is_dropped this data w :
  JSON_parse data = None →
  on_message this data w = (tt, w, []) ∧
  (∀ data', (on_message this data;; on_message this data') w = on_message this data' w) ∧
  (∀ data' parsedData v,
      JSON_parse data' = Some (inr parsedData) →
      heap w !! this = Some v →
      isFirst v = true →
      let r := (on_message this data;; on_message this data') w in
      heap (world_of r) !! this = Some (set_isFirst false (set_tracesData parsedData v)) ∧
      log_of r = immediate_delivery w this parsedData).
Proof.
  intros Hp. pose proof (on_message_undecodable this data w Hp) as Hdrop.
  split; [exact Hdrop|]. split.
  - intros data'. by apply bind_silent.
  - intros data' parsedData v Hp' Hv Hfirst. cbn zeta.
    rewrite (bind_silent _ _ _ Hdrop).
    rewrite (on_message_backlog _ _ _ _ _ Hp' Hv Hfirst).
    unfold world_of, log_of. cbn. split; [|reflexivity].
    by eapply heap_put.
Qed.
(** *** Invariants of handlers *)

Lemma fire_due_S fuel t :
  fire_due (S fuel) t =
    (x ← gets (λ w, next_due t (timers w));
     match x with
     | Some (x, rest) =>
         modify (λ w, set_clock (Z.max (clock w) (due x)) (set_timers rest w));;
         fire (action x);;
         fire_due fuel t
     | None => mret tt
     end).
Proof. reflexivity. Qed.

Lemma run_cons t i schedule :
  run ((t, i) :: schedule) = (advance t;; handle_input i;; run schedule).
Proof. reflexivity. Qed.

Section Keeps.

Context (P : World → Prop) (G : Effect → Prop).

Lemma keeps_ret {A : Type} (a : A) : keeps P G (mret a).
Proof. intros w HP. split; [exact HP|constructor]. Qed.

Lemma keeps_bind {A B : Type} (m : Eff A) (f : A → Eff B) :
  keeps P G m → (∀ a, keeps P G (f a)) → keeps P G (m ≫= f).
Proof.
  intros Hm Hf w HP. unfold mbind, Eff_bind.
  destruct (Hm w HP) as [HP1 HG1]. destruct (m w) as [[a w1] l1].
  destruct (Hf a w1 HP1) as [HP2 HG2]. destruct (f a w1) as [[b w2] l2].
  unfold world_of, log_of in *. cbn in *. split; [exact HP2|].
  by apply Forall_app.
Qed.

Lemma keeps_gets {A : Type} (f : World → A) : keeps P G (gets f).
Proof. intros w HP. split; [exact HP|constructor]. Qed.

Lemma keeps_modify (f : World → World) :
  (∀ w, P w → P (f w)) → keeps P G (modify f).
Proof. intros Hf w HP. split; [by apply Hf|constructor]. Qed.

Lemma keeps_emit (e : Effect) : G e → keeps P G (emit e).
Proof. intros He w HP. split; [exact HP|]. by repeat constructor. Qed.

Lemma keeps_when (b : bool) (m : Eff unit) :
  keeps P G m → keeps P G (when b m).
Proof. intros Hm. destruct b; [exact Hm|apply keeps_ret]. Qed.

Lemma keeps_forEach {V : Type} (m : list (string * V)) (f : V → string → Eff unit) :
  (∀ v k, (k, v) ∈ m → keeps P G (f v k)) → keeps P G (forEach m f).
Proof.
  induction m as [|[k v] m IH]; intros Hf; [apply keeps_ret|].
  cbn [forEach]. apply keeps_bind.
  - apply Hf. by left.
  - intros _. apply IH. intros v' k' Hin. apply Hf. by right.
Qed.

Lemma keeps_setTimeout a delay :
  (∀ w, P w → P (scheduled a delay w)) → keeps P G (setTimeout a delay).
Proof. intros Hs w HP. split; [by apply Hs|constructor]. Qed.

(** An invariant of every timer callback that does not read the clock or
    the timer queue is an invariant of the passing of time. *)
Lemma keeps_fire_due fuel t :
  (∀ w c l, P w → P (set_clock c (set_timers l w))) →
  (∀ a, keeps P G (fire a)) →
  keeps P G (fire_due fuel t).
Proof.
  intros Hclock Hfire. induction fuel as [|fuel IH]; [apply keeps_ret|].
  rewrite fire_due_S. apply keeps_bind; [apply keeps_gets|].
  intros [[x rest]|]; [|apply keeps_ret].
  apply keeps_bind; [apply keeps_modify; intros; by apply Hclock|]. intros _.
  apply keeps_bind; [apply Hfire|]. intros _. exact IH.
Qed.

Lemma keeps_advance t :
  (∀ w c l, P w → P (set_clock c (set_timers l w))) →
  (∀ a, keeps P G (fire a)) →
  keeps P G (advance t).
Proof.
  intros Hclock Hfire. unfold advance.
  apply keeps_bind; [apply keeps_gets|]. intros n.
  apply keeps_bind; [by apply keeps_fire_due|]. intros _.
  apply keeps_modify. intros w HP.
  replace (set_clock (Z.max (clock w) t) w)
    with (set_clock (Z.max (clock w) t) (set_timers (timers w) w));
    [by apply Hclock|by destruct w].
Qed.

Lemma keeps_run (ok : Input → Prop) schedule :
  (∀ w c l, P w → P (set_clock c (set_timers l w))) →
  (∀ a, keeps P G (fire a)) →
  (∀ i, ok i → keeps P G (handle_input i)) →
  Forall (λ ti, ok ti.2) schedule →
  keeps P G (run schedule).
Proof.
  intros Hclock Hfire Hinput Hok.
  induction Hok as [|[t i] schedule Hi _ IH]; [apply keeps_ret|].
  rewrite run_cons. apply keeps_bind; [by apply keeps_advance|]. intros _.
  apply keeps_bind; [by apply Hinput|]. intros _. exact IH.
Qed.

End Keeps.
(** Walk through the body of a handler with the rules for [keeps]; [side]
    settles what they leave (a state update, an emitted effect). *)
Ltac keeps_walk side :=
  repeat first
    [ apply keeps_ret
    | apply keeps_gets
    | apply keeps_emit; side
    | apply keeps_modify; side
    | apply keeps_setTimeout; side
    | apply keeps_when
    | apply keeps_forEach; intros ? ? ?
    | apply keeps_bind; [|intros ?]
    | match goal with
      | |- keeps _ _ (match ?x with _ => _ end) => destruct x
      end ].


(** The same walk, with [leaf] tried first on every handler it meets. *)
Ltac keeps_walk_with leaf side :=
  repeat first
    [ leaf
    | apply keeps_ret
    | apply keeps_gets
    | apply keeps_emit; side
    | apply keeps_modify; side
    | apply keeps_setTimeout; side
    | apply keeps_when
    | apply keeps_forEach; intros ? ? ?
    | apply keeps_bind; [|intros ?]
    | match goal with
      | |- keeps _ _ (match ?x with _ => _ end) => destruct x
      end ].

(** *** Discovery *)

Lemma insert_head {A : Type} (cmp : A → A → Z) (x : A) (s : list A) :
  JsArray.insert cmp x s !! 0%nat =
    Some (match s !! 0%nat with
          | Some y => if cmp x y <=? 0 then x else y
          | None => x
          end).
Proof. destruct s as [|y s]; cbn; [reflexivity|]. by destruct (cmp x y <=? 0). Qed.

(** The head of the array sorted by recency is the newest candidate. *)
Lemma sort_head (vaults : list (option VaultHistoryEntry)) :
  JsArray.sort by_recency (filter (λ v, v ≠ None) vaults) !! 0%nat
  = Some <$> newest (omap id vaults).
Proof.
  induction vaults as [|[c|] vaults IH].
  - reflexivity.
  - rewrite filter_cons_True by done. unfold JsArray.sort in *. cbn [foldr].
    rewrite insert_head, IH. cbn.
    destruct (newest (omap id vaults)) as [d|]; cbn; [|reflexivity].
    destruct (Z.leb_spec (createdAt d - createdAt c) 0),
      (Z.ltb_spec (createdAt c) (createdAt d)); (reflexivity || lia).
  - rewrite filter_cons_False by (by intros H; apply H). exact IH.
Qed.

Lemma checkVaultKeyAndUpdateConnection_eq workspaceFolders w :
  checkVaultKeyAndUpdateConnection workspaceFolders w =
    match newest (candidates workspaceFolders) with
    | Some mostRecentVault =>
        if lastVaultFoundTimestamp w <? createdAt mostRecentVault
        then switchFocusedVault (key mostRecentVault) 0
               (set_lastVaultFoundTimestamp (createdAt mostRecentVault) w)
        else (tt, w, [])
    | None => (tt, w, [])
    end.
Proof.
  unfold checkVaultKeyAndUpdateConnection, candidates.
  destruct workspaceFolders as [vaults|]; [|reflexivity].
  cbn zeta. rewrite sort_head.
  destruct (newest (omap id vaults)) as [c|]; cbn [fmap option_fmap option_map]; [|reflexivity].
  eff. destruct (lastVaultFoundTimestamp w <? createdAt c); [|reflexivity].
  by destruct (switchFocusedVault _ _ _) as [[[] ?] ?].
Qed.

(** After [switchFocusedVault k], the focused identifier is [k]. *)
Lemma switchFocusedVault_accepted newFocusKey retries w :
  accepted (world_of (switchFocusedVault newFocusKey retries w))
  = (lastVaultFoundTimestamp w, Some newFocusKey).
Proof.
  destruct (decide (focusedVault_key w = Some newFocusKey)) as [Hk|Hk].
  - rewrite (switchFocusedVault_same _ _ _ Hk). unfold accepted, world_of. cbn.
    by rewrite Hk.
  - rewrite (switchFocusedVault_other _ _ _ Hk). unfold accepted, world_of. cbn.
    f_equal. unfold focusedVault_key, switched. cbn.
    rewrite lookup_app_r; unfold detached_heap;
      destruct (focusedVault w); rewrite ?length_alter; try lia.
    all: by rewrite Nat.sub_diag.
Qed.

Lemma check_accepted workspaceFolders w :
  accepted (world_of (checkVaultKeyAndUpdateConnection workspaceFolders w))
  = match newest (candidates workspaceFolders) with
    | Some c => accept (accepted w) c
    | None => accepted w
    end.
Proof.
  rewrite checkVaultKeyAndUpdateConnection_eq.
  destruct (newest (candidates workspaceFolders)) as [c|]; [|reflexivity].
  unfold accept. cbn.
  destruct (lastVaultFoundTimestamp w <? createdAt c); [|reflexivity].
  by rewrite switchFocusedVault_accepted.
Qed.

(** Accepting the candidates one by one ends with the newest of them, if it
    is newer than what was accepted before. *)
Lemma fold_accept (l : list VaultHistoryEntry) (s : Z * option string) :
  fold_left accept l s
  = match newest l with
    | Some c => accept s c
    | None => s
    end.
Proof.
  revert s. induction l as [|c l IH]; intros s; [reflexivity|].
  cbn. rewrite IH. unfold accept.
  destruct (newest l) as [d|]; [|reflexivity].
  destruct (Z.ltb_spec s.1 (createdAt c)); cbn;
    destruct (Z.ltb_spec (createdAt c) (createdAt d)); cbn;
    repeat case_match; try reflexivity;
    repeat match goal with
    | H : (_ <? _) = true |- _ => apply Z.ltb_lt in H
    | H : (_ <? _) = false |- _ => apply Z.ltb_ge in H
    end; lia.
Qed.

Lemma newest_Some_in (l : list VaultHistoryEntry) c :
  newest l = Some c → c ∈ l.
Proof.
  revert c. induction l as [|x l IH]; intros c; [done|]. cbn.
  destruct (newest l) as [d|].
  - destruct (createdAt x <? createdAt d); intros [= <-].
    + right. by apply IH.
    + by left.
  - intros [= <-]. by left.
Qed.

Lemma focusedVault_key_alter f this w :
  (∀ v, fv_key (f v) = fv_key v) →
  focusedVault_key (set_heap (alter f this (heap w)) w) = focusedVault_key w.
Proof.
  intros Hf. unfold focusedVault_key. cbn.
  destruct (focusedVault w) as [r|]; [|reflexivity]. cbn.
  destruct (decide (this = r)) as [->|Hne].
  - rewrite list_lookup_alter_eq. destruct (heap w !! r); cbn; [|reflexivity].
    by rewrite Hf.
  - by rewrite list_lookup_alter_ne.
Qed.

(** Settles the state updates that do not touch what discovery remembers. *)
Ltac accepted_side :=
  first
    [ exact I
    | let w := fresh "w" in
      let H := fresh "H" in
      intros w H; unfold accepted in *; cbn beta;
      first [ exact H
            | rewrite focusedVault_key_alter; [exact H|reflexivity] ] ].

Lemma fire_keeps_accepted s a :
  keeps (λ w, accepted w = s) (λ _, True) (fire a).
Proof.
  destruct a as [this|newFocusKey retries].
  - unfold fire, sendPendingTraces, call_onBatchTrace. keeps_walk accepted_side.
  - intros w Hw. destruct (decide (focusedVault_key w = Some newFocusKey)) as [Hk|Hk].
    + rewrite (fire_retry_focused _ _ _ Hk), (switchFocusedVault_same _ _ _ Hk).
      split; [exact Hw|]. apply Forall_forall. done.
    + rewrite (fire_retry_stale _ _ _ Hk). split; [exact Hw|constructor].
Qed.

Lemma input_keeps_accepted s i :
  discovery_input i →
  (∀ workspaceFolders, i ≠ VaultKeysResolved workspaceFolders) →
  keeps (λ w, accepted w = s) (λ _, True) (handle_input i).
Proof.
  intros Hi Hpass. destruct i; try done; try (exfalso; by eapply Hpass).
  all: unfold handle_input, call_unsubscribe, on_message, sendTracesImmediately,
    queueTracesForSending, call_onBatchTrace, on_close, call_onClose.
  all: keeps_walk accepted_side.
Qed.

Lemma pass_or_not (i : Input (Buffer := Buffer)) :
  (∃ workspaceFolders, i = VaultKeysResolved workspaceFolders) ∨
  (∀ workspaceFolders, i ≠ VaultKeysResolved workspaceFolders).
Proof. destruct i; try (by right); left; by eexists. Qed.

Lemma advance_keeps_accepted s t :
  keeps (λ w, accepted w = s) (λ _, True) (advance t).
Proof.
  apply keeps_advance; [|apply fire_keeps_accepted].
  intros w c l Hw. exact Hw.
Qed.

(** What a run remembers: the candidates of its passes, accepted one by one. *)
Lemma run_accepted schedule :
  Forall (λ ti, discovery_input ti.2) schedule →
  ∀ w, accepted (world_of (run schedule w))
       = fold_left accept (observed schedule) (accepted w).
Proof.
  induction 1 as [|[t i] schedule Hi _ IH]; intros w; [reflexivity|].
  rewrite run_cons, !world_of_bind, IH.
  change (observed ((t, i) :: schedule)) with (reported i ++ observed schedule).
  rewrite fold_left_app. f_equal.
  set (w1 := world_of (advance t w)).
  assert (accepted w1 = accepted w) as <-
    by (by apply (advance_keeps_accepted (accepted w) t w)).
  destruct (pass_or_not i) as [[workspaceFolders ->]|Hne'].
  - change (handle_input (VaultKeysResolved workspaceFolders) w1)
      with (checkVaultKeyAndUpdateConnection workspaceFolders w1).
    by rewrite check_accepted, fold_accept.
  - rewrite (proj1 (input_keeps_accepted (accepted w1) i Hi Hne' w1 eq_refl)).
    by destruct i; try done; destruct (Hne' workspaceFolders).
Qed.

(** Settles the state updates that leave the last accepted timestamp. *)
Ltac timestamp_side :=
  first [ exact I | let w := fresh "w" in let H := fresh "H" in intros w H; exact H ].

Lemma fire_keeps_timestamp ts a :
  keeps (λ w, lastVaultFoundTimestamp w = ts) (λ _, True) (fire a).
Proof.
  intros w Hw.
  destruct (fire_keeps_accepted (accepted w) a w eq_refl) as [Hacc Hlog].
  split; [|exact Hlog]. unfold accepted in Hacc. congruence.
Qed.

Lemma input_keeps_timestamp ts i :
  (∀ workspaceFolders, i ≠ VaultKeysResolved workspaceFolders) →
  keeps (λ w, lastVaultFoundTimestamp w = ts) (λ _, True) (handle_input i).
Proof.
  intros Hpass. destruct i; try (exfalso; by eapply Hpass).
  all: unfold handle_input, call_unsubscribe, on_message, sendTracesImmediately,
    queueTracesForSending, call_onBatchTrace, on_close, call_onClose,
    startVaultKeyMonitoring, dispose, switchFocusedVault, close_focused_socket,
    new_FocusedVault, connectToTraceWebSocket.
  all: keeps_walk timestamp_side.
Qed.

(** A pass moves the timestamp only to a candidate that is strictly newer. *)
Lemma check_timestamp workspaceFolders w :
  let w' := world_of (checkVaultKeyAndUpdateConnection workspaceFolders w) in
  lastVaultFoundTimestamp w' = lastVaultFoundTimestamp w ∨
  ∃ c, c ∈ candidates workspaceFolders ∧
       lastVaultFoundTimestamp w < createdAt c ∧
       lastVaultFoundTimestamp w' = createdAt c ∧
       focusedVault_key w' = Some (key c).
Proof.
  cbn zeta. pose proof (check_accepted workspaceFolders w) as Hacc.
  destruct (newest (candidates workspaceFolders)) as [c|] eqn:Hc.
  - unfold accept, accepted in Hacc. cbn in Hacc.
    destruct (Z.ltb_spec (lastVaultFoundTimestamp w) (createdAt c)) as [Hlt|Hge].
    + right. exists c. injection Hacc as Hts Hk.
      split; [by apply newest_Some_in|done].
    + left. congruence.
  - left. unfold accepted in Hacc. congruence.
Qed.

(** C1, as the code has it: in a run from a fresh manager in which only
    discovery moves the focus, the focused identifier is that of the newest
    candidate observed so far (the first one among equals) as soon as one
    with a positive [createdAt] has been observed, and until then no vault is
    focused; the last accepted timestamp never decreases, and it moves only
    in a pass, to a candidate whose [createdAt] strictly exceeds it, which
    then becomes the focus. *)
Theorem C1_focus_follows_newest_candidate schedule :
  Forall (λ ti, discovery_input ti.2) schedule →
  let w' := world_of (run schedule fresh) in
  (∀ c, newest (observed schedule) = Some c → 0 < createdAt c →
     focus_is_newest (observed schedule) w' ∧
     lastVaultFoundTimestamp w' = createdAt c) ∧
  ((∀ c, newest (observed schedule) = Some c → createdAt c ≤ 0) →
     focusedVault_key w' = None ∧ lastVaultFoundTimestamp w' = 0) ∧
  (∀ w t i,
     lastVaultFoundTimestamp w
     ≤ lastVaultFoundTimestamp (world_of ((advance t;; handle_input i) w))) ∧
  (∀ w i,
     let w1 := world_of (handle_input i w) in
     lastVaultFoundTimestamp w1 ≠ lastVaultFoundTimestamp w →
     ∃ workspaceFolders c,
       i = VaultKeysResolved workspaceFolders ∧
       c ∈ candidates workspaceFolders ∧
       lastVaultFoundTimestamp w < createdAt c ∧
       lastVaultFoundTimestamp w1 = createdAt c ∧
       focusedVault_key w1 = Some (key c)).
Proof.
  intros Hok. cbn zeta.
  pose proof (run_accepted schedule Hok fresh) as Hacc.
  rewrite fold_accept in Hacc. unfold focus_is_newest.
  assert (∀ w i,
    lastVaultFoundTimestamp (world_of (handle_input i w)) ≠ lastVaultFoundTimestamp w →
    ∃ workspaceFolders c,
      i = VaultKeysResolved workspaceFolders ∧ c ∈ candidates workspaceFolders ∧
      lastVaultFoundTimestamp w < createdAt c ∧
      lastVaultFoundTimestamp (world_of (handle_input i w)) = createdAt c ∧
      focusedVault_key (world_of (handle_input i w)) = Some (key c)) as Hstep.
  { intros w i Hne.
    destruct (pass_or_not i) as [[workspaceFolders ->]|Hnp].
    - destruct (check_timestamp workspaceFolders w) as [Heq|(c & ? & ? & ? & ?)].
      + by destruct Hne.
      + by exists workspaceFolders, c.
    - destruct Hne. by apply input_keeps_timestamp. }
  unfold accepted, accept in Hacc. cbn in Hacc.
  split; [|split; [|split]].
  - intros c Hc Hpos. rewrite Hc in *.
    rewrite (proj2 (Z.ltb_lt _ _) Hpos) in Hacc.
    by injection Hacc as -> ->.
  - intros Hold. destruct (newest (observed schedule)) as [c|].
    + rewrite (proj2 (Z.ltb_ge _ _) (Hold c eq_refl)) in Hacc.
      by injection Hacc as -> ->.
    + by injection Hacc as -> ->.
  - intros w t i. rewrite world_of_bind.
    set (w1 := world_of (advance t w)).
    assert (lastVaultFoundTimestamp w1 = lastVaultFoundTimestamp w) as <-.
    { apply (keeps_advance (λ w0, lastVaultFoundTimestamp w0 = lastVaultFoundTimestamp w)
               (λ _, True) t); [by intros|apply fire_keeps_timestamp|reflexivity]. }
    destruct (decide (lastVaultFoundTimestamp (world_of (handle_input i w1))
                      = lastVaultFoundTimestamp w1)) as [->|Hne]; [lia|].
    destruct (Hstep w1 i Hne) as (? & c & _ & _ & Hlt & -> & _). lia.
  - exact Hstep.
Qed.
(** *** Subscriber registries *)

Lemma not_in_keys_delete {V : Type} (k : string) (m : list (string * V)) :
  k ∉ JsMap.keys (JsMap.delete k m).
Proof.
  unfold JsMap.keys, JsMap.delete. intros Hin.
  apply list_elem_of_fmap in Hin as ([k' v] & -> & Hin).
  apply list_elem_of_filter in Hin as [Hne _]. by apply Hne.
Qed.

Lemma keys_delete_subseteq {V : Type} (k k' : string) (m : list (string * V)) :
  k ∉ JsMap.keys m → k ∉ JsMap.keys (JsMap.delete k' m).
Proof.
  unfold JsMap.keys, JsMap.delete. intros Hk Hin. apply Hk.
  apply list_elem_of_fmap in Hin as (kv & -> & Hin).
  apply list_elem_of_filter in Hin as [_ Hin].
  apply list_elem_of_fmap. by exists kv.
Qed.

Lemma keys_set {V : Type} (k k' : string) (v : V) (m : list (string * V)) :
  k ≠ k' → k ∉ JsMap.keys m → k ∉ JsMap.keys (JsMap.set k' v m).
Proof.
  intros Hne. unfold JsMap.keys. induction m as [|[k0 v0] m IH]; cbn.
  - intros _ Hin. apply list_elem_of_singleton in Hin. done.
  - intros Hk. apply not_elem_of_cons in Hk as [Hk0 Hk].
    destruct (decide (k0 = k')) as [->|?]; cbn.
    + apply not_elem_of_cons. done.
    + apply not_elem_of_cons. split; [done|]. by apply IH.
Qed.

Section Silent.

Context (uuid : string).

Lemma focus_notifications_quiet w :
  focus_gone uuid w → Forall (λ e, focus_quiet uuid e.2) (focus_notifications w).
Proof.
  unfold focus_gone, focus_notifications, JsMap.keys. intros Hgone.
  apply Forall_forall. intros e Hin.
  apply list_elem_of_fmap in Hin as ([k l] & -> & Hin). cbn.
  apply bool_decide_eq_false_2. intros ->. apply Hgone.
  apply list_elem_of_fmap. by exists (uuid, l).
Qed.

Lemma batch_notifications_quiet w traces :
  batch_gone uuid w → Forall (λ e, batch_quiet uuid e.2) (batch_notifications w traces).
Proof.
  unfold batch_gone, batch_notifications, JsMap.keys. intros Hgone.
  apply Forall_forall. intros e Hin.
  apply list_elem_of_fmap in Hin as ([k l] & -> & Hin). cbn.
  apply bool_decide_eq_false_2. intros ->. apply Hgone.
  apply list_elem_of_fmap. by exists (uuid, l).
Qed.

Lemma close_log_quiet (G : Effect → Prop) w :
  (∀ r, G (CloseWebSocket r)) → Forall (λ e, G e.2) (close_log w).
Proof.
  intros HG. unfold close_log. destruct (focusedVault w) as [r|]; [|constructor].
  destruct (heap w !! r ≫= wsConnection); repeat constructor. apply HG.
Qed.

Lemma switchFocusedVault_keeps_focus_gone newFocusKey retries :
  keeps (focus_gone uuid) (focus_quiet uuid) (switchFocusedVault newFocusKey retries).
Proof.
  intros w Hgone.
  destruct (decide (focusedVault_key w = Some newFocusKey)) as [Hk|Hk].
  - rewrite (switchFocusedVault_same _ _ _ Hk).
    split; [exact Hgone|]. by apply focus_notifications_quiet.
  - rewrite (switchFocusedVault_other _ _ _ Hk).
    split; [exact Hgone|]. unfold log_of. cbn.
    apply Forall_app. split; [by apply close_log_quiet|].
    constructor; [reflexivity|]. by apply focus_notifications_quiet.
Qed.

Lemma call_onBatchTrace_keeps_batch_gone this traces :
  keeps (batch_gone uuid) (batch_quiet uuid) (call_onBatchTrace this traces).
Proof.
  intros w Hgone. destruct (heap w !! this) as [v|] eqn:Hv.
  - rewrite (call_onBatchTrace_eq _ _ _ _ Hv).
    split; [exact Hgone|]. unfold log_of, delivery. cbn.
    constructor; [reflexivity|]. by apply batch_notifications_quiet.
  - unfold call_onBatchTrace. eff. rewrite Hv. split; [exact Hgone|constructor].
Qed.

End Silent.

(** Settles the updates that cannot bring a removed subscription back. *)
Ltac gone_side :=
  first
    [ reflexivity
    | let w := fresh "w" in
      let H := fresh "H" in
      intros w H;
      first [ exact H
            | apply keys_delete_subseteq; exact H
            | apply keys_set; [done|exact H] ] ].

Lemma fire_keeps_focus_gone uuid a :
  keeps (focus_gone uuid) (focus_quiet uuid) (fire a).
Proof.
  destruct a as [this|newFocusKey retries];
    unfold fire, sendPendingTraces, call_onBatchTrace;
    keeps_walk_with ltac:(apply switchFocusedVault_keeps_focus_gone) gone_side.
Qed.

Lemma fire_keeps_batch_gone uuid a :
  keeps (batch_gone uuid) (batch_quiet uuid) (fire a).
Proof.
  destruct a as [this|newFocusKey retries];
    unfold fire, sendPendingTraces, switchFocusedVault, close_focused_socket,
      new_FocusedVault, connectToTraceWebSocket;
    keeps_walk_with ltac:(apply call_onBatchTrace_keeps_batch_gone) gone_side.
Qed.

Lemma input_keeps_focus_gone uuid i :
  (∀ l, i ≠ SubscribeFocusedVault uuid l) →
  keeps (focus_gone uuid) (focus_quiet uuid) (handle_input i).
Proof.
  intros Hfresh.
  assert (∀ k l, i = SubscribeFocusedVault k l → uuid ≠ k) as Hne
    by (intros k l -> <-; by eapply Hfresh).
  destruct i; try specialize (Hne _ _ eq_refl).
  all: unfold handle_input, subscribeToFocusedVaultChange, subscribeToBatchTrace,
    call_unsubscribe, on_message, sendTracesImmediately, queueTracesForSending,
    call_onBatchTrace, on_close, call_onClose, startVaultKeyMonitoring, dispose,
    checkVaultKeyAndUpdateConnection, close_focused_socket.
  all: keeps_walk_with ltac:(apply switchFocusedVault_keeps_focus_gone) gone_side.
Qed.

Lemma input_keeps_batch_gone uuid i :
  (∀ l, i ≠ SubscribeBatchTrace uuid l) →
  keeps (batch_gone uuid) (batch_quiet uuid) (handle_input i).
Proof.
  intros Hfresh.
  assert (∀ k l, i = SubscribeBatchTrace k l → uuid ≠ k) as Hne
    by (intros k l -> <-; by eapply Hfresh).
  destruct i; try specialize (Hne _ _ eq_refl).
  all: unfold handle_input, subscribeToFocusedVaultChange, subscribeToBatchTrace,
    call_unsubscribe, on_message, sendTracesImmediately, queueTracesForSending,
    on_close, call_onClose, startVaultKeyMonitoring, dispose,
    checkVaultKeyAndUpdateConnection, switchFocusedVault, close_focused_socket,
    new_FocusedVault, connectToTraceWebSocket.
  all: keeps_walk_with ltac:(apply call_onBatchTrace_keeps_batch_gone) gone_side.
Qed.

Lemma filter_map_comm {A B : Type} (f : A → B) (P : B → Prop)
    `{∀ b, Decision (P b)} (l : list A) :
  filter P (map f l) = map f (filter (λ a, P (f a)) l).
Proof.
  induction l as [|a l IH]; [reflexivity|]. cbn [map].
  destruct (decide (P (f a))) as [Hp|Hp].
  - rewrite !filter_cons_True by done. cbn [map]. by rewrite IH.
  - rewrite !filter_cons_False by done. exact IH.
Qed.

(** C9: once the function returned by a subscription has been called, no
    later dispatch reaches that subscription, whatever happens next (as long
    as [crypto.randomUUID] does not hand its uuid out again); the registry it
    was in sends every later notification to the other subscriptions exactly
    as before, in the same order, and the other registry is untouched. *)
Theorem C9_unsubscribed_listener_is_silent uuid w schedule :
  Forall (λ ti, ∀ l, ti.2 ≠ SubscribeFocusedVault uuid l
                     ∧ ti.2 ≠ SubscribeBatchTrace uuid l) schedule →
  (let w0 := world_of (call_unsubscribe (UnsubscribeFocusedVault uuid) w) in
   Forall (λ e, to_focusedVault_subscription uuid e.2 = false)
     (log_of (run schedule w0)) ∧
   focus_notifications w0
   = filter (λ e, to_focusedVault_subscription uuid e.2 = false) (focus_notifications w) ∧
   batchTraceSubscribers w0 = batchTraceSubscribers w) ∧
  (let w0 := world_of (call_unsubscribe (UnsubscribeBatchTrace uuid) w) in
   Forall (λ e, to_batchTrace_subscription uuid e.2 = false)
     (log_of (run schedule w0)) ∧
   (∀ traces,
      batch_notifications w0 traces
      = filter (λ e, to_batchTrace_subscription uuid e.2 = false)
          (batch_notifications w traces)) ∧
   focusedVaultSubscribers w0 = focusedVaultSubscribers w).
Proof.
  intros Hfresh. split; cbn zeta.
  - split; [|split; [|reflexivity]].
    + apply (keeps_run (focus_gone uuid) (focus_quiet uuid)
               (λ i, ∀ l, i ≠ SubscribeFocusedVault uuid l)).
      * by intros.
      * apply fire_keeps_focus_gone.
      * apply input_keeps_focus_gone.
      * eapply Forall_impl; [exact Hfresh|]. intros ti Hti l. apply Hti.
      * apply not_in_keys_delete.
    + unfold focus_notifications, world_of. cbn. unfold JsMap.delete.
      etrans; [|symmetry; apply filter_map_comm].
      f_equal. apply list_filter_iff. intros [k l]. cbn.
      by rewrite bool_decide_eq_false.
  - split; [|split; [|reflexivity]].
    + apply (keeps_run (batch_gone uuid) (batch_quiet uuid)
               (λ i, ∀ l, i ≠ SubscribeBatchTrace uuid l)).
      * by intros.
      * apply fire_keeps_batch_gone.
      * apply input_keeps_batch_gone.
      * eapply Forall_impl; [exact Hfresh|]. intros ti Hti l. apply Hti.
      * apply not_in_keys_delete.
    + intros traces. unfold batch_notifications, world_of. cbn. unfold JsMap.delete.
      etrans; [|symmetry; apply filter_map_comm].
      f_equal. apply list_filter_iff. intros [k l]. cbn.
      by rewrite bool_decide_eq_false.
Qed.
(** *** The batcher *)

Lemma pop_earliest_split (l : list Timer) y rest :
  pop_earliest l = Some (y, rest) →
  ∃ l1 l2, l = l1 ++ y :: l2 ∧ rest = l1 ++ l2.
Proof.
  revert y rest. induction l as [|x l IH]; intros y rest; [done|]. cbn.
  destruct (pop_earliest l) as [[z rest']|].
  - destruct (due z <? due x); intros [= <- <-].
    + destruct (IH z rest' eq_refl) as (l1 & l2 & -> & ->).
      by exists (x :: l1), l2.
    + by exists [], l.
  - intros [= <- <-]. by exists [], l.
Qed.

Lemma pop_earliest_least (l : list Timer) y rest :
  pop_earliest l = Some (y, rest) → ∀ z, z ∈ l → due y ≤ due z.
Proof.
  revert y rest. induction l as [|x l IH]; intros y rest; [done|]. cbn.
  destruct (pop_earliest l) as [[z rest']|] eqn:Hpop.
  - destruct (Z.ltb_spec (due z) (due x)); intros [= <- <-] z' Hin.
    + apply elem_of_cons in Hin as [->|Hin]; [lia|by eapply IH].
    + apply elem_of_cons in Hin as [->|Hin]; [lia|].
      pose proof (IH z rest' eq_refl z' Hin). lia.
  - intros [= <- <-] z' Hin. apply elem_of_cons in Hin as [->|Hin]; [lia|].
    destruct l; [by apply elem_of_nil in Hin|]. cbn in Hpop.
    by destruct (pop_earliest l) as [[? ?]|]; [destruct (_ <? _)|].
Qed.

Lemma pop_earliest_None (l : list Timer) : pop_earliest l = None → l = [].
Proof.
  destruct l as [|x l]; [done|]. cbn.
  by destruct (pop_earliest l) as [[? ?]|]; [destruct (_ <? _)|].
Qed.

Lemma batch_calls_app this (l1 l2 : Log) :
  batch_calls this (l1 ++ l2) = batch_calls this l1 ++ batch_calls this l2.
Proof. apply omap_app. Qed.

Lemma batch_calls_quiet this (l : Log) :
  Forall (λ e, not_batch_call this e.2) l → batch_calls this l = [].
Proof.
  induction 1 as [|[t e] l He _ IH]; [reflexivity|].
  unfold batch_calls in *. cbn. rewrite IH. unfold batch_call. cbn in *.
  destruct e; try reflexivity. case_decide; [|reflexivity].
  subst. by destruct (He traces).
Qed.

Lemma batch_calls_delivery this w traces :
  batch_calls this (delivery w this traces) = [(clock w, traces)].
Proof.
  unfold delivery, batch_calls. cbn. unfold batch_call at 1. cbn.
  rewrite decide_True by done. f_equal.
  apply (batch_calls_quiet this). unfold batch_notifications.
  apply Forall_forall. intros e Hin.
  apply list_elem_of_fmap in Hin as (kv & -> & _). by intros traces'.
Qed.

Lemma batcher_alter this i g w :
  (i ≠ this ∨ ∀ v, (pendingTraces (g v), throttleTimeout (g v), throttleInterval (g v))
                   = (pendingTraces v, throttleTimeout v, throttleInterval v)) →
  batcher this (set_heap (alter g i (heap w)) w) = batcher this w.
Proof.
  intros Hg. unfold batcher. cbn.
  destruct (decide (i = this)) as [->|Hne].
  - destruct Hg as [?|Hg]; [done|].
    rewrite list_lookup_alter_eq. destruct (heap w !! this); cbn; [|done].
    by rewrite Hg.
  - by rewrite list_lookup_alter_ne.
Qed.

Lemma batcher_alloc this b x w :
  batcher this w = Some b → batcher this (set_heap (heap w ++ [x]) w) = Some b.
Proof.
  unfold batcher. cbn. destruct (heap w !! this) as [v|] eqn:Hv; [|done].
  intros Hb. by rewrite (lookup_app_l_Some _ _ _ _ Hv).
Qed.

(** Settles the updates that leave the batcher of an object, the timer queue
    and the clock alone. *)
Ltac frame_side :=
  first
    [ let traces := fresh "traces" in intros traces; congruence
    | let w := fresh "w" in
      let Hb := fresh "Hb" in
      let Ht := fresh "Ht" in
      let Hc := fresh "Hc" in
      intros w (Hb & Ht & Hc); split; [|split; [exact Ht|exact Hc]];
      first [ exact Hb
            | rewrite batcher_alter;
              [exact Hb|first [left; congruence|right; reflexivity]]
            | by apply batcher_alloc ] ].

(** A timer that is not the flush timer of [this] does not touch its batcher
    and delivers nothing on its behalf. *)
Lemma fire_other_frame this b queue now a :
  a ≠ FlushPending this →
  keeps (undisturbed this b queue now) (not_batch_call this) (fire a).
Proof.
  intros Hne. destruct a as [other|newFocusKey retries].
  - assert (other ≠ this) by congruence.
    unfold fire, sendPendingTraces, call_onBatchTrace. keeps_walk frame_side.
  - unfold fire, switchFocusedVault, close_focused_socket, new_FocusedVault,
      connectToTraceWebSocket.
    keeps_walk frame_side.
Qed.

Lemma fire_due_stop fuel t w :
  next_due t (timers w) = None → fire_due fuel t w = (tt, w, []).
Proof.
  intros Hnone. destruct fuel; [reflexivity|]. rewrite fire_due_S.
  unfold mbind, Eff_bind, gets. by rewrite Hnone.
Qed.

Lemma fire_due_step fuel t w y rest :
  next_due t (timers w) = Some (y, rest) →
  let w1 := set_clock (Z.max (clock w) (due y)) (set_timers rest w) in
  let w2 := world_of (fire (action y) w1) in
  world_of (fire_due (S fuel) t w) = world_of (fire_due fuel t w2) ∧
  log_of (fire_due (S fuel) t w)
  = log_of (fire (action y) w1) ++ log_of (fire_due fuel t w2).
Proof.
  intros Hnext. cbn zeta. rewrite fire_due_S.
  unfold mbind, Eff_bind, gets, modify, world_of, log_of. rewrite Hnext.
  destruct (fire (action y) _) as [[[] w2] l2]. cbn.
  by destruct (fire_due fuel t w2) as [[[] w3] l3].
Qed.

Lemma advance_eq t w :
  let w' := world_of (fire_due (length (timers w)) t w) in
  world_of (advance t w) = set_clock (Z.max (clock w') t) w' ∧
  log_of (advance t w) = log_of (fire_due (length (timers w)) t w).
Proof.
  cbn zeta. unfold advance, mbind, Eff_bind, gets, modify, world_of, log_of.
  destruct (fire_due _ t w) as [[[] w'] l']. cbn. by rewrite !app_nil_r.
Qed.

Lemma next_due_Some t (l : list Timer) y rest :
  next_due t l = Some (y, rest) → pop_earliest l = Some (y, rest) ∧ due y ≤ t.
Proof.
  unfold next_due. destruct (pop_earliest l) as [[z rest']|]; [|done]. cbn.
  destruct (Z.leb_spec (due z) t); [|done]. intros [= <- <-]. done.
Qed.

Lemma flush_timers_pop this w y rest :
  pop_earliest (timers w) = Some (y, rest) →
  action y ≠ FlushPending this →
  filter (λ x, action x = FlushPending this) rest = flush_timers this w.
Proof.
  intros Hpop Hy. unfold flush_timers.
  destruct (pop_earliest_split _ _ _ Hpop) as (l1 & l2 & -> & ->).
  by rewrite !filter_app, filter_cons_False.
Qed.

(** While no flush timer of [this] is due, the passing of time leaves its
    batcher alone and delivers nothing on its behalf. *)
Lemma fire_due_frame this b fuel t w :
  batcher this w = Some b →
  Forall (λ x, t < due x) (flush_timers this w) →
  let r := fire_due fuel t w in
  batcher this (world_of r) = Some b ∧
  flush_timers this (world_of r) = flush_timers this w ∧
  batch_calls this (log_of r) = [] ∧
  clock w ≤ clock (world_of r) ≤ Z.max (clock w) t.
Proof.
  cbn zeta. revert w. induction fuel as [|fuel IH]; intros w Hb Hlate.
  { cbn. repeat split; try done; lia. }
  destruct (next_due t (timers w)) as [[y rest]|] eqn:Hnext.
  2:{ rewrite (fire_due_stop _ _ _ Hnext). cbn. repeat split; try done; lia. }
  destruct (fire_due_step fuel t w y rest Hnext) as [-> ->].
  destruct (next_due_Some _ _ _ _ Hnext) as [Hpop Hdue].
  assert (action y ≠ FlushPending this) as Hy.
  { intros Hy. assert (y ∈ flush_timers this w) as Hin.
    { apply list_elem_of_filter. split; [done|].
      destruct (pop_earliest_split _ _ _ Hpop) as (l1 & l2 & -> & _).
      apply elem_of_app. right. by left. }
    rewrite Forall_forall in Hlate. specialize (Hlate y Hin). lia. }
  set (w1 := set_clock (Z.max (clock w) (due y)) (set_timers rest w)).
  destruct (fire_other_frame this b rest (clock w1) (action y) Hy w1)
    as [(Hb2 & Ht2 & Hc2) Hlog]; [done|].
  set (w2 := world_of (fire (action y) w1)) in *.
  assert (flush_timers this w2 = flush_timers this w) as Hf2.
  { unfold flush_timers at 1. rewrite Ht2. exact (flush_timers_pop this w y rest Hpop Hy). }
  destruct (IH w2 Hb2) as (Hb3 & Hf3 & Hl3 & Hc3); [by rewrite Hf2|].
  split; [exact Hb3|]. split; [congruence|]. split.
  - by rewrite batch_calls_app, (batch_calls_quiet _ _ Hlog), Hl3.
  - rewrite Hc2 in Hc3. unfold w1 in Hc3. cbn in Hc3. lia.
Qed.

Lemma batcher_Some this w P th itv :
  batcher this w = Some (P, th, itv) →
  ∃ v, heap w !! this = Some v ∧ pendingTraces v = P ∧
       throttleTimeout v = th ∧ throttleInterval v = itv.
Proof.
  unfold batcher. destruct (heap w !! this) as [v|]; [|done].
  intros [= <- <- <-]. by exists v.
Qed.

Lemma batcher_put this v v0 w :
  heap w !! this = Some v0 →
  batcher this (put this v w)
  = Some (pendingTraces v, throttleTimeout v, throttleInterval v).
Proof. intros Hv. unfold batcher. by rewrite (heap_put _ _ _ _ Hv). Qed.

(** The flush timer of [this] fires: one delivery of what is pending, if
    anything is, at the time the timer was due. *)
Lemma fire_due_flush this P th itv x fuel T w :
  batcher this w = Some (P, th, itv) →
  flush_timers this w = [x] →
  due x ≤ T →
  clock w ≤ due x →
  (length (timers w) ≤ fuel)%nat →
  batch_calls this (log_of (fire_due fuel T w))
  = if decide (P = []) then [] else [(due x, P)].
Proof.
  revert w. induction fuel as [|fuel IH]; intros w Hb Hx HT Hclock Hfuel.
  { assert (x ∈ flush_timers this w) as Hin by (rewrite Hx; by left).
    apply list_elem_of_filter in Hin as [_ Hin].
    destruct (timers w); [by apply elem_of_nil in Hin|cbn in Hfuel; lia]. }
  assert (x ∈ timers w) as Hin.
  { assert (x ∈ flush_timers this w) as Hin by (rewrite Hx; by left).
    by apply list_elem_of_filter in Hin as [_ Hin]. }
  destruct (pop_earliest (timers w)) as [[y rest]|] eqn:Hpop.
  2:{ apply pop_earliest_None in Hpop. rewrite Hpop in Hin.
      by apply elem_of_nil in Hin. }
  pose proof (pop_earliest_least _ _ _ Hpop x Hin) as Hleast.
  assert (next_due T (timers w) = Some (y, rest)) as Hnext.
  { unfold next_due. rewrite Hpop. cbn.
    destruct (Z.leb_spec (due y) T); [done|lia]. }
  destruct (fire_due_step fuel T w y rest Hnext) as [_ ->].
  destruct (pop_earliest_split _ _ _ Hpop) as (l1 & l2 & Hsplit & ->).
  set (w1 := set_clock (Z.max (clock w) (due y)) (set_timers (l1 ++ l2) w)).
  destruct (decide (action y = FlushPending this)) as [Hy|Hy].
  - assert (filter (λ z, action z = FlushPending this) l1 = [] ∧ y = x ∧
            filter (λ z, action z = FlushPending this) l2 = []) as (Hl1 & -> & Hl2).
    { unfold flush_timers in Hx. rewrite Hsplit, filter_app, filter_cons_True in Hx by done.
      destruct (filter _ l1) as [|z l1'].
      - cbn in Hx. by injection Hx as -> ->.
      - cbn in Hx. injection Hx as -> Hx. by destruct l1'. }
    destruct (batcher_Some _ _ _ _ _ Hb) as (v & Hv & HP & Hth & Hitv).
    assert (heap w1 !! this = Some v) as Hv1 by exact Hv.
    rewrite Hy. unfold fire. rewrite (sendPendingTraces_eq _ _ _ Hv1).
    set (w2 := put this (set_throttleTimeout None (set_pendingTraces [] v)) w1).
    change (world_of (tt, w2, flush_delivery w1 this v)) with w2.
    change (log_of (tt, w2, flush_delivery w1 this v)) with (flush_delivery w1 this v).
    rewrite batch_calls_app.
    destruct (fire_due_frame this ([], None, itv) fuel T w2) as (_ & _ & -> & _).
    { unfold w2. rewrite (batcher_put _ _ _ _ Hv1). cbn. by rewrite Hitv. }
    { unfold flush_timers, w2, w1, put. cbn. by rewrite filter_app, Hl1, Hl2. }
    rewrite app_nil_r. unfold flush_delivery. rewrite HP.
    destruct P as [|p P]; [reflexivity|]. cbn [length Nat.ltb Nat.leb].
    rewrite batch_calls_delivery. rewrite decide_False by done.
    do 2 f_equal. unfold w1. cbn. lia.
  - destruct (fire_other_frame this (P, th, itv) (l1 ++ l2) (clock w1) (action y) Hy w1)
      as [(Hb2 & Ht2 & Hc2) Hlog]; [done|].
    set (w2 := world_of (fire (action y) w1)) in *.
    rewrite batch_calls_app, (batch_calls_quiet _ _ Hlog). cbn [app].
    apply IH; try done.
    + unfold flush_timers. rewrite Ht2.
      rewrite <- Hx. symmetry. unfold flush_timers.
      rewrite Hsplit, !filter_app, filter_cons_False by done. done.
    + rewrite Hc2. unfold w1. cbn. lia.
    + rewrite Ht2. rewrite Hsplit in Hfuel.
      rewrite length_app in *. cbn in Hfuel. lia.
Qed.

Lemma advance_frame this b t w :
  batcher this w = Some b →
  Forall (λ x, t < due x) (flush_timers this w) →
  let w' := world_of (advance t w) in
  batcher this w' = Some b ∧
  flush_timers this w' = flush_timers this w ∧
  batch_calls this (log_of (advance t w)) = [] ∧
  clock w' = Z.max (clock w) t.
Proof.
  intros Hb Hlate. cbn zeta. destruct (advance_eq t w) as [-> ->].
  destruct (fire_due_frame this b (length (timers w)) t w Hb Hlate)
    as (Hb' & Hf' & Hl' & Hc').
  repeat split; try done. cbn. lia.
Qed.

Lemma advance_flush this P th itv x T w :
  batcher this w = Some (P, th, itv) →
  flush_timers this w = [x] →
  due x ≤ T →
  clock w ≤ due x →
  batch_calls this (log_of (advance T w))
  = if decide (P = []) then [] else [(due x, P)].
Proof.
  intros Hb Hx HT Hclock. destruct (advance_eq T w) as [_ ->].
  by eapply fire_due_flush.
Qed.

Lemma enqueue_armed this P h itv traces w :
  batcher this w = Some (P, Some h, itv) →
  let r := queueTracesForSending this traces w in
  batcher this (world_of r) = Some (P ++ traces, Some h, itv) ∧
  flush_timers this (world_of r) = flush_timers this w ∧
  clock (world_of r) = clock w ∧
  log_of r = [].
Proof.
  intros Hb. destruct (batcher_Some _ _ _ _ _ Hb) as (v & Hv & HP & Hth & Hitv).
  cbn zeta. rewrite (queueTracesForSending_eq _ _ _ _ Hv), Hth.
  unfold world_of, log_of. cbn [fst snd].
  rewrite (batcher_put _ _ _ _ Hv). cbn. by rewrite HP, Hth, Hitv.
Qed.

Lemma enqueue_unarmed this P itv traces w :
  batcher this w = Some (P, None, itv) →
  let r := queueTracesForSending this traces w in
  batcher this (world_of r) = Some (P ++ traces, Some (next_handle w), itv) ∧
  flush_timers this (world_of r)
  = flush_timers this w
      ++ [{| handle := next_handle w; due := clock w + itv;
             action := FlushPending this |}] ∧
  clock (world_of r) = clock w ∧
  log_of r = [].
Proof.
  intros Hb. destruct (batcher_Some _ _ _ _ _ Hb) as (v & Hv & HP & Hth & Hitv).
  cbn zeta. rewrite (queueTracesForSending_eq _ _ _ _ Hv), Hth.
  unfold world_of, log_of. cbn [fst snd].
  assert (heap (scheduled (FlushPending this) (throttleInterval v) w) !! this = Some v)
    as Hv' by exact Hv.
  rewrite (batcher_put _ _ _ _ Hv'). cbn. rewrite HP, Hitv.
  split; [done|]. split; [|done].
  unfold flush_timers, put, scheduled. cbn.
  rewrite filter_app. f_equal. by rewrite filter_cons_True.
Qed.

Lemma enqueue_all_cons_log this t traces calls T w :
  let w1 := world_of (advance t w) in
  let w2 := world_of (queueTracesForSending this traces w1) in
  log_of ((enqueue_all this ((t, traces) :: calls);; advance T) w)
  = log_of (advance t w) ++ log_of (queueTracesForSending this traces w1)
      ++ log_of ((enqueue_all this calls;; advance T) w2).
Proof.
  cbn zeta.
  change (enqueue_all this ((t, traces) :: calls))
    with (advance t;; queueTracesForSending this traces;; enqueue_all this calls).
  rewrite !log_of_bind, !world_of_bind. by rewrite <- !app_assoc.
Qed.

(** The enqueues that follow the first one of a window, and its end. *)
Lemma enqueue_rest this P h itv x calls T w :
  batcher this w = Some (P, Some h, itv) →
  flush_timers this w = [x] →
  clock w < due x →
  Forall (λ c, c.1 < due x) calls →
  due x ≤ T →
  batch_calls this (log_of ((enqueue_all this calls;; advance T) w))
  = if decide (P ++ concat calls.*2 = []) then []
    else [(due x, P ++ concat calls.*2)].
Proof.
  revert P w. induction calls as [|[t traces] calls IH];
    intros P w Hb Hx Hclock Hcalls HT.
  - cbn. rewrite app_nil_r. rewrite bind_silent by reflexivity.
    eapply advance_flush; try done. lia.
  - apply Forall_cons in Hcalls as [Ht Hcalls]. cbn in Ht.
    rewrite enqueue_all_cons_log.
    destruct (advance_frame this _ t w Hb) as (Hb1 & Hf1 & Hl1 & Hc1).
    { rewrite Hx. by repeat constructor. }
    set (w1 := world_of (advance t w)) in *.
    destruct (enqueue_armed this P h itv traces w1 Hb1) as (Hb2 & Hf2 & Hc2 & Hl2).
    set (w2 := world_of (queueTracesForSending this traces w1)) in *.
    rewrite !batch_calls_app, Hl1, Hl2. cbn [app batch_calls omap].
    rewrite (IH (P ++ traces) w2); try done.
    + cbn. by rewrite <- app_assoc.
    + congruence.
    + rewrite Hc2, Hc1. lia.
Qed.

(** C3, as the code has it: the enqueues of one throttle window, the first
    one into an empty and unarmed batcher, are followed by exactly one flush
    callback, at the end of the window, with the concatenation of what was
    enqueued, in order, provided that concatenation is not empty; when it is
    empty (every enqueued sequence was empty) the timer fires and calls
    nothing.  And as long as nothing is enqueued, no flush callback is made. *)
Theorem C3_one_flush_per_window this v w t0 first rest T :
  heap w !! this = Some v →
  pendingTraces v = [] →
  throttleTimeout v = None →
  flush_timers this w = [] →
  0 < throttleInterval v →
  clock w ≤ t0 →
  Forall (λ c, t0 ≤ c.1 < t0 + throttleInterval v) rest →
  t0 + throttleInterval v ≤ T →
  let calls := (t0, first) :: rest in
  batch_calls this (log_of ((enqueue_all this calls;; advance T) w))
  = (if decide (concat calls.*2 = []) then []
     else [(t0 + throttleInterval v, concat calls.*2)]) ∧
  batch_calls this (log_of (advance T w)) = [].
Proof.
  intros Hv Hpending Hthrottle Hunarmed Hitv Hclock Hrest HT. cbn zeta.
  assert (batcher this w = Some ([], None, throttleInterval v)) as Hb.
  { unfold batcher. rewrite Hv. cbn. by rewrite Hpending, Hthrottle. }
  split.
  2:{ apply (advance_frame this _ T w Hb). rewrite Hunarmed. constructor. }
  rewrite enqueue_all_cons_log.
  destruct (advance_frame this _ t0 w Hb) as (Hb1 & Hf1 & Hl1 & Hc1).
  { rewrite Hunarmed. constructor. }
  set (w1 := world_of (advance t0 w)) in *.
  destruct (enqueue_unarmed this [] (throttleInterval v) first w1 Hb1)
    as (Hb2 & Hf2 & Hc2 & Hl2).
  set (w2 := world_of (queueTracesForSending this first w1)) in *.
  rewrite Hf1, Hunarmed in Hf2. cbn [app] in Hf2, Hb2.
  assert (clock w1 = t0) as Hc1' by lia. rewrite Hc1' in *.
  rewrite !batch_calls_app, Hl1, Hl2. cbn [app batch_calls omap].
  rewrite (enqueue_rest this first _ _ _ rest T w2 Hb2 Hf2); cbn; try done; try lia.
  eapply Forall_impl; [exact Hrest|]. cbn. intros c Hc. lia.
Qed.
(** *** Frames *)

Lemma awaits_alter this i g w :
  (i ≠ this ∨ (∀ v, isFirst (g v) = isFirst v) ∨ (∀ v, isFirst (g v) = true)) →
  awaits_first_frame this w →
  awaits_first_frame this (set_heap (alter g i (heap w)) w).
Proof.
  unfold awaits_first_frame. cbn. intros Hg Hw.
  destruct (decide (i = this)) as [->|Hne].
  - destruct Hg as [?|Hg]; [done|].
    rewrite list_lookup_alter_eq. destruct (heap w !! this) as [v|]; [|done].
    cbn in *. destruct Hg as [Hg|Hg]; by rewrite Hg.
  - by rewrite list_lookup_alter_ne.
Qed.

Lemma awaits_alloc this x w :
  awaits_first_frame this w →
  awaits_first_frame this (set_heap (heap w ++ [x]) w).
Proof.
  unfold awaits_first_frame. cbn.
  destruct (heap w !! this) as [v|] eqn:Hv; [|done].
  intros Hw. by rewrite (lookup_app_l_Some _ _ _ _ Hv).
Qed.

(** Settles the updates that leave the first-frame flag of an object. *)
Ltac awaits_side :=
  first
    [ exact I
    | let w := fresh "w" in
      let H := fresh "H" in
      intros w H;
      first [ exact H
            | apply awaits_alter;
              [first [left; congruence
                     |right; left; reflexivity
                     |right; right; reflexivity]
              |exact H]
            | by apply awaits_alloc ] ].

(** Only a frame of its own moves the first-frame flag of an object. *)
Lemma advance_keeps_awaits this t :
  keeps (awaits_first_frame this) (λ _, True) (advance t).
Proof.
  apply keeps_advance; [by intros|].
  intros [other|newFocusKey retries];
    unfold fire, sendPendingTraces, call_onBatchTrace, switchFocusedVault,
      close_focused_socket, new_FocusedVault, connectToTraceWebSocket;
    keeps_walk awaits_side.
Qed.

Lemma batch_calls_immediate this w traces :
  batch_calls this (immediate_delivery w this traces)
  = if decide (traces = []) then [] else [(clock w, traces)].
Proof.
  unfold immediate_delivery. destruct traces as [|x traces]; [reflexivity|].
  cbn [length Nat.ltb Nat.leb]. rewrite batch_calls_delivery.
  by rewrite decide_False.
Qed.

Lemma run_two_log t1 i1 t2 i2 T w :
  let w1 := world_of (advance t1 w) in
  let w2 := world_of (handle_input i1 w1) in
  let w3 := world_of (advance t2 w2) in
  let w4 := world_of (handle_input i2 w3) in
  log_of ((run [(t1, i1); (t2, i2)];; advance T) w)
  = log_of (advance t1 w) ++ log_of (handle_input i1 w1)
      ++ log_of (advance t2 w2) ++ log_of (handle_input i2 w3)
      ++ log_of (advance T w4).
Proof.
  cbn zeta. rewrite !run_cons.
  change (run []) with (mret tt : Eff unit).
  rewrite !log_of_bind, !world_of_bind. cbn [log_of snd mret Eff_ret app].
  rewrite app_nil_r. by rewrite <- !app_assoc.
Qed.

(** A single record arrives while the batcher is not armed. *)
Lemma on_message_single_unarmed this data one P itv w :
  JSON_parse data = Some (inl one) →
  batcher this w = Some (P, None, itv) →
  let r := on_message this data w in
  batcher this (world_of r) = Some (P ++ [one], Some (next_handle w), itv) ∧
  flush_timers this (world_of r)
  = flush_timers this w
      ++ [{| handle := next_handle w; due := clock w + itv;
             action := FlushPending this |}] ∧
  clock (world_of r) = clock w ∧
  log_of r = [].
Proof.
  intros Hp Hb. destruct (batcher_Some _ _ _ _ _ Hb) as (v & Hv & HP & Hth & Hitv).
  cbn zeta. rewrite (on_message_increment _ _ _ _ _ Hp Hv) by (right; by eexists).
  rewrite Hth. unfold world_of, log_of. cbn [fst snd].
  assert (heap (scheduled (FlushPending this) (throttleInterval v) w) !! this = Some v)
    as Hv' by exact Hv.
  rewrite (batcher_put _ _ _ _ Hv'). cbn. rewrite HP, Hitv.
  split; [done|]. split; [|done].
  unfold flush_timers, put, scheduled. cbn.
  rewrite filter_app. f_equal. by rewrite filter_cons_True.
Qed.

(** C2, as the code has it: when the first frame decodes as an array, the
    event view of the object becomes exactly that array and, bypassing the
    batcher (its buffer and the timer queue are untouched), [onBatchTrace]
    is called at once with the whole array, unless the array is empty: then
    no callback is made.  In particular, on the frame [[a; b]] followed by
    the single record [c], the object calls [onBatchTrace] exactly twice:
    at once with [[a; b]], and one throttle interval after [c] arrived with
    [[c]]. *)
Theorem C2_first_array_frame_is_the_backlog this v data parsedData w :
  heap w !! this = Some v →
  isFirst v = true →
  JSON_parse data = Some (inr parsedData) →
  (let r := on_message this data w in
   world_of r = put this (set_isFirst false (set_tracesData parsedData v)) w ∧
   batcher this (world_of r) = batcher this w ∧
   timers (world_of r) = timers w ∧
   log_of r = immediate_delivery w this parsedData ∧
   batch_calls this (log_of r)
   = if decide (parsedData = []) then [] else [(clock w, parsedData)]) ∧
  (∀ a b c data' t1 t2 T,
     parsedData = [a; b] →
     JSON_parse data' = Some (inl c) →
     pendingTraces v = [] →
     throttleTimeout v = None →
     flush_timers this w = [] →
     0 < throttleInterval v →
     clock w ≤ t1 →
     t1 ≤ t2 →
     t2 + throttleInterval v ≤ T →
     batch_calls this
       (log_of ((run [(t1, SocketMessage this data); (t2, SocketMessage this data')];;
                 advance T) w))
     = [(t1, [a; b]); (t2 + throttleInterval v, [c])]).
Proof.
  intros Hv Hfirst Hp. split.
  - cbn zeta. rewrite (on_message_backlog _ _ _ _ _ Hp Hv Hfirst).
    unfold world_of, log_of. cbn [fst snd].
    split; [reflexivity|]. split; [|split; [reflexivity|split; [reflexivity|]]].
    + unfold batcher. by rewrite (heap_put _ _ _ _ Hv), Hv.
    + apply batch_calls_immediate.
  - intros a b c data' t1 t2 T -> Hp' Hpending Hthrottle Hunarmed Hitv Hclock Ht HT.
    rewrite run_two_log.
    change (handle_input (SocketMessage this data)) with (on_message this data).
    change (handle_input (SocketMessage this data')) with (on_message this data').
    assert (batcher this w = Some ([], None, throttleInterval v)) as Hb.
    { unfold batcher. rewrite Hv. cbn. by rewrite Hpending, Hthrottle. }
    assert (awaits_first_frame this w) as Hw.
    { unfold awaits_first_frame. rewrite Hv. cbn. by rewrite Hfirst. }
    destruct (advance_frame this _ t1 w Hb) as (Hb1 & Hf1 & Hl1 & Hc1).
    { rewrite Hunarmed. constructor. }
    destruct (advance_keeps_awaits this t1 w Hw) as [Hw1 _].
    set (w1 := world_of (advance t1 w)) in *.
    destruct (batcher_Some _ _ _ _ _ Hb1) as (v1 & Hv1 & HP1 & Hth1 & Hitv1).
    assert (isFirst v1 = true) as Hfirst1.
    { unfold awaits_first_frame in Hw1. rewrite Hv1 in Hw1. by injection Hw1. }
    rewrite (on_message_backlog _ _ _ _ _ Hp Hv1 Hfirst1).
    set (w2 := put this (set_isFirst false (set_tracesData [a; b] v1)) w1).
    change (world_of (tt, w2, immediate_delivery w1 this [a; b])) with w2.
    change (log_of (tt, w2, immediate_delivery w1 this [a; b]))
      with (immediate_delivery w1 this [a; b]).
    assert (batcher this w2 = Some ([], None, throttleInterval v)) as Hb2.
    { unfold w2. rewrite (batcher_put _ _ _ _ Hv1). cbn. by rewrite HP1, Hth1, Hitv1. }
    destruct (advance_frame this _ t2 w2 Hb2) as (Hb3 & Hf3 & Hl3 & Hc3).
    { change (flush_timers this w2) with (flush_timers this w1).
      rewrite Hf1, Hunarmed. constructor. }
    set (w3 := world_of (advance t2 w2)) in *.
    destruct (on_message_single_unarmed this data' c [] _ w3 Hp' Hb3)
      as (Hb4 & Hf4 & Hc4 & Hl4).
    set (w4 := world_of (on_message this data' w3)) in *.
    change (flush_timers this w2) with (flush_timers this w1) in Hf3.
    rewrite Hf3, Hf1, Hunarmed in Hf4. cbn [app] in Hf4, Hb4.
    assert (clock w3 = t2) as Hc3'.
    { rewrite Hc3. change (clock w2) with (clock w1). lia. }
    rewrite Hc3' in *.
    rewrite !batch_calls_app, Hl1, Hl3, Hl4, batch_calls_immediate.
    rewrite decide_False by done.
    erewrite advance_flush; [|exact Hb4|exact Hf4|cbn; lia|cbn; lia].
    rewrite decide_False by done. cbn. do 3 f_equal. lia.
Qed.
(** *** Closing *)

Lemma dispose_eq w :
  dispose w =
    (tt, set_focusedVault None (set_vaultKeyPollingInterval None w), close_log w).
Proof.
  unfold dispose. eff. rewrite close_focused_socket_eq.
  unfold close_log. cbn. by rewrite app_nil_r.
Qed.

(** C5, as the code has it: [close()] on the socket of the focused object,
    in a focus switch or in [dispose], calls nothing back by itself and (in
    a switch) clears the socket field of the object; it suppresses nothing.
    The buffer of the object and the timer queue stay as they were, so a
    throttle timer armed before still delivers what is pending through
    [onBatchTrace]; and when the closed socket reports its closure, the
    handler still calls [onClose], which schedules the retry.  Only the
    guard of that retry (C4) keeps it from acting. *)
Theorem C5_close_suppresses_nothing this v newFocusKey w :
  focusedVault w = Some this →
  heap w !! this = Some v →
  fv_key v ≠ newFocusKey →
  let w' := world_of (switchFocusedVault newFocusKey 0 w) in
  log_of (switchFocusedVault newFocusKey 0 w)
  = close_log w
      ++ [(clock w, NewWebSocket (length (heap w)) (fullWsUrl newFocusKey))]
      ++ focus_notifications w' ∧
  heap w' !! this = Some (set_wsConnection None v) ∧
  timers w' = timers w ∧
  batch_calls this (log_of (fire (FlushPending this) w'))
  = (if decide (pendingTraces v = []) then [] else [(clock w, pendingTraces v)]) ∧
  (∀ k retries, onClose v = RetryLater k retries →
     log_of (on_close this w') = [(clock w, CallOnClose this)] ∧
     timers (world_of (on_close this w'))
     = timers w ++ [{| handle := next_handle w; due := clock w + retry_delay retries;
                       action := RetrySwitch k retries |}]) ∧
  dispose w
  = (tt, set_focusedVault None (set_vaultKeyPollingInterval None w), close_log w).
Proof.
  intros Hfocus Hv Hkey. cbn zeta.
  assert (focusedVault_key w ≠ Some newFocusKey) as Hk.
  { unfold focusedVault_key. rewrite Hfocus. cbn. rewrite Hv. cbn. congruence. }
  rewrite (switchFocusedVault_other _ _ _ Hk).
  unfold world_of, log_of. cbn [fst snd].
  set (w' := switched newFocusKey 0 w).
  assert (heap w' !! this = Some (set_wsConnection None v)) as Hv'.
  { unfold w', switched, detached_heap. cbn. rewrite Hfocus.
    rewrite lookup_app_l by (rewrite length_alter; by eapply lookup_lt_Some).
    by rewrite list_lookup_alter_eq, Hv. }
  split; [reflexivity|]. split; [exact Hv'|]. split; [reflexivity|]. split; [|split].
  - unfold fire. rewrite (sendPendingTraces_eq _ _ _ Hv'). cbn [snd].
    unfold flush_delivery. cbn [pendingTraces set_wsConnection].
    destruct (pendingTraces v) as [|x pending]; [reflexivity|].
    cbn [length Nat.ltb Nat.leb]. rewrite batch_calls_delivery.
    by rewrite decide_False.
  - intros k retries Hc.
    rewrite (on_close_eq this _ k retries w' Hv') by exact Hc.
    split; reflexivity.
  - apply dispose_eq.
Qed.

(** *** The retry of a closed stream *)

Lemma nearest_double_small x : Z.log2 x ≤ 52 → nearest_double x = Finite x.
Proof.
  intros He. unfold nearest_double. cbn zeta.
  by rewrite (proj2 (Z.leb_le _ _) He).
Qed.

Lemma timeout_after_large x : 2 ^ 31 ≤ x → timeout_after (nearest_double x) = 1.
Proof.
  intros Hx. unfold nearest_double. cbn zeta.
  destruct (Z.log2 x <=? 52) eqn:He.
  - unfold timeout_after, TIMEOUT_MAX.
    rewrite (proj2 (Z.leb_gt x 2147483647)) by lia. by rewrite andb_false_r.
  - apply Z.leb_gt in He.
    set (ulp := 2 ^ (Z.log2 x - 52)).
    assert (0 < ulp) as Hulp by (apply Z.pow_pos_nonneg; lia).
    assert (2 ^ 52 * ulp ≤ x) as Hlow.
    { unfold ulp. rewrite <- Z.pow_add_r by lia.
      replace (52 + (Z.log2 x - 52)) with (Z.log2 x) by lia.
      apply Z.log2_spec. lia. }
    assert (2 ^ 52 ≤ x / ulp) as Hq by (apply Z.div_le_lower_bound; lia).
    set (q := x / ulp) in *.
    set (q' := if 2 * (x mod ulp) <? ulp then q
               else if ulp <? 2 * (x mod ulp) then q + 1
               else if Z.even q then q else q + 1).
    assert (q ≤ q') as Hq'.
    { unfold q'. destruct (2 * (x mod ulp) <? ulp); [lia|].
      destruct (ulp <? 2 * (x mod ulp)); [lia|]. destruct (Z.even q); lia. }
    destruct (1024 <=? Z.log2 (q' * ulp)); [reflexivity|].
    unfold timeout_after, TIMEOUT_MAX.
    assert (2 ^ 52 ≤ q' * ulp) by nia.
    rewrite (proj2 (Z.leb_gt (q' * ulp) 2147483647)) by lia.
    by rewrite andb_false_r.
Qed.

(** Up to 29 retries the timer waits [2 ^ (retries + 1) + 100]; from 30 on
    the delay is beyond Node's range and the timer waits 1. *)
Lemma retry_delay_spec retries :
  retry_delay retries
  = if (retries <? 30)%nat then 2 ^ (Z.of_nat retries + 1) + 100 else 1.
Proof.
  unfold retry_delay, backoff, Math_pow2.
  destruct (retries <? 30)%nat eqn:Hr.
  - apply Nat.ltb_lt in Hr.
    rewrite (proj2 (Z.leb_le _ 1023)) by lia. unfold js_add.
    assert (0 < 2 ^ (Z.of_nat retries + 1)) by (apply Z.pow_pos_nonneg; lia).
    assert (2 ^ (Z.of_nat retries + 1) ≤ 2 ^ 30) by (apply Z.pow_le_mono_r; lia).
    rewrite nearest_double_small.
    + unfold timeout_after, TIMEOUT_MAX.
      rewrite (proj2 (Z.leb_le 1 _)) by lia.
      by rewrite (proj2 (Z.leb_le _ 2147483647)) by lia.
    + assert (Z.log2 (2 ^ (Z.of_nat retries + 1) + 100) < 31); [|lia].
      apply Z.log2_lt_pow2; lia.
  - apply Nat.ltb_ge in Hr.
    destruct (Z.of_nat retries + 1 <=? 1023); [|reflexivity].
    unfold js_add. apply timeout_after_large.
    assert (2 ^ 31 ≤ 2 ^ (Z.of_nat retries + 1)) by (apply Z.pow_le_mono_r; lia).
    lia.
Qed.

(** The sum is exact up to 53 retries; the first one that is rounded, and
    the first that is infinite. *)
Lemma backoff_rounds :
  backoff 53 = Finite (2 ^ 54 + 100) ∧
  backoff 54 = Finite (2 ^ 55 + 96) ∧
  backoff 59 = Finite (2 ^ 60) ∧
  backoff 1022 = Finite (2 ^ 1023) ∧
  backoff 1023 = Infinity.
Proof. repeat split; by vm_compute. Qed.

Lemma opens_nothing_sockets (l : Log) :
  Forall (λ e, opens_nothing e.2) l → opened_sockets l = [].
Proof.
  induction 1 as [|[t e] l He _ IH]; [reflexivity|].
  unfold opened_sockets. cbn. by destruct e.
Qed.

Lemma fire_retry_opens_nothing newFocusKey retries w :
  Forall (λ e, opens_nothing e.2) (log_of (fire (RetrySwitch newFocusKey retries) w)).
Proof.
  destruct (decide (focusedVault_key w = Some newFocusKey)) as [Hk|Hk].
  - rewrite (fire_retry_focused _ _ _ Hk), (switchFocusedVault_same _ _ _ Hk).
    unfold log_of, focus_notifications. cbn [snd]. apply Forall_forall.
    intros e He. apply list_elem_of_fmap in He as [kv [-> _]]. exact I.
  - rewrite (fire_retry_stale _ _ _ Hk). constructor.
Qed.

Lemma closed_focus_alter this newFocusKey retries g i w :
  (∀ v, fv_key (g v) = fv_key v ∧ wsConnection (g v) = wsConnection v ∧
        onClose (g v) = onClose v) →
  closed_focus this newFocusKey retries w →
  closed_focus this newFocusKey retries (set_heap (alter g i (heap w)) w).
Proof.
  intros Hg (Hf & v & Hv & Hk & Hws & Hc). split; [exact Hf|]. cbn.
  destruct (Hg v) as (Hgk & Hgws & Hgc).
  destruct (decide (i = this)) as [->|Hne].
  - exists (g v). rewrite list_lookup_alter_eq, Hv. by rewrite Hgk, Hgws, Hgc.
  - exists v. by rewrite list_lookup_alter_ne.
Qed.

(** Settles the updates that leave a closed focus as it is. *)
Ltac closed_focus_side :=
  first
    [ exact I
    | let w := fresh "w" in
      let H := fresh "H" in
      intros w H;
      first [ exact H
            | apply closed_focus_alter; [|exact H];
              intros ?; split; [reflexivity|split; reflexivity] ] ].

Lemma fire_keeps_closed_focus this newFocusKey retries a :
  keeps (closed_focus this newFocusKey retries) opens_nothing (fire a).
Proof.
  destruct a as [r|k n].
  - unfold fire, sendPendingTraces, call_onBatchTrace. keeps_walk closed_focus_side.
  - intros w Hw. rewrite fire_retry_keeps_world. split; [exact Hw|].
    apply fire_retry_opens_nothing.
Qed.

(** C6: the closure of the socket of the focused object, constructed for
    [newFocusKey] with retry count [retries], schedules one timer.  Node
    fires it [2 ^ (retries + 1) + 100] later up to 29 retries, and 1 later
    from 30 retries on, where the delay leaves the range of its timers.  When
    the timer fires while [newFocusKey] is still focused, the call
    [switchFocusedVault newFocusKey (retries + 1)] finds that identifier
    focused: it drops the count, leaves the state alone and only tells the
    focus-change subscribers.  So no socket is opened, however long one
    waits, and the focused object stays without a socket, with the retry
    count it had. *)
Theorem C6_retry_reconnects_nothing this v newFocusKey retries T w :
  focusedVault w = Some this →
  heap w !! this = Some v →
  fv_key v = newFocusKey →
  onClose v = RetryLater newFocusKey retries →
  (timers (world_of (on_close this w))
   = timers w ++ [{| handle := next_handle w; due := clock w + retry_delay retries;
                     action := RetrySwitch newFocusKey retries |}] ∧
   retry_delay retries
   = if (retries <? 30)%nat then 2 ^ (Z.of_nat retries + 1) + 100 else 1) ∧
  (∀ n w', focusedVault_key w' = Some newFocusKey →
     fire (RetrySwitch newFocusKey n) w' = (tt, w', focus_notifications w')) ∧
  opened_sockets (log_of ((on_close this;; advance T) w)) = [] ∧
  closed_focus this newFocusKey retries (world_of ((on_close this;; advance T) w)).
Proof.
  intros Hf Hv Hk Hc.
  split; [split; [by rewrite (on_close_eq _ _ _ _ _ Hv Hc)|apply retry_delay_spec]|].
  split.
  { intros n w' Hk'.
    by rewrite (fire_retry_focused _ _ _ Hk'), (switchFocusedVault_same _ _ _ Hk'). }
  assert (closed_focus this newFocusKey retries (world_of (on_close this w))) as Hclosed.
  { rewrite (on_close_eq _ _ _ _ _ Hv Hc). unfold world_of. cbn [fst snd].
    split; [exact Hf|]. exists (set_wsConnection None v).
    unfold scheduled, put. cbn.
    rewrite list_lookup_insert_eq by (by apply lookup_lt_Some in Hv). done. }
  destruct (keeps_advance (closed_focus this newFocusKey retries) opens_nothing T
              (λ w0 c l H, H) (fire_keeps_closed_focus this newFocusKey retries)
              _ Hclosed) as [Hw Hlog].
  rewrite world_of_bind, log_of_bind. split; [|exact Hw].
  apply opens_nothing_sockets. apply Forall_app. split; [|exact Hlog].
  rewrite (on_close_eq _ _ _ _ _ Hv Hc). by repeat constructor.
Qed.
(** ** Further properties of the code *)

Lemma opened_sockets_notifications w :
  opened_sockets (focus_notifications w) = [].
Proof.
  unfold focus_notifications, opened_sockets.
  by induction (focusedVaultSubscribers w) as [|kv l IH].
Qed.

Lemma opened_sockets_close_log w : opened_sockets (close_log w) = [].
Proof.
  unfold close_log. destruct (focusedVault w) as [r|]; [|done].
  by destruct (heap w !! r ≫= wsConnection).
Qed.

(** *** The retry *)

(** X1: a retry timer never reconnects.  When it fires under another focus
    it does nothing; when it fires under its own, [switchFocusedVault] finds
    the identifier focused already: the state stays as it is, no socket is
    opened, and the focus-change subscribers are told the current focus. *)
Theorem X1_retry_never_reconnects newFocusKey retries w :
  fire (RetrySwitch newFocusKey retries) w
  = (tt, w, if decide (focusedVault_key w = Some newFocusKey)
            then focus_notifications w else []) ∧
  opened_sockets (log_of (fire (RetrySwitch newFocusKey retries) w)) = [].
Proof.
  destruct (decide (focusedVault_key w = Some newFocusKey)) as [Hk|Hk].
  - rewrite (fire_retry_focused _ _ _ Hk), (switchFocusedVault_same _ _ _ Hk).
    split; [reflexivity|]. apply opened_sockets_notifications.
  - by rewrite (fire_retry_stale _ _ _ Hk).
Qed.

(** *** Stopping and restarting *)

Lemma startVaultKeyMonitoring_eq w :
  startVaultKeyMonitoring w
  = (tt,
     set_next_handle (S (next_handle w))
       (set_vaultKeyPollingInterval (Some (next_handle w))
          (set_focusedVault None w)),
     close_log w).
Proof.
  unfold startVaultKeyMonitoring. eff. rewrite dispose_eq. cbn.
  by rewrite app_nil_r.
Qed.

(** X3: [dispose] can be called any number of times.  It clears the focus
    and the polling interval, so no traces are visible any more; it asks
    the socket of the focused vault, if it has one, to close, and a second
    call right after closes nothing and changes nothing.  It keeps the last
    accepted timestamp, the objects, the timers and the subscribers. *)
Theorem X3_dispose_is_idempotent w :
  let w1 := world_of (dispose w) in
  log_of (dispose w) = close_log w ∧
  focusedVault w1 = None ∧
  vaultKeyPollingInterval w1 = None ∧
  getFocusedVaultTraces w1 = [] ∧
  dispose w1 = (tt, w1, []) ∧
  lastVaultFoundTimestamp w1 = lastVaultFoundTimestamp w ∧
  heap w1 = heap w ∧
  timers w1 = timers w ∧
  focusedVaultSubscribers w1 = focusedVaultSubscribers w ∧
  batchTraceSubscribers w1 = batchTraceSubscribers w.
Proof.
  cbn zeta. rewrite !dispose_eq. unfold world_of, log_of. cbn [fst snd].
  repeat split.
Qed.

(** X4: a restart does not bring the focus back.  [startVaultKeyMonitoring]
    clears the focus but not the last accepted timestamp, so a pass that
    finds no vault newer than the one accepted before the restart changes
    nothing: no vault is focused, although one is reported. *)
Theorem X4_restart_keeps_no_focus workspaceFolders w :
  (∀ c, c ∈ candidates workspaceFolders → createdAt c ≤ lastVaultFoundTimestamp w) →
  let w1 := world_of (startVaultKeyMonitoring w) in
  focusedVault w1 = None ∧
  checkVaultKeyAndUpdateConnection workspaceFolders w1 = (tt, w1, []).
Proof.
  intros Hold. cbn zeta. rewrite startVaultKeyMonitoring_eq.
  unfold world_of. cbn [fst snd]. split; [reflexivity|].
  rewrite checkVaultKeyAndUpdateConnection_eq.
  destruct (newest (candidates workspaceFolders)) as [c|] eqn:Hc; [|reflexivity].
  apply newest_Some_in in Hc. specialize (Hold c Hc). cbn.
  by rewrite (proj2 (Z.ltb_ge _ _) Hold).
Qed.

(** *** Switching *)

(** X5: a switch to an identifier that is not focused makes a new object
    for it and focuses that: the focused identifier is the new one, no trace
    is visible yet, the new object is the last of the heap and waits for its
    first frame with an empty buffer and no timer; the object focused before
    loses its socket and nothing else, every other object is untouched; one
    socket is opened, to the address of the new identifier. *)
Theorem X5_switch_focuses_a_new_object newFocusKey retries w :
  focusedVault_key w ≠ Some newFocusKey →
  let w' := world_of (switchFocusedVault newFocusKey retries w) in
  focusedVault w' = Some (length (heap w)) ∧
  focusedVault_key w' = Some newFocusKey ∧
  getFocusedVaultTraces w' = [] ∧
  heap w' !! length (heap w) = Some (connected newFocusKey retries) ∧
  length (heap w') = S (length (heap w)) ∧
  (∀ i v, heap w !! i = Some v →
     heap w' !! i
     = Some (if decide (focusedVault w = Some i) then set_wsConnection None v else v)) ∧
  opened_sockets (log_of (switchFocusedVault newFocusKey retries w))
  = [(clock w, length (heap w), fullWsUrl newFocusKey)] ∧
  timers w' = timers w ∧
  lastVaultFoundTimestamp w' = lastVaultFoundTimestamp w.
Proof.
  intros Hk. cbn zeta.
  pose proof (switchFocusedVault_accepted newFocusKey retries w) as Hacc.
  rewrite (switchFocusedVault_other _ _ _ Hk) in *.
  unfold world_of, log_of, accepted in *. cbn [fst snd] in *.
  injection Hacc as Hkey.
  assert (length (detached_heap w) = length (heap w)) as Hlen.
  { unfold detached_heap. destruct (focusedVault w); [apply length_alter|done]. }
  assert (heap (switched newFocusKey retries w) !! length (heap w)
          = Some (connected newFocusKey retries)) as Hnew.
  { unfold switched. cbn. rewrite lookup_app_r by lia.
    by rewrite Hlen, Nat.sub_diag. }
  split; [reflexivity|]. split; [exact Hkey|]. split.
  { unfold getFocusedVaultTraces, switched. cbn.
    fold (switched newFocusKey retries w). unfold switched in Hnew. cbn in Hnew.
    by rewrite Hnew. }
  split; [exact Hnew|]. split.
  { unfold switched. cbn. rewrite length_app, Hlen. cbn. lia. }
  split.
  { intros i v Hv. unfold switched. cbn.
    rewrite lookup_app_l by (rewrite Hlen; by eapply lookup_lt_Some).
    unfold detached_heap. destruct (focusedVault w) as [r|].
    - destruct (decide (r = i)) as [->|Hne].
      + rewrite list_lookup_alter_eq, Hv. cbn. by rewrite decide_True.
      + rewrite list_lookup_alter_ne by done. rewrite decide_False by congruence. done.
    - by rewrite decide_False. }
  split; [|done].
  unfold opened_sockets. rewrite !omap_app.
  fold (opened_sockets (close_log w)).
  fold (opened_sockets (focus_notifications (switched newFocusKey retries w))).
  by rewrite opened_sockets_close_log, opened_sockets_notifications.
Qed.

(** *** The registries *)

Lemma set_fresh {V : Type} (k : string) (v : V) (m : list (string * V)) :
  k ∉ JsMap.keys m → JsMap.set k v m = m ++ [(k, v)].
Proof.
  unfold JsMap.keys. induction m as [|[k0 v0] m IH]; [done|].
  rewrite fmap_cons. intros Hk. apply not_elem_of_cons in Hk as [Hne Hk].
  cbn [JsMap.set]. rewrite decide_False by done. by rewrite IH.
Qed.

Lemma delete_absent {V : Type} (k : string) (m : list (string * V)) :
  k ∉ JsMap.keys m → JsMap.delete k m = m.
Proof.
  unfold JsMap.keys, JsMap.delete. induction m as [|[k0 v0] m IH]; [done|].
  rewrite fmap_cons. intros Hk. apply not_elem_of_cons in Hk as [Hne Hk].
  rewrite filter_cons_True by (cbn; intros ->; by apply Hne). by rewrite IH.
Qed.

Lemma delete_set {V : Type} (k : string) (v : V) (m : list (string * V)) :
  JsMap.delete k (JsMap.set k v m) = JsMap.delete k m.
Proof.
  unfold JsMap.delete. induction m as [|[k0 v0] m IH]; cbn [JsMap.set].
  - by rewrite filter_cons_False by (cbn; intros H; by apply H).
  - destruct (decide (k0 = k)) as [->|Hne].
    + by rewrite !filter_cons_False by (cbn; intros H; by apply H).
    + rewrite !filter_cons_True by done. by rewrite IH.
Qed.

Lemma subscribeToFocusedVaultChange_eq uuid onChange w :
  subscribeToFocusedVaultChange uuid onChange w
  = (UnsubscribeFocusedVault uuid,
     set_focusedVaultSubscribers (JsMap.set uuid onChange (focusedVaultSubscribers w)) w,
     []).
Proof. reflexivity. Qed.

Lemma subscribeToBatchTrace_eq uuid onChange w :
  subscribeToBatchTrace uuid onChange w
  = (UnsubscribeBatchTrace uuid,
     set_batchTraceSubscribers (JsMap.set uuid onChange (batchTraceSubscribers w)) w,
     []).
Proof. reflexivity. Qed.

(** X6: subscribing and then calling the returned function leaves the
    registry as it was without the uuid; for a uuid that was not in it (as
    [crypto.randomUUID] gives), the whole state is as before.  Both
    registries behave alike and neither touches the other. *)
Theorem X6_subscribe_then_unsubscribe uuid onChange w :
  (let r := subscribeToFocusedVaultChange uuid onChange w in
   r.1.1 = UnsubscribeFocusedVault uuid ∧ log_of r = [] ∧
   focusedVaultSubscribers (world_of (call_unsubscribe r.1.1 (world_of r)))
   = JsMap.delete uuid (focusedVaultSubscribers w) ∧
   (uuid ∉ JsMap.keys (focusedVaultSubscribers w) →
    call_unsubscribe r.1.1 (world_of r) = (tt, w, []))) ∧
  (let r := subscribeToBatchTrace uuid onChange w in
   r.1.1 = UnsubscribeBatchTrace uuid ∧ log_of r = [] ∧
   batchTraceSubscribers (world_of (call_unsubscribe r.1.1 (world_of r)))
   = JsMap.delete uuid (batchTraceSubscribers w) ∧
   (uuid ∉ JsMap.keys (batchTraceSubscribers w) →
    call_unsubscribe r.1.1 (world_of r) = (tt, w, []))).
Proof.
  rewrite subscribeToFocusedVaultChange_eq, subscribeToBatchTrace_eq.
  split; cbn zeta; (split; [reflexivity|]; split; [reflexivity|]; split).
  - cbn -[JsMap.delete]. apply delete_set.
  - intros Hfresh. unfold call_unsubscribe, modify, world_of. cbn -[JsMap.delete].
    rewrite delete_set, (delete_absent _ _ Hfresh). by destruct w.
  - cbn -[JsMap.delete]. apply delete_set.
  - intros Hfresh. unfold call_unsubscribe, modify, world_of. cbn -[JsMap.delete].
    rewrite delete_set, (delete_absent _ _ Hfresh). by destruct w.
Qed.

(** *** The order of the workspace folders *)

Lemma newest_greatest (l : list VaultHistoryEntry) c :
  newest l = Some c → c ∈ l ∧ ∀ d, d ∈ l → createdAt d ≤ createdAt c.
Proof.
  revert c. induction l as [|x l IH]; intros c; [done|]. cbn.
  destruct (newest l) as [d|] eqn:Hd.
  - destruct (IH d eq_refl) as [Hin Hmax].
    destruct (Z.ltb_spec (createdAt x) (createdAt d)); intros [= <-].
    + split; [by right|]. intros e He.
      apply elem_of_cons in He as [->|He]; [lia|by apply Hmax].
    + split; [by left|]. intros e He.
      apply elem_of_cons in He as [->|He]; [lia|].
      specialize (Hmax e He). lia.
  - intros [= <-]. split; [by left|]. intros e He.
    apply elem_of_cons in He as [->|He]; [lia|].
    destruct l; [by apply elem_of_nil in He|]. cbn in Hd.
    by destruct (newest l) as [?|]; [destruct (_ <? _)|].
Qed.

Lemma newest_None (l : list VaultHistoryEntry) : newest l = None → l = [].
Proof.
  destruct l as [|x l]; [done|]. cbn.
  by destruct (newest l) as [?|]; [destruct (_ <? _)|].
Qed.

Lemma createdAt_inj_on (l : list VaultHistoryEntry) c d :
  NoDup (createdAt <$> l) → c ∈ l → d ∈ l → createdAt c = createdAt d → c = d.
Proof.
  induction l as [|x l IH]; intros Hnd Hc Hd Heq; [by apply elem_of_nil in Hc|].
  rewrite fmap_cons in Hnd. apply NoDup_cons in Hnd as [Hx Hnd].
  apply elem_of_cons in Hc as [->|Hc], Hd as [->|Hd]; try done.
  - destruct Hx. rewrite Heq. by apply list_elem_of_fmap_2.
  - destruct Hx. rewrite <- Heq. by apply list_elem_of_fmap_2.
  - by apply IH.
Qed.

(** X8: when the vaults found have pairwise different creation times, a
    discovery pass does the same whatever the order of the workspace
    folders (and of the answers of their lookups). *)
Theorem X8_pass_ignores_folder_order vaults vaults' w :
  vaults ≡ₚ vaults' →
  NoDup (createdAt <$> candidates (Some vaults)) →
  checkVaultKeyAndUpdateConnection (Some vaults) w
  = checkVaultKeyAndUpdateConnection (Some vaults') w.
Proof.
  intros Hperm Hnd. rewrite !checkVaultKeyAndUpdateConnection_eq.
  assert (newest (candidates (Some vaults)) = newest (candidates (Some vaults'))) as ->;
    [|reflexivity].
  assert (candidates (Some vaults) ≡ₚ candidates (Some vaults')) as Hc
    by (unfold candidates; by rewrite Hperm).
  destruct (newest (candidates (Some vaults))) as [c|] eqn:Hn,
    (newest (candidates (Some vaults'))) as [c'|] eqn:Hn'.
  - destruct (newest_greatest _ _ Hn) as [Hin Hmax],
      (newest_greatest _ _ Hn') as [Hin' Hmax'].
    f_equal. apply (createdAt_inj_on _ _ _ Hnd Hin); [by rewrite Hc|].
    rewrite <- Hc in Hin'. rewrite Hc in Hin.
    specialize (Hmax c' Hin'). specialize (Hmax' c Hin). lia.
  - apply newest_None in Hn'. rewrite Hn' in Hc.
    apply Permutation_nil_r in Hc. by rewrite Hc in Hn.
  - apply newest_None in Hn. rewrite Hn in Hc.
    symmetry in Hc. apply Permutation_nil_r in Hc. by rewrite Hc in Hn'.
  - reflexivity.
Qed.

(** *** Who is told of the focus *)

Section Yields.

Context (P : World → Prop) (R : Log → Prop).
Context (R_nil : R []) (R_app : ∀ l1 l2, R l1 → R l2 → R (l1 ++ l2)).
Context (P_clock : ∀ w c l, P w → P (set_clock c (set_timers l w))).

Lemma yields_ret {A : Type} (a : A) : yields P R (mret a).
Proof. intros w HP. by split. Qed.

Lemma yields_bind {A B : Type} (m : Eff A) (f : A → Eff B) :
  yields P R m → (∀ a, yields P R (f a)) → yields P R (m ≫= f).
Proof.
  intros Hm Hf w HP. rewrite world_of_bind, log_of_bind.
  destruct (Hm w HP) as [HP1 HR1].
  destruct (Hf (m w).1.1 _ HP1) as [HP2 HR2].
  split; [exact HP2|by apply R_app].
Qed.

Lemma yields_fire_due fuel t :
  (∀ a, yields P R (fire a)) → yields P R (fire_due fuel t).
Proof.
  intros Hfire. induction fuel as [|fuel IH]; [apply yields_ret|].
  rewrite fire_due_S. apply yields_bind; [by intros w HP|].
  intros [[x rest]|]; [|apply yields_ret].
  apply yields_bind; [intros w HP; split; [by apply P_clock|exact R_nil]|]. intros _.
  apply yields_bind; [apply Hfire|]. intros _. exact IH.
Qed.

Lemma yields_advance t :
  (∀ a, yields P R (fire a)) → yields P R (advance t).
Proof.
  intros Hfire. unfold advance.
  apply yields_bind; [by intros w HP|]. intros n.
  apply yields_bind; [by apply yields_fire_due|]. intros _.
  intros w HP. split; [|exact R_nil].
  change (P (set_clock (Z.max (clock w) t) w)).
  replace (set_clock (Z.max (clock w) t) w)
    with (set_clock (Z.max (clock w) t) (set_timers (timers w) w));
    [by apply P_clock|by destruct w].
Qed.

Lemma yields_run (ok : Input → Prop) schedule :
  (∀ a, yields P R (fire a)) →
  (∀ i, ok i → yields P R (handle_input i)) →
  Forall (λ ti, ok ti.2) schedule →
  yields P R (run schedule).
Proof.
  intros Hfire Hinput Hok.
  induction Hok as [|[t i] schedule Hi _ IH]; [apply yields_ret|].
  rewrite run_cons. apply yields_bind; [by apply yields_advance|]. intros _.
  apply yields_bind; [by apply Hinput|]. intros _. exact IH.
Qed.

End Yields.

Lemma told_app uuid (l1 l2 : Log) : told uuid (l1 ++ l2) = told uuid l1 ++ told uuid l2.
Proof. apply omap_app. Qed.

Lemma heard_app uuid (l1 l2 : Log) :
  heard uuid (l1 ++ l2) = heard uuid l1 ++ heard uuid l2.
Proof. unfold heard. by rewrite told_app, fmap_app. Qed.

Lemma told_quiet uuid (l : Log) :
  Forall (λ e, not_focus_call e.2) l → told uuid l = [].
Proof.
  induction 1 as [|[t e] l He _ IH]; [reflexivity|].
  unfold told. cbn. by destruct e.
Qed.

Lemma told_notifications uuid onChange w :
  focus_subscribed uuid onChange w →
  told uuid (focus_notifications w) = [(clock w, onChange, focusedVault w)].
Proof.
  unfold focus_subscribed, focus_notifications, told. intros Hsub.
  transitivity ((λ kv : string * Listener, (clock w, kv.2, focusedVault w))
                  <$> filter (λ kv, kv.1 = uuid) (focusedVaultSubscribers w));
    [|by rewrite Hsub].
  clear Hsub. induction (focusedVaultSubscribers w) as [|[k l] m IH]; [reflexivity|].
  cbn [map omap list_omap snd fst]. destruct (decide (k = uuid)) as [->|Hne].
  - rewrite filter_cons_True by done. rewrite fmap_cons. cbn. f_equal. exact IH.
  - rewrite filter_cons_False by done. exact IH.
Qed.

Lemma subscribed_fresh uuid onChange w :
  uuid ∉ JsMap.keys (focusedVaultSubscribers w) →
  focus_subscribed uuid onChange
    (world_of (subscribeToFocusedVaultChange uuid onChange w)).
Proof.
  intros Hfresh. rewrite subscribeToFocusedVaultChange_eq.
  unfold focus_subscribed, world_of. cbn -[JsMap.set].
  rewrite (set_fresh _ _ _ Hfresh), filter_app.
  assert (filter (λ kv : string * Listener, kv.1 = uuid) (focusedVaultSubscribers w) = [])
    as ->.
  { revert Hfresh. unfold JsMap.keys.
    induction (focusedVaultSubscribers w) as [|[k l] m IH]; [done|].
    rewrite fmap_cons. intros Hk. apply not_elem_of_cons in Hk as [Hne Hk].
    rewrite filter_cons_False by (cbn; intros ->; by apply Hne). by apply IH. }
  by rewrite filter_cons_True.
Qed.

Lemma subscribed_set uuid onChange k l w :
  k ≠ uuid → focus_subscribed uuid onChange w →
  focus_subscribed uuid onChange
    (set_focusedVaultSubscribers (JsMap.set k l (focusedVaultSubscribers w)) w).
Proof.
  unfold focus_subscribed. cbn -[JsMap.set]. intros Hne <-.
  induction (focusedVaultSubscribers w) as [|[k0 l0] m IH]; cbn [JsMap.set].
  - by rewrite filter_cons_False.
  - destruct (decide (k0 = k)) as [->|Hk].
    + by rewrite !filter_cons_False.
    + destruct (decide (k0 = uuid)) as [->|Hu].
      * rewrite !filter_cons_True by done. by rewrite IH.
      * by rewrite !filter_cons_False.
Qed.

Lemma subscribed_delete uuid onChange k w :
  k ≠ uuid → focus_subscribed uuid onChange w →
  focus_subscribed uuid onChange
    (set_focusedVaultSubscribers (JsMap.delete k (focusedVaultSubscribers w)) w).
Proof.
  unfold focus_subscribed, JsMap.delete. cbn. intros Hne <-.
  induction (focusedVaultSubscribers w) as [|[k0 l0] m IH]; [reflexivity|].
  destruct (decide (k0 = k)) as [->|Hk].
  - rewrite (filter_cons_False (λ kv, kv.1 ≠ k)) by (cbn; intros H; by apply H).
    by rewrite (filter_cons_False (λ kv, kv.1 = uuid)).
  - rewrite (filter_cons_True (λ kv, kv.1 ≠ k)) by done.
    destruct (decide (k0 = uuid)) as [->|Hu].
    + rewrite !filter_cons_True by done. by rewrite IH.
    + by rewrite !filter_cons_False.
Qed.

(** Settles the updates that leave a subscription in the registry. *)
Ltac subscribed_side :=
  first
    [ exact I
    | let w := fresh "w" in
      let H := fresh "H" in
      intros w H;
      first [ exact H
            | apply subscribed_delete; [done|exact H]
            | apply subscribed_set; [done|exact H] ] ].

(** Settles the steps of a handler that calls no focus-change listener. *)
Ltac no_focus_call_side := first [ exact I | intros ? ?; exact I ].

Lemma fire_keeps_subscribed uuid onChange a :
  keeps (focus_subscribed uuid onChange) (λ _, True) (fire a).
Proof.
  destruct a as [this|newFocusKey retries];
    unfold fire, sendPendingTraces, call_onBatchTrace, switchFocusedVault,
      close_focused_socket, new_FocusedVault, connectToTraceWebSocket;
    keeps_walk subscribed_side.
Qed.

Lemma input_keeps_subscribed uuid onChange i :
  leaves_focus_subscription uuid i →
  keeps (focus_subscribed uuid onChange) (λ _, True) (handle_input i).
Proof.
  destruct i as [k l|k l|[k|k]| | |workspaceFolders|newFocusKey retries|this data|this];
    intros Hi.
  all: unfold handle_input, subscribeToFocusedVaultChange, subscribeToBatchTrace,
    call_unsubscribe, on_message, sendTracesImmediately, queueTracesForSending,
    call_onBatchTrace, on_close, call_onClose, startVaultKeyMonitoring, dispose,
    checkVaultKeyAndUpdateConnection, switchFocusedVault, close_focused_socket,
    new_FocusedVault, connectToTraceWebSocket.
  all: keeps_walk subscribed_side.
Qed.

Lemma flush_calls_no_focus_listener this :
  keeps (λ _, True) not_focus_call (fire (FlushPending this)).
Proof.
  unfold fire, sendPendingTraces, call_onBatchTrace. keeps_walk no_focus_call_side.
Qed.

Lemma input_calls_no_focus_listener i :
  (∀ workspaceFolders, i ≠ VaultKeysResolved workspaceFolders) →
  (∀ newFocusKey retries, i ≠ SwitchFocusedVault newFocusKey retries) →
  keeps (λ _, True) not_focus_call (handle_input i).
Proof.
  intros Hpass Hswitch.
  destruct i as [k l|k l|[k|k]| | |workspaceFolders|newFocusKey retries|this data|this];
    try (by destruct (Hpass _ eq_refl)); try (by destruct (Hswitch _ _ eq_refl)).
  all: unfold handle_input, subscribeToFocusedVaultChange, subscribeToBatchTrace,
    call_unsubscribe, on_message, sendTracesImmediately, queueTracesForSending,
    call_onBatchTrace, on_close, call_onClose, startVaultKeyMonitoring, dispose,
    close_focused_socket.
  all: keeps_walk no_focus_call_side.
Qed.

Lemma told_quiet_input uuid i w :
  (∀ workspaceFolders, i ≠ VaultKeysResolved workspaceFolders) →
  (∀ newFocusKey retries, i ≠ SwitchFocusedVault newFocusKey retries) →
  told uuid (log_of (handle_input i w)) = [].
Proof.
  intros Hpass Hswitch. apply told_quiet.
  by apply (input_calls_no_focus_listener i Hpass Hswitch w).
Qed.

Lemma told_switch uuid onChange newFocusKey retries w :
  focus_subscribed uuid onChange w →
  told uuid (log_of (switchFocusedVault newFocusKey retries w))
  = [(clock w, onChange,
      focusedVault (world_of (switchFocusedVault newFocusKey retries w)))].
Proof.
  intros Hsub. destruct (decide (focusedVault_key w = Some newFocusKey)) as [Hk|Hk].
  - rewrite (switchFocusedVault_same _ _ _ Hk). by apply told_notifications.
  - rewrite (switchFocusedVault_other _ _ _ Hk). unfold log_of, world_of. cbn [fst snd].
    rewrite !told_app.
    rewrite (told_quiet _ (close_log w)) by (apply close_log_quiet; intros; exact I).
    rewrite (told_quiet _ [_]) by (by repeat constructor).
    exact (told_notifications uuid onChange (switched newFocusKey retries w) Hsub).
Qed.

Lemma told_pass uuid onChange workspaceFolders w :
  focus_subscribed uuid onChange w →
  told uuid (log_of (checkVaultKeyAndUpdateConnection workspaceFolders w))
  = match newest (candidates workspaceFolders) with
    | Some mostRecentVault =>
        if lastVaultFoundTimestamp w <? createdAt mostRecentVault
        then [(clock w, onChange,
               focusedVault (world_of (checkVaultKeyAndUpdateConnection workspaceFolders w)))]
        else []
    | None => []
    end.
Proof.
  intros Hsub. rewrite checkVaultKeyAndUpdateConnection_eq.
  destruct (newest (candidates workspaceFolders)) as [c|]; [|reflexivity].
  destruct (lastVaultFoundTimestamp w <? createdAt c); [|reflexivity].
  exact (told_switch uuid onChange (key c) 0
           (set_lastVaultFoundTimestamp (createdAt c) w) Hsub).
Qed.

Lemma told_retry uuid onChange newFocusKey retries w :
  focus_subscribed uuid onChange w →
  told uuid (log_of (fire (RetrySwitch newFocusKey retries) w))
  = if decide (focusedVault_key w = Some newFocusKey)
    then [(clock w, onChange, focusedVault w)] else [].
Proof.
  intros Hsub. destruct (decide (focusedVault_key w = Some newFocusKey)) as [Hk|Hk].
  - rewrite (fire_retry_focused _ _ _ Hk), (switchFocusedVault_same _ _ _ Hk).
    by apply told_notifications.
  - by rewrite (fire_retry_stale _ _ _ Hk).
Qed.

Section TwoListeners.

Context (uuid u0 : string) (onChange l0 : Listener).

Lemma fire_hears_alike a :
  yields (λ w, focus_subscribed uuid onChange w ∧ focus_subscribed u0 l0 w)
         (λ l, heard uuid l = heard u0 l) (fire a).
Proof.
  intros w [H1 H2]. split.
  - split; [by apply (fire_keeps_subscribed uuid onChange a w)
           |by apply (fire_keeps_subscribed u0 l0 a w)].
  - unfold heard. destruct a as [this|newFocusKey retries].
    + by rewrite !told_quiet by (by apply (flush_calls_no_focus_listener this w)).
    + rewrite (told_retry uuid onChange _ _ _ H1), (told_retry u0 l0 _ _ _ H2).
      by destruct (decide _).
Qed.

Lemma input_hears_alike i :
  leaves_focus_subscription uuid i ∧ leaves_focus_subscription u0 i →
  yields (λ w, focus_subscribed uuid onChange w ∧ focus_subscribed u0 l0 w)
         (λ l, heard uuid l = heard u0 l) (handle_input i).
Proof.
  intros [Hi1 Hi2] w [H1 H2]. split.
  - split; [by apply (input_keeps_subscribed uuid onChange i Hi1 w)
           |by apply (input_keeps_subscribed u0 l0 i Hi2 w)].
  - unfold heard.
    destruct i as [k l|k l|u| | |workspaceFolders|newFocusKey retries|this data|this];
      try (by rewrite !told_quiet_input by done).
    + unfold handle_input.
      rewrite (told_pass uuid onChange _ _ H1), (told_pass u0 l0 _ _ H2).
      destruct (newest _) as [c|]; [|reflexivity]. by destruct (_ <? _).
    + unfold handle_input.
      by rewrite (told_switch uuid onChange _ _ _ H1), (told_switch u0 l0 _ _ _ H2).
Qed.

End TwoListeners.

(** X7: a focus-change listener subscribed under a new uuid is part of
    every dispatch from then on, for as long as it stays subscribed.  In
    every state reached later (by inputs that neither take the subscription
    back nor reuse its uuid) each of the three places that run the dispatch
    of [switchFocusedVault] calls it exactly once with the focus then
    current: a call of [switchFocusedVault] itself, whether it switches or
    not; a discovery pass, when it accepts a vault (and not otherwise); a
    retry timer, when its identifier is still focused (and not otherwise).
    And over the whole run it hears exactly what a listener subscribed
    before it hears: the same focuses at the same times. *)
Theorem X7_subscribed_listener_is_notified uuid onChange schedule w :
  uuid ∉ JsMap.keys (focusedVaultSubscribers w) →
  Forall (λ ti, leaves_focus_subscription uuid ti.2) schedule →
  let w0 := world_of (subscribeToFocusedVaultChange uuid onChange w) in
  let w1 := world_of (run schedule w0) in
  (∀ newFocusKey retries,
     told uuid (log_of (switchFocusedVault newFocusKey retries w1))
     = [(clock w1, onChange,
         focusedVault (world_of (switchFocusedVault newFocusKey retries w1)))]) ∧
  (∀ workspaceFolders,
     told uuid (log_of (checkVaultKeyAndUpdateConnection workspaceFolders w1))
     = match newest (candidates workspaceFolders) with
       | Some mostRecentVault =>
           if lastVaultFoundTimestamp w1 <? createdAt mostRecentVault
           then [(clock w1, onChange,
                  focusedVault
                    (world_of (checkVaultKeyAndUpdateConnection workspaceFolders w1)))]
           else []
       | None => []
       end) ∧
  (∀ newFocusKey retries,
     told uuid (log_of (fire (RetrySwitch newFocusKey retries) w1))
     = if decide (focusedVault_key w1 = Some newFocusKey)
       then [(clock w1, onChange, focusedVault w1)] else []) ∧
  (∀ u0 l0,
     u0 ≠ uuid → focus_subscribed u0 l0 w →
     Forall (λ ti, leaves_focus_subscription u0 ti.2) schedule →
     heard uuid (log_of (run schedule w0)) = heard u0 (log_of (run schedule w0))).
Proof.
  intros Hfresh Hok. cbn zeta.
  pose proof (subscribed_fresh uuid onChange w Hfresh) as H0.
  set (w0 := world_of (subscribeToFocusedVaultChange uuid onChange w)) in *.
  assert (focus_subscribed uuid onChange (world_of (run schedule w0))) as H1.
  { apply (keeps_run (focus_subscribed uuid onChange) (λ _, True)
             (leaves_focus_subscription uuid)); try done.
    - intros a. apply fire_keeps_subscribed.
    - intros i Hi. by apply input_keeps_subscribed. }
  split; [intros; by apply told_switch|].
  split; [intros; by apply told_pass|].
  split; [intros; by apply told_retry|].
  intros u0 l0 Hne Hsub0 Hok0.
  assert (focus_subscribed u0 l0 w0) as H0'.
  { unfold w0. rewrite subscribeToFocusedVaultChange_eq. unfold world_of. cbn [fst snd].
    by apply subscribed_set. }
  apply (yields_run (λ w, focus_subscribed uuid onChange w ∧ focus_subscribed u0 l0 w)
           (λ l, heard uuid l = heard u0 l) eq_refl
           (λ l1 l2 Hl1 Hl2, eq_trans (heard_app uuid l1 l2)
              (eq_trans (f_equal2 app Hl1 Hl2) (eq_sym (heard_app u0 l1 l2))))
           (λ w c l H, H)
           (λ i, leaves_focus_subscription uuid i ∧ leaves_focus_subscription u0 i)
           schedule).
  - apply fire_hears_alike.
  - apply input_hears_alike.
  - apply Forall_and. by split.
  - by split.
Qed.

(** *** The stream of one object *)

Lemma delivered_app this (l1 l2 : Log) :
  delivered this (l1 ++ l2) = delivered this l1 ++ delivered this l2.
Proof. unfold delivered. by rewrite batch_calls_app, fmap_app, concat_app. Qed.

Lemma delivered_quiet this (l : Log) :
  Forall (λ e, not_batch_call this e.2) l → delivered this l = [].
Proof. intros Hl. unfold delivered. by rewrite (batch_calls_quiet _ _ Hl). Qed.

Lemma delivered_flush this w v :
  delivered this (flush_delivery w this v) = pendingTraces v.
Proof.
  unfold delivered, flush_delivery.
  destruct (pendingTraces v) as [|x pending]; [reflexivity|].
  cbn [length Nat.ltb Nat.leb]. rewrite batch_calls_delivery. cbn.
  by rewrite app_nil_r.
Qed.

Lemma delivered_immediate this w traces :
  delivered this (immediate_delivery w this traces) = traces.
Proof.
  unfold delivered. rewrite batch_calls_immediate.
  destruct traces as [|x traces]; [reflexivity|].
  rewrite decide_False by done. cbn. by rewrite app_nil_r.
Qed.

(** The passing of time and the batcher of [this]: either its flush timer
    does not fire, and nothing is delivered, or it fires once and delivers
    all that is pending. *)
Lemma fire_due_conserves this P th itv fuel t w :
  batcher this w = Some (P, th, itv) →
  (flush_timers this w = [] ∨ ∃ x, flush_timers this w = [x]) →
  (length (timers w) ≤ fuel)%nat →
  let r := fire_due fuel t w in
  clock w ≤ clock (world_of r) ≤ Z.max (clock w) t ∧
  ((batcher this (world_of r) = Some (P, th, itv) ∧
    flush_timers this (world_of r) = flush_timers this w ∧
    Forall (λ x, t < due x) (flush_timers this w) ∧
    delivered this (log_of r) = [])
   ∨ (batcher this (world_of r) = Some ([], None, itv) ∧
      flush_timers this (world_of r) = [] ∧
      flush_timers this w ≠ [] ∧
      delivered this (log_of r) = P)).
Proof.
  cbn zeta. revert w. induction fuel as [|fuel IH]; intros w Hb Hone Hfuel.
  { assert (timers w = []) as Hnil by (destruct (timers w); [done|cbn in Hfuel; lia]).
    cbn. split; [lia|]. left. unfold flush_timers. rewrite Hnil.
    repeat split; try done; by constructor. }
  destruct (next_due t (timers w)) as [[y rest]|] eqn:Hnext.
  2:{ rewrite (fire_due_stop _ _ _ Hnext). cbn. split; [lia|]. left.
      repeat split; try done.
      unfold next_due in Hnext.
      destruct (pop_earliest (timers w)) as [[y rest]|] eqn:Hpop.
      - cbn in Hnext. destruct (Z.leb_spec (due y) t); [done|].
        apply Forall_forall. intros x Hx.
        apply list_elem_of_filter in Hx as [_ Hx].
        pose proof (pop_earliest_least _ _ _ Hpop x Hx). lia.
      - apply pop_earliest_None in Hpop. unfold flush_timers. rewrite Hpop.
        constructor. }
  destruct (fire_due_step fuel t w y rest Hnext) as [-> ->].
  destruct (next_due_Some _ _ _ _ Hnext) as [Hpop Hdue].
  destruct (pop_earliest_split _ _ _ Hpop) as (l1 & l2 & Hsplit & ->).
  set (w1 := set_clock (Z.max (clock w) (due y)) (set_timers (l1 ++ l2) w)).
  assert (length (l1 ++ l2) ≤ fuel)%nat as Hfuel'.
  { rewrite Hsplit in Hfuel. rewrite length_app in *. cbn in Hfuel. lia. }
  destruct (decide (action y = FlushPending this)) as [Hy|Hy].
  - assert (filter (λ z, action z = FlushPending this) l1 = [] ∧
            filter (λ z, action z = FlushPending this) l2 = [] ∧
            flush_timers this w ≠ []) as (Hl1 & Hl2 & Hne).
    { unfold flush_timers in *.
      rewrite Hsplit, filter_app, filter_cons_True in * by done.
      destruct Hone as [Hone|[x Hone]].
      - by destruct (filter _ l1).
      - destruct (filter _ l1) as [|z l1'].
        + cbn in Hone. injection Hone as _ Hone. done.
        + cbn in Hone. injection Hone as _ Hone. by destruct l1'. }
    destruct (batcher_Some _ _ _ _ _ Hb) as (v & Hv & HP & Hth & Hitv).
    assert (heap w1 !! this = Some v) as Hv1 by exact Hv.
    rewrite Hy. unfold fire. rewrite (sendPendingTraces_eq _ _ _ Hv1).
    set (w2 := put this (set_throttleTimeout None (set_pendingTraces [] v)) w1).
    change (world_of (tt, w2, flush_delivery w1 this v)) with w2.
    change (log_of (tt, w2, flush_delivery w1 this v)) with (flush_delivery w1 this v).
    destruct (fire_due_frame this ([], None, itv) fuel t w2)
      as (Hb3 & Hf3 & Hl3 & Hc3).
    { unfold w2. rewrite (batcher_put _ _ _ _ Hv1). cbn. by rewrite Hitv. }
    { unfold flush_timers, w2, w1, put. cbn. rewrite filter_app, Hl1, Hl2. constructor. }
    assert (flush_timers this w2 = []) as Hf2.
    { unfold flush_timers, w2, w1, put. cbn. by rewrite filter_app, Hl1, Hl2. }
    split.
    { change (clock w2) with (clock w1) in Hc3. unfold w1 in Hc3. cbn in Hc3. lia. }
    right. split; [exact Hb3|]. split; [congruence|]. split; [exact Hne|].
    rewrite delivered_app, delivered_flush, HP.
    unfold delivered. by rewrite Hl3, app_nil_r.
  - destruct (fire_other_frame this (P, th, itv) (l1 ++ l2) (clock w1) (action y) Hy w1)
      as [(Hb2 & Ht2 & Hc2) Hlog]; [done|].
    set (w2 := world_of (fire (action y) w1)) in *.
    assert (flush_timers this w2 = flush_timers this w) as Hf2.
    { unfold flush_timers. rewrite Ht2, Hsplit, !filter_app.
      by rewrite filter_cons_False. }
    destruct (IH w2 Hb2) as [Hc3 Hcases]; [by rewrite Hf2|by rewrite Ht2|].
    split.
    { rewrite Hc2 in Hc3. unfold w1 in Hc3. cbn in Hc3. lia. }
    rewrite delivered_app, (delivered_quiet _ _ Hlog). cbn [app].
    rewrite Hf2 in Hcases. exact Hcases.
Qed.

Lemma advance_conserves this P th itv t w :
  batcher this w = Some (P, th, itv) →
  (flush_timers this w = [] ∨ ∃ x, flush_timers this w = [x]) →
  let r := advance t w in
  clock (world_of r) = Z.max (clock w) t ∧
  ((batcher this (world_of r) = Some (P, th, itv) ∧
    flush_timers this (world_of r) = flush_timers this w ∧
    Forall (λ x, t < due x) (flush_timers this w) ∧
    delivered this (log_of r) = [])
   ∨ (batcher this (world_of r) = Some ([], None, itv) ∧
      flush_timers this (world_of r) = [] ∧
      flush_timers this w ≠ [] ∧
      delivered this (log_of r) = P)).
Proof.
  intros Hb Hone. cbn zeta. destruct (advance_eq t w) as [-> ->].
  destruct (fire_due_conserves this P th itv (length (timers w)) t w Hb Hone)
    as [Hc Hcases]; [done|].
  split; [cbn; lia|exact Hcases].
Qed.

Lemma stream_state_alter this i g w :
  (i ≠ this ∨ ∀ v, (tracesData (g v), isFirst (g v)) = (tracesData v, isFirst v)) →
  stream_state this (set_heap (alter g i (heap w)) w) = stream_state this w.
Proof.
  intros Hg. unfold stream_state. cbn.
  destruct (decide (i = this)) as [->|Hne].
  - destruct Hg as [?|Hg]; [done|].
    rewrite list_lookup_alter_eq. destruct (heap w !! this); cbn; [|done].
    by rewrite Hg.
  - by rewrite list_lookup_alter_ne.
Qed.

Lemma stream_state_alloc this s x w :
  stream_state this w = Some s →
  stream_state this (set_heap (heap w ++ [x]) w) = Some s.
Proof.
  unfold stream_state. cbn. destruct (heap w !! this) as [v|] eqn:Hv; [|done].
  intros Hs. by rewrite (lookup_app_l_Some _ _ _ _ Hv).
Qed.

Lemma flush_timers_scheduled this a delay w :
  a ≠ FlushPending this →
  flush_timers this (scheduled a delay w) = flush_timers this w.
Proof.
  intros Ha. unfold flush_timers, scheduled. cbn.
  rewrite filter_app, filter_cons_False by done. by rewrite app_nil_r.
Qed.

(** Settles the updates that leave an object, its flush timer and the
    clock alone. *)
Ltac untouched_side :=
  first
    [ let traces := fresh "traces" in intros traces; congruence
    | let w := fresh "w" in
      let Hb := fresh "Hb" in
      let Hf := fresh "Hf" in
      let Hc := fresh "Hc" in
      let Hs := fresh "Hs" in
      intros w (Hb & Hf & Hc & Hs);
      split; [|split; [|split; [exact Hc|]]];
      [ first [ exact Hb
              | rewrite batcher_alter;
                [exact Hb|first [left; congruence|right; reflexivity]]
              | by apply batcher_alloc ]
      | first [ exact Hf
              | rewrite flush_timers_scheduled; [exact Hf|congruence] ]
      | first [ exact Hs
              | rewrite stream_state_alter;
                [exact Hs|first [left; congruence|right; reflexivity]]
              | by apply stream_state_alloc ] ] ].

Lemma notifications_quiet this w :
  Forall (λ e, not_batch_call this e.2) (focus_notifications w).
Proof.
  unfold focus_notifications. apply Forall_forall. intros e Hin.
  apply list_elem_of_fmap in Hin as (kv & -> & _). by intros traces.
Qed.

Lemma switchFocusedVault_keeps_untouched this b flushes now s newFocusKey retries :
  keeps (untouched this b flushes now s) (not_batch_call this)
    (switchFocusedVault newFocusKey retries).
Proof.
  intros w (Hb & Hf & Hc & Hs).
  destruct (decide (focusedVault_key w = Some newFocusKey)) as [Hk|Hk].
  - rewrite (switchFocusedVault_same _ _ _ Hk).
    split; [done|]. apply notifications_quiet.
  - rewrite (switchFocusedVault_other _ _ _ Hk). unfold world_of, log_of. cbn [fst snd].
    assert (∃ v, heap w !! this = Some v) as [v Hv].
    { unfold batcher in Hb. destruct (heap w !! this) as [v|]; [by exists v|done]. }
    assert (∃ v', heap (switched newFocusKey retries w) !! this = Some v' ∧
                  tracesData v' = tracesData v ∧ isFirst v' = isFirst v ∧
                  pendingTraces v' = pendingTraces v ∧
                  throttleTimeout v' = throttleTimeout v ∧
                  throttleInterval v' = throttleInterval v) as (v' & Hv' & ? & ? & ? & ? & ?).
    { unfold switched, detached_heap. cbn.
      destruct (focusedVault w) as [r|].
      - rewrite lookup_app_l by (rewrite length_alter; by eapply lookup_lt_Some).
        destruct (decide (r = this)) as [->|Hne].
        + rewrite list_lookup_alter_eq, Hv. cbn. by eexists.
        + rewrite list_lookup_alter_ne, Hv by done. by eexists.
      - rewrite lookup_app_l by (by eapply lookup_lt_Some). by eexists. }
    split.
    + unfold untouched, batcher, stream_state in *.
      rewrite Hv' in *. rewrite Hv in Hb, Hs. cbn in *.
      repeat split; try done; congruence.
    + apply Forall_app. split.
      { apply close_log_quiet. by intros r traces. }
      constructor; [by intros traces|]. apply notifications_quiet.
Qed.

(** What is not a frame for [this] leaves its stream alone. *)
Lemma input_keeps_untouched this b flushes now s i :
  (∀ data, i ≠ SocketMessage this data) →
  keeps (untouched this b flushes now s) (not_batch_call this) (handle_input i).
Proof.
  intros Hi.
  assert (∀ other data, i = SocketMessage other data → other ≠ this) as Hne
    by (intros other data -> ->; by eapply Hi).
  destruct i; try specialize (Hne _ _ eq_refl).
  all: unfold handle_input, subscribeToFocusedVaultChange, subscribeToBatchTrace,
    call_unsubscribe, on_message, sendTracesImmediately, queueTracesForSending,
    call_onBatchTrace, on_close, call_onClose, startVaultKeyMonitoring, dispose,
    checkVaultKeyAndUpdateConnection, close_focused_socket.
  all: keeps_walk_with ltac:(apply switchFocusedVault_keeps_untouched) untouched_side.
Qed.

(** No timer touches the event view or the first-frame flag of an object. *)
Lemma advance_keeps_stream_state this s t :
  keeps (λ w, stream_state this w = Some s) (λ _, True) (advance t).
Proof.
  apply keeps_advance; [by intros|].
  intros [other|newFocusKey retries].
  - unfold fire, sendPendingTraces, call_onBatchTrace.
    keeps_walk ltac:(first
      [ exact I
      | let w := fresh "w" in
        let Hs := fresh "Hs" in
        intros w Hs;
        first [exact Hs|rewrite stream_state_alter; [exact Hs|right; reflexivity]] ]).
  - intros w Hs. rewrite fire_retry_keeps_world.
    split; [exact Hs|]. apply Forall_forall. done.
Qed.

Lemma streaming_advance this itv bound view pending t w :
  streaming this itv bound view pending w →
  t ≤ bound →
  ∃ pending',
    streaming this itv bound view pending' (world_of (advance t w)) ∧
    delivered this (log_of (advance t w)) ++ pending' = pending.
Proof.
  intros (th & first & Hb & Hs & Hfirst & Harm & Hclock) Ht.
  assert (flush_timers this w = [] ∨ ∃ x, flush_timers this w = [x]) as Hone.
  { destruct Harm as [(_ & _ & ?)|(x & _ & ? & _)]; [by left|right; by exists x]. }
  destruct (advance_conserves this pending th itv t w Hb Hone) as [Hc Hcases].
  destruct (advance_keeps_stream_state this (view, first) t w Hs) as [Hs1 _].
  destruct Hcases as [(Hb1 & Hf1 & _ & Hd)|(Hb1 & Hf1 & _ & Hd)].
  - exists pending. split; [|by rewrite Hd].
    exists th, first. repeat split; try done; [by apply Hfirst|by apply Hfirst| |lia].
    by rewrite Hf1.
  - exists []. split; [|by rewrite Hd, app_nil_r].
    exists None, first. repeat split; try done; [by apply Hfirst| |lia].
    by left.
Qed.

Lemma streaming_message this itv bound view pending data w :
  streaming this itv bound view pending w →
  ∃ pending',
    streaming this itv bound (view ++ arrived this (SocketMessage this data)) pending'
      (world_of (on_message this data w)) ∧
    delivered this (log_of (on_message this data w)) ++ pending'
    = pending ++ arrived this (SocketMessage this data).
Proof.
  intros (th & first & Hb & Hs & Hfirst & Harm & Hclock).
  destruct (batcher_Some _ _ _ _ _ Hb) as (v & Hv & HP & Hth & Hitv).
  unfold stream_state in Hs. rewrite Hv in Hs. injection Hs as HD Hf.
  unfold arrived. rewrite decide_True by done.
  destruct (JSON_parse data) as [parsedData|] eqn:Hp; cbn [from_option].
  2:{ rewrite (on_message_undecodable _ _ _ Hp).
      unfold world_of, log_of. cbn [fst snd]. exists pending.
      rewrite !app_nil_r. split; [|done].
      exists th, first. unfold stream_state. rewrite Hv. cbn.
      split; [done|]. split; [by subst|]. done. }
  assert ((first = true ∧ ∃ many, parsedData = inr many) ∨
          (isFirst v = false ∨ ∃ one, parsedData = inl one)) as [[-> [many ->]]|Hinc].
  { destruct first; [|right; by left].
    destruct parsedData as [one|many];
      [right; right; by eexists|left; split; [done|by eexists]]. }
  - destruct (Hfirst eq_refl) as [-> ->].
    rewrite (on_message_backlog _ _ _ _ _ Hp Hv Hf).
    unfold world_of, log_of. cbn [fst snd increment app].
    exists []. rewrite delivered_immediate, app_nil_r. split; [|done].
    exists th, false. unfold stream_state.
    rewrite (batcher_put _ _ _ _ Hv), (heap_put _ _ _ _ Hv). cbn.
    rewrite HP, Hth, Hitv. repeat split; try done.
  - rewrite (on_message_increment _ _ _ _ _ Hp Hv Hinc).
    unfold world_of, log_of. cbn [fst snd].
    exists (pending ++ increment parsedData). split; [|done].
    exists (match throttleTimeout v with
            | Some h => Some h
            | None => Some (next_handle w)
            end), false.
    assert (heap (match throttleTimeout v with
                  | Some _ => w
                  | None => scheduled (FlushPending this) (throttleInterval v) w
                  end) !! this = Some v) as Hv'
      by (by destruct (throttleTimeout v)).
    unfold stream_state. rewrite (batcher_put _ _ _ _ Hv'), (heap_put _ _ _ _ Hv').
    cbn. rewrite HP, HD, Hitv. split; [done|]. split; [done|]. split; [done|]. split.
    + right. destruct Harm as [(Hnone & _ & Hfl)|(x & Hsome & Hfl & Hdue)].
      * rewrite Hth, Hnone.
        exists {| handle := next_handle w; due := clock w + itv;
                  action := FlushPending this |}.
        split; [done|]. split; [|cbn; lia].
        unfold flush_timers, put, scheduled in *. cbn.
        by rewrite filter_app, Hfl, filter_cons_True.
      * exists x. destruct (throttleTimeout v) as [h|] eqn:Hh; [|congruence].
        done.
    + by destruct (throttleTimeout v).
Qed.

Lemma message_or_not this (i : Input (Buffer := Buffer)) :
  (∃ data, i = SocketMessage this data) ∨ (∀ data, i ≠ SocketMessage this data).
Proof.
  destruct i; try (by right).
  destruct (decide (this0 = this)) as [->|Hne]; [left; by eexists|].
  right. congruence.
Qed.

Lemma arrived_other this i :
  (∀ data, i ≠ SocketMessage this data) → arrived this i = [].
Proof.
  intros Hi. destruct i; try done. unfold arrived.
  rewrite decide_False; [done|]. intros ->. by eapply Hi.
Qed.

Lemma streaming_input this itv bound view pending i w :
  streaming this itv bound view pending w →
  ∃ pending',
    streaming this itv bound (view ++ arrived this i) pending'
      (world_of (handle_input i w)) ∧
    delivered this (log_of (handle_input i w)) ++ pending'
    = pending ++ arrived this i.
Proof.
  intros Hw. destruct (message_or_not this i) as [[data ->]|Hi].
  - by apply streaming_message.
  - rewrite (arrived_other _ _ Hi), !app_nil_r. exists pending.
    destruct Hw as (th & first & Hb & Hs & Hfirst & Harm & Hclock).
    destruct (input_keeps_untouched this (pending, th, itv) (flush_timers this w)
                (clock w) (view, first) i Hi w) as [(Hb' & Hf' & Hc' & Hs') Hlog];
      [done|].
    split; [|by rewrite (delivered_quiet _ _ Hlog)].
    exists th, first. rewrite Hf', Hc'. done.
Qed.

(** The stream of an object over a whole run: its event view grows by what
    it receives, and what it has delivered, followed by what is pending, is
    what was pending, followed by what it received. *)
Lemma run_streaming this itv bound schedule :
  Forall (λ ti, ti.1 ≤ bound) schedule →
  ∀ view pending w,
    streaming this itv bound view pending w →
    ∃ pending',
      streaming this itv bound (view ++ received this schedule) pending'
        (world_of (run schedule w)) ∧
      delivered this (log_of (run schedule w)) ++ pending'
      = pending ++ received this schedule.
Proof.
  induction 1 as [|[t i] schedule Ht _ IH]; intros view pending w Hw.
  - exists pending. cbn. by rewrite !app_nil_r.
  - rewrite run_cons, !world_of_bind, !log_of_bind, ?world_of_bind.
    destruct (streaming_advance _ _ _ _ _ t w Hw Ht) as (p1 & Hw1 & Hd1).
    set (w1 := world_of (advance t w)) in *.
    destruct (streaming_input _ _ _ _ _ i w1 Hw1) as (p2 & Hw2 & Hd2).
    set (w2 := world_of (handle_input i w1)) in *.
    destruct (IH _ _ w2 Hw2) as (p3 & Hw3 & Hd3).
    exists p3. change (received this ((t, i) :: schedule))
      with (arrived this i ++ received this schedule).
    split; [by rewrite app_assoc|].
    rewrite !delivered_app, <- !app_assoc, Hd3.
    rewrite (app_assoc (delivered this (log_of (handle_input i w1)))), Hd2.
    rewrite <- app_assoc, (app_assoc _ p1), Hd1. done.
Qed.

(** X9: no record is lost, repeated or reordered on its way to the
    subscribers.  For an object whose batcher is empty and unarmed, whatever
    arrives next (frames for it, undecodable ones among them, and anything
    else: other objects' frames, closures, passes, switches, timers), the
    records it hands to [onBatchTrace], in order, are exactly the records
    its socket received, in order, once one throttle interval has passed
    after the last input; and then its buffer is empty and unarmed again. *)
Theorem X9_every_record_is_delivered_once this v schedule bound T w :
  heap w !! this = Some v →
  (isFirst v = true → tracesData v = []) →
  pendingTraces v = [] →
  throttleTimeout v = None →
  flush_timers this w = [] →
  clock w ≤ bound →
  Forall (λ ti, ti.1 ≤ bound) schedule →
  bound + throttleInterval v ≤ T →
  let r := (run schedule;; advance T) w in
  delivered this (log_of r) = received this schedule ∧
  batcher this (world_of r) = Some ([], None, throttleInterval v) ∧
  flush_timers this (world_of r) = [].
Proof.
  intros Hv Hfresh Hpending Hthrottle Hunarmed Hclock Htimes HT. cbn zeta.
  assert (streaming this (throttleInterval v) bound (tracesData v) [] w) as Hw.
  { exists None, (isFirst v). unfold batcher, stream_state. rewrite Hv. cbn.
    rewrite Hpending, Hthrottle. repeat split; try done; [by apply Hfresh|by left]. }
  destruct (run_streaming this _ bound schedule Htimes _ _ w Hw)
    as (p & (th & first & Hb & Hs & Hfirst & Harm & Hc) & Hd).
  rewrite log_of_bind, world_of_bind, delivered_app.
  set (w1 := world_of (run schedule w)) in *.
  assert (flush_timers this w1 = [] ∨ ∃ x, flush_timers this w1 = [x]) as Hone.
  { destruct Harm as [(_ & _ & ?)|(x & _ & ? & _)]; [by left|right; by exists x]. }
  destruct (advance_conserves this p th _ T w1 Hb Hone)
    as [_ [(Hb2 & Hf2 & Hlate & Hd2)|(Hb2 & Hf2 & _ & Hd2)]].
  - destruct Harm as [(-> & -> & Hf)|(x & _ & Hf & Hdue)].
    + rewrite Hd2, app_nil_r. rewrite app_nil_r in Hd. cbn in Hd.
      split; [exact Hd|]. split; [exact Hb2|congruence].
    + rewrite Hf in Hlate. apply Forall_cons in Hlate as [Hlate _]. lia.
  - rewrite Hd2. split; [exact Hd|]. split; [exact Hb2|exact Hf2].
Qed.

Lemma on_message_view this data view first w :
  stream_state this w = Some (view, first) →
  (first = true → view = []) →
  stream_state this (world_of (on_message this data w))
  = Some (view ++ arrived this (SocketMessage this data),
          match JSON_parse data with Some _ => false | None => first end).
Proof.
  unfold stream_state. intros Hs Hfirst.
  destruct (heap w !! this) as [v|] eqn:Hv; [|done].
  injection Hs as HD Hf. unfold arrived. rewrite decide_True by done.
  destruct (JSON_parse data) as [parsedData|] eqn:Hp; cbn [from_option].
  2:{ rewrite (on_message_undecodable _ _ _ Hp). unfold world_of. cbn.
      rewrite Hv, app_nil_r. cbn. by rewrite HD, Hf. }
  assert ((first = true ∧ ∃ many, parsedData = inr many) ∨
          (isFirst v = false ∨ ∃ one, parsedData = inl one)) as [[-> [many ->]]|Hinc].
  { destruct first; [|right; by left].
    destruct parsedData as [one|many];
      [right; right; by eexists|left; split; [done|by eexists]]. }
  - rewrite (Hfirst eq_refl). rewrite (on_message_backlog _ _ _ _ _ Hp Hv Hf).
    unfold world_of. cbn [fst snd]. by rewrite (heap_put _ _ _ _ Hv).
  - rewrite (on_message_increment _ _ _ _ _ Hp Hv Hinc).
    unfold world_of. cbn [fst snd].
    assert (heap (match throttleTimeout v with
                  | Some _ => w
                  | None => scheduled (FlushPending this) (throttleInterval v) w
                  end) !! this = Some v) as Hv'
      by (by destruct (throttleTimeout v)).
    rewrite (heap_put _ _ _ _ Hv'). cbn. by rewrite HD.
Qed.

Lemma run_view this schedule :
  ∀ view first w,
    stream_state this w = Some (view, first) →
    (first = true → view = []) →
    ∃ first',
      stream_state this (world_of (run schedule w))
      = Some (view ++ received this schedule, first').
Proof.
  induction schedule as [|[t i] schedule IH]; intros view first w Hs Hfirst.
  - exists first. cbn. by rewrite app_nil_r.
  - rewrite run_cons, !world_of_bind.
    destruct (advance_keeps_stream_state this _ t w Hs) as [Hs1 _].
    set (w1 := world_of (advance t w)) in *.
    change (received this ((t, i) :: schedule))
      with (arrived this i ++ received this schedule).
    rewrite app_assoc.
    destruct (message_or_not this i) as [[data ->]|Hi].
    + apply (IH _ (match JSON_parse data with Some _ => false | None => first end)).
      * by apply on_message_view.
      * destruct (JSON_parse data) eqn:Hp; [done|].
        intros Hf. unfold arrived. rewrite decide_True, Hp by done.
        cbn. rewrite app_nil_r. by apply Hfirst.
    + rewrite (arrived_other _ _ Hi), app_nil_r.
      apply (IH _ first); [|done].
      unfold stream_state in Hs1.
      destruct (heap w1 !! this) as [v1|] eqn:Hv1; [|done].
      eapply (input_keeps_untouched this
                (pendingTraces v1, throttleTimeout v1, throttleInterval v1)
                (flush_timers this w1) (clock w1) (view, first) i Hi w1).
      unfold untouched, batcher, stream_state. rewrite Hv1. done.
Qed.

(** X10: the event view of an object is everything its socket has received
    since it was made, in order: whatever else happens in between, after a
    run the view is the one it had followed by the records of its frames.
    While the object is focused, this is what [getFocusedVaultTraces]
    returns. *)
Theorem X10_event_view_is_all_received this v schedule w :
  heap w !! this = Some v →
  (isFirst v = true → tracesData v = []) →
  let w' := world_of (run schedule w) in
  tracesData <$> heap w' !! this = Some (tracesData v ++ received this schedule) ∧
  (focusedVault w' = Some this →
   getFocusedVaultTraces w' = tracesData v ++ received this schedule).
Proof.
  intros Hv Hfresh. cbn zeta.
  destruct (run_view this schedule (tracesData v) (isFirst v) w) as [first' Hs];
    [by unfold stream_state; rewrite Hv|done|].
  unfold stream_state in Hs.
  destruct (heap (world_of (run schedule w)) !! this) as [v'|] eqn:Hv'; [|done].
  injection Hs as HD _. split; [by cbn; rewrite HD|].
  intros Hfocus. unfold getFocusedVaultTraces. rewrite Hfocus. cbn.
  by rewrite Hv'; cbn; rewrite HD.
Qed.

(** *** Objects know their own identifier *)

Lemma consistent_alter g i w :
  (∀ v, self_consistent v → self_consistent (g v)) →
  consistent w → consistent (set_heap (alter g i (heap w)) w).
Proof.
  intros Hg [Hall Hfocus]. split; cbn.
  - apply Forall_forall. intros v Hin.
    apply list_elem_of_lookup in Hin as [j Hj].
    destruct (decide (i = j)) as [->|Hne].
    + rewrite list_lookup_alter_eq in Hj.
      destruct (heap w !! j) as [v0|] eqn:Hv0; [|done]. injection Hj as <-.
      apply Hg. rewrite Forall_forall in Hall. apply Hall.
      apply list_elem_of_lookup. by exists j.
    + rewrite list_lookup_alter_ne in Hj by done.
      rewrite Forall_forall in Hall. apply Hall.
      apply list_elem_of_lookup. by exists j.
  - intros r Hr. rewrite length_alter. by apply Hfocus.
Qed.

Lemma connected_self_consistent newFocusKey retries :
  self_consistent (connected newFocusKey retries).
Proof. split; [by intros ws [= <-]|]. split; [by eexists|done]. Qed.

Lemma detached_self_consistent (v : FocusedVault) :
  self_consistent v → self_consistent (set_wsConnection None v).
Proof. intros (_ & Hc & Hi). split; [done|]. by split. Qed.

Lemma switchFocusedVault_keeps_consistent newFocusKey retries :
  keeps consistent (λ _, True) (switchFocusedVault newFocusKey retries).
Proof.
  intros w Hw. split; [|apply Forall_forall; done].
  destruct (decide (focusedVault_key w = Some newFocusKey)) as [Hk|Hk].
  - by rewrite (switchFocusedVault_same _ _ _ Hk).
  - rewrite (switchFocusedVault_other _ _ _ Hk). unfold world_of. cbn [fst snd].
    assert (consistent (set_heap (detached_heap w) w)) as [Hall _].
    { unfold detached_heap. destruct (focusedVault w) as [r|].
      - apply consistent_alter; [apply detached_self_consistent|done].
      - by destruct w. }
    assert (length (detached_heap w) = length (heap w)) as Hlen.
    { unfold detached_heap. destruct (focusedVault w); [apply length_alter|done]. }
    split; unfold switched; cbn.
    + apply Forall_app. split; [exact Hall|].
      constructor; [apply connected_self_consistent|constructor].
    + intros r [= <-]. rewrite length_app, Hlen. cbn. lia.
Qed.

(** Settles the updates that keep every object self consistent. *)
Ltac consistent_side :=
  first
    [ exact I
    | let w := fresh "w" in
      let H := fresh "H" in
      intros w H;
      first [ exact H
            | apply consistent_alter; [|exact H];
              let v := fresh "v" in
              let Hv := fresh "Hv" in
              intros v Hv; exact Hv
            | apply consistent_alter; [|exact H]; apply detached_self_consistent
            | destruct H as [Hall Hfocus]; split; [exact Hall|]; done ] ].

Lemma fire_keeps_consistent a : keeps consistent (λ _, True) (fire a).
Proof.
  destruct a as [this|newFocusKey retries];
    unfold fire, sendPendingTraces, call_onBatchTrace;
    keeps_walk_with ltac:(apply switchFocusedVault_keeps_consistent) consistent_side.
Qed.

Lemma input_keeps_consistent i : keeps consistent (λ _, True) (handle_input i).
Proof.
  destruct i.
  all: unfold handle_input, subscribeToFocusedVaultChange, subscribeToBatchTrace,
    call_unsubscribe, on_message, sendTracesImmediately, queueTracesForSending,
    call_onBatchTrace, on_close, call_onClose, startVaultKeyMonitoring, dispose,
    checkVaultKeyAndUpdateConnection, close_focused_socket.
  all: keeps_walk_with ltac:(apply switchFocusedVault_keeps_consistent) consistent_side.
Qed.

(** X11: whatever a manager has been through since it was constructed,
    every object it has made is its own: an object that has a socket has the
    one of its own identifier, its [onClose] asks to retry its own
    identifier, and its throttle interval is 800; and the focus, if there is
    one, is one of these objects. *)
Theorem X11_objects_are_self_consistent schedule :
  let w := world_of (run schedule fresh) in
  Forall self_consistent (heap w) ∧
  (∀ r, focusedVault w = Some r → ∃ v, heap w !! r = Some v ∧
                                       focusedVault_key w = Some (fv_key v)).
Proof.
  cbn zeta.
  assert (consistent (world_of (run schedule fresh))) as [Hall Hfocus].
  { apply (keeps_run consistent (λ _, True) (λ _, True)).
    - by intros w c l [? ?].
    - apply fire_keeps_consistent.
    - intros i _. apply input_keeps_consistent.
    - apply Forall_forall. done.
    - split; [constructor|done]. }
  split; [exact Hall|]. intros r Hr.
  destruct (lookup_lt_is_Some_2 _ _ (Hfocus r Hr)) as [v Hv].
  exists v. split; [exact Hv|]. unfold focusedVault_key. rewrite Hr. cbn.
  by rewrite Hv.
Qed.

(** *** A stream that closed stays closed *)

Lemma stale_pass workspaceFolders w :
  (∀ c, c ∈ candidates workspaceFolders → createdAt c ≤ lastVaultFoundTimestamp w) →
  checkVaultKeyAndUpdateConnection workspaceFolders w = (tt, w, []).
Proof.
  intros Hold. rewrite checkVaultKeyAndUpdateConnection_eq.
  destruct (newest (candidates workspaceFolders)) as [c|] eqn:Hc; [|reflexivity].
  apply newest_Some_in in Hc. specialize (Hold c Hc).
  by rewrite (proj2 (Z.ltb_ge _ _) Hold).
Qed.

Lemma closed_at_alter this bound g i w :
  (∀ v, wsConnection v = None → wsConnection (g v) = None) →
  closed_at this bound w → closed_at this bound (set_heap (alter g i (heap w)) w).
Proof.
  intros Hg [Ht Hc]. split; [exact Ht|]. cbn. intros v' Hv'.
  destruct (decide (i = this)) as [->|Hne].
  - rewrite list_lookup_alter_eq in Hv'.
    destruct (heap w !! this) as [v|] eqn:Hv; [|done]. injection Hv' as <-.
    apply Hg. by apply Hc.
  - rewrite list_lookup_alter_ne in Hv' by done. by apply Hc.
Qed.

(** Settles the updates that leave a closed object closed. *)
Ltac closed_side :=
  first
    [ exact I
    | let w := fresh "w" in
      let H := fresh "H" in
      intros w H;
      first [ exact H
            | apply closed_at_alter; [|exact H];
              let v := fresh "v" in
              let Hv := fresh "Hv" in
              intros v Hv; first [exact Hv | reflexivity] ] ].

Lemma fire_keeps_closed this bound a :
  keeps (closed_at this bound) opens_nothing (fire a).
Proof.
  destruct a as [r|newFocusKey retries].
  - unfold fire, sendPendingTraces, call_onBatchTrace. keeps_walk closed_side.
  - intros w Hw. rewrite fire_retry_keeps_world. split; [exact Hw|].
    destruct (decide (focusedVault_key w = Some newFocusKey)) as [Hk|Hk].
    + rewrite (fire_retry_focused _ _ _ Hk), (switchFocusedVault_same _ _ _ Hk).
      unfold log_of, focus_notifications. cbn [snd]. apply Forall_forall.
      intros e He. apply list_elem_of_fmap in He as [kv [-> _]]. exact I.
    + rewrite (fire_retry_stale _ _ _ Hk). constructor.
Qed.

Lemma input_keeps_closed this bound i :
  stale bound i → keeps (closed_at this bound) opens_nothing (handle_input i).
Proof.
  destruct i; intros Hi; try contradiction.
  6: { intros w Hw. unfold handle_input. rewrite stale_pass.
       - split; [exact Hw|constructor].
       - destruct Hw as [-> _]. exact Hi. }
  all: unfold handle_input, subscribeToFocusedVaultChange, subscribeToBatchTrace,
    call_unsubscribe, on_message, sendTracesImmediately, queueTracesForSending,
    call_onBatchTrace, on_close, call_onClose, startVaultKeyMonitoring, dispose,
    close_focused_socket.
  all: keeps_walk closed_side.
Qed.

Lemma on_close_closes this w :
  closed_at this (lastVaultFoundTimestamp w) (world_of (on_close this w)) ∧
  Forall (λ e, opens_nothing e.2) (log_of (on_close this w)).
Proof.
  destruct (heap w !! this) as [v|] eqn:Hv.
  - destruct (onClose v) as [newFocusKey retries] eqn:Hcb.
    rewrite (on_close_eq _ _ _ _ _ Hv Hcb). unfold world_of, log_of. cbn [fst snd].
    split; [|by repeat constructor]. split; [reflexivity|].
    intros v'. unfold scheduled, put. cbn.
    rewrite list_lookup_insert_eq by (by apply lookup_lt_Some in Hv).
    by intros [= <-].
  - unfold on_close, update, call_onClose. eff.
    rewrite list_lookup_alter_eq, Hv. cbn. split; [|constructor].
    split; [reflexivity|]. cbn. intros v'.
    by rewrite list_lookup_alter_eq, Hv.
Qed.

(** X12: a stream that closed stays closed.  After the socket of an object
    reports its closure, and for as long as nothing moves the focus (no
    direct switch, and no discovery pass that finds a vault newer than the
    last accepted one), no socket is opened, whatever else happens and
    however long one waits: the retry that the closure schedules fires and
    reconnects nothing, and the object is left without a socket. *)
Theorem X12_closed_stream_is_not_reopened this schedule T w :
  Forall (λ ti, stale (lastVaultFoundTimestamp w) ti.2) schedule →
  let r := (on_close this;; run schedule;; advance T) w in
  opened_sockets (log_of r) = [] ∧
  lastVaultFoundTimestamp (world_of r) = lastVaultFoundTimestamp w ∧
  (∀ v, heap (world_of r) !! this = Some v → wsConnection v = None).
Proof.
  intros Hok. cbn zeta.
  destruct (on_close_closes this w) as [Hclosed Hlog].
  assert (keeps (closed_at this (lastVaultFoundTimestamp w)) opens_nothing
            (run schedule;; advance T)) as Hrest.
  { apply keeps_bind.
    - apply (keeps_run _ _ (stale (lastVaultFoundTimestamp w))).
      + by intros w0 c l [? ?].
      + apply fire_keeps_closed.
      + intros i Hi. by apply input_keeps_closed.
      + exact Hok.
    - intros _. apply keeps_advance.
      + by intros w0 c l [? ?].
      + apply fire_keeps_closed. }
  destruct (Hrest _ Hclosed) as [[Ht Hc] Hlog'].
  rewrite world_of_bind, log_of_bind. split; [|by split].
  apply opens_nothing_sockets. apply Forall_app. by split.
Qed.
End Properties.

(** ** The properties at work on the concrete instance *)

(** A vault created at time 0 is the newest candidate observed and is never
    focused: the claim of C1 fails on it. *)
Lemma C1_counterexample :
  Forall (λ ti, discovery_input ti.2) demo_schedule_epoch ∧
  newest (observed demo_schedule_epoch) = Some {| key := "a"; createdAt := 0 |} ∧
  focusedVault_key (demo_run demo_schedule_epoch) = None ∧
  ¬ focus_is_newest (observed demo_schedule_epoch) (demo_run demo_schedule_epoch).
Proof.
  split; [repeat constructor|]. split; [reflexivity|]. split; [reflexivity|].
  unfold focus_is_newest. vm_compute. discriminate.
Qed.

Lemma C1_witness :
  Forall (λ ti, discovery_input ti.2) demo_schedule_b ∧
  focus_is_newest (observed demo_schedule_b) (demo_run demo_schedule_b) ∧
  lastVaultFoundTimestamp (demo_run demo_schedule_b) = 200.
Proof.
  assert (Forall (λ ti, discovery_input ti.2) demo_schedule_b) as Hok
    by (repeat constructor).
  split; [exact Hok|].
  refine (proj1 (C1_focus_follows_newest_candidate demo_parse demo_api demo_schedule_b Hok)
            {| key := "b"; createdAt := 200 |} eq_refl _).
  reflexivity.
Defined.

(** A first frame that is the empty array: no callback is made, where the
    claim of C2 has one made with the whole (empty) sequence. *)
Lemma C2_counterexample :
  awaits_first_frame 0 demo_focus_a ∧
  demo_parse (Some (inr [])) = Some (inr []) ∧
  log_of (on_message demo_parse 0 (Some (inr [])) demo_focus_a) = [] ∧
  batch_calls 0 (log_of (on_message demo_parse 0 (Some (inr [])) demo_focus_a))
  ≠ [(10, [])].
Proof. repeat split; try reflexivity. by vm_compute. Qed.

Lemma C2_witness :
  batch_calls 0
    (log_of ((run demo_parse demo_api
                [(20, SocketMessage 0%nat (Some (inr [1; 2]%nat)));
                 (30, SocketMessage 0%nat (Some (inl 3%nat)))];;
              advance demo_api 1000) demo_focus_a))
  = [(20, [1; 2]%nat); (830, [3%nat])].
Proof.
  apply (proj2 (C2_first_array_frame_is_the_backlog demo_parse demo_api 0
    (connected demo_api "a" 0) (Some (inr [1; 2]%nat)) [1; 2]%nat demo_focus_a
    eq_refl eq_refl eq_refl) 1%nat 2%nat 3%nat (Some (inl 3%nat)) 20 30 1000);
    try reflexivity; by vm_compute.
Defined.

(** One enqueue of the empty sequence arms the timer, and the timer calls
    nothing: no flush callback, where the claim of C3 has exactly one. *)
Lemma C3_counterexample :
  batcher 0 demo_focus_a = Some ([], None, 800) ∧
  flush_timers 0 demo_focus_a = [] ∧
  flush_timers 0 (world_of (enqueue_all demo_api 0 [(20, [])] demo_focus_a))
  = [{| handle := 0; due := 820; action := FlushPending 0 |}] ∧
  batch_calls 0
    (log_of ((enqueue_all demo_api 0 [(20, [])];; advance demo_api 2000) demo_focus_a))
  = [] ∧
  batch_calls 0
    (log_of ((enqueue_all demo_api 0 [(20, [])];; advance demo_api 2000) demo_focus_a))
  ≠ [(820, [])].
Proof. repeat split; try reflexivity. by vm_compute. Qed.

Lemma C3_witness :
  batch_calls 0
    (log_of ((enqueue_all demo_api 0 [(20, [1%nat]); (100, [2; 3]%nat); (500, [])];;
              advance demo_api 2000) demo_focus_a))
  = [(820, [1; 2; 3]%nat)].
Proof.
  refine (proj1 (C3_one_flush_per_window demo_api 0 (connected demo_api "a" 0)
    demo_focus_a 20 [1%nat] [(100, [2; 3]%nat); (500, [])] 2000
    eq_refl eq_refl eq_refl eq_refl eq_refl _ _ _)).
  - by vm_compute.
  - repeat constructor; by vm_compute.
  - by vm_compute.
Defined.

Lemma C4_witness :
  focusedVault_key demo_focus_b ≠ Some "a" ∧
  fire demo_api (RetrySwitch "a" 0) demo_focus_b = (tt, demo_focus_b, []).
Proof.
  assert (focusedVault_key demo_focus_b ≠ Some "a") as Hk by (by vm_compute).
  split; [exact Hk|].
  exact (proj1 (C4_superseded_retry_is_noop demo_api "a" 0 demo_focus_b Hk)).
Defined.

(** The stream of ["a"] (retry count 0) closes at 10: the retry fires at 112
    and only tells the focus-change subscriber; no socket is opened by
    time 10000 and the object keeps its retry count. *)
Lemma C6_witness :
  log_of ((on_close 0;; advance demo_api 10000) demo_focus_a)
  = [(10, CallOnClose 0); (112, ToFocusedVaultSubscriber "u1" 1%nat (Some 0%nat))] ∧
  opened_sockets (log_of ((on_close 0;; advance demo_api 10000) demo_focus_a)) = [] ∧
  closed_focus 0 "a" 0 (world_of ((on_close 0;; advance demo_api 10000) demo_focus_a)).
Proof.
  split; [reflexivity|].
  exact (proj2 (proj2 (C6_retry_reconnects_nothing demo_api 0
    (connected demo_api "a" 0) "a" 0 10000 demo_focus_a
    eq_refl eq_refl eq_refl eq_refl))).
Defined.

Lemma C7_witness :
  focusedVault_key demo_focus_a = Some "a" ∧
  switchFocusedVault demo_api "a" 3 demo_focus_a
  = (tt, demo_focus_a, [(10, ToFocusedVaultSubscriber "u1" 1%nat (Some 0%nat))]).
Proof.
  split; [reflexivity|].
  exact (C7_same_identifier_only_notifies demo_api "a" 3 demo_focus_a eq_refl).
Defined.

Lemma C8_witness :
  no_candidate (Some [None; None]) ∧
  checkVaultKeyAndUpdateConnection demo_api (Some [None; None]) demo_focus_a
    = (tt, demo_focus_a, []).
Proof.
  assert (no_candidate (Some [None; None])) as Hn by (repeat constructor).
  split; [exact Hn|].
  exact (C8_empty_pass_changes_nothing demo_api _ demo_focus_a Hn).
Defined.

Lemma C10_witness :
  demo_parse None = None ∧
  on_message demo_parse 0 None demo_focus_a = (tt, demo_focus_a, []).
Proof.
  split; [reflexivity|].
  exact (proj1 (C10_undecodable_frame_is_dropped demo_parse 0 None demo_focus_a eq_refl)).
Defined.

(** The socket of vault ["a"] is closed on purpose while its batcher is
    armed: the armed timer still delivers, and when the socket reports its
    closure, [onClose] is still called.  The claim of C5 has neither. *)
Lemma C5_counterexample :
  demo_log demo_schedule_superseded 2000
  = [(10, NewWebSocket 0 "ws://localhost:8080/vaults/traces/a/stream");
     (10, ToFocusedVaultSubscriber "u1" 1%nat (Some 0%nat));
     (20, CallOnBatchTrace 0 [1; 2]%nat);
     (20, ToBatchTraceSubscriber "u2" 2%nat [1; 2]%nat);
     (40, CloseWebSocket 0);
     (40, NewWebSocket 1 "ws://localhost:8080/vaults/traces/b/stream");
     (40, ToFocusedVaultSubscriber "u1" 1%nat (Some 1%nat));
     (830, CallOnBatchTrace 0 [3%nat]);
     (830, ToBatchTraceSubscriber "u2" 2%nat [3%nat])] ∧
  silent_after_close (demo_log demo_schedule_superseded 2000) = false ∧
  (50, CallOnClose 0) ∈ demo_log demo_schedule_closed 2000 ∧
  silent_after_close (demo_log demo_schedule_closed 2000) = false.
Proof.
  split; [reflexivity|]. split; [reflexivity|]. split; [|reflexivity].
  vm_compute. do 7 right. left.
Qed.

Lemma C5_witness :
  batch_calls 0
    (log_of (fire demo_api (FlushPending 0)
               (world_of (switchFocusedVault demo_api "b" 0 demo_streaming))))
  = [(30, [3%nat])].
Proof.
  refine (proj1 (proj2 (proj2 (proj2
    (C5_close_suppresses_nothing demo_api 0 demo_streaming_vault "b" demo_streaming
       eq_refl eq_refl _))))).
  discriminate.
Defined.

Lemma C9_witness :
  Forall (λ ti : Z * Input (Buffer := DemoBuffer),
            ∀ l, ti.2 ≠ SubscribeFocusedVault "u1" l
                 ∧ ti.2 ≠ SubscribeBatchTrace "u1" l)
    [(5010, VaultKeysResolved (Some [Some {| key := "b"; createdAt := 200 |}]))] ∧
  Forall (λ e, to_focusedVault_subscription "u1" e.2 = false)
    (log_of (run demo_parse demo_api
               [(5010, VaultKeysResolved (Some [Some {| key := "b"; createdAt := 200 |}]))]
               (world_of (call_unsubscribe (UnsubscribeFocusedVault "u1") demo_focus_a)))).
Proof.
  assert (Forall (λ ti : Z * Input (Buffer := DemoBuffer),
            ∀ l, ti.2 ≠ SubscribeFocusedVault "u1" l
                 ∧ ti.2 ≠ SubscribeBatchTrace "u1" l)
    [(5010, VaultKeysResolved (Some [Some {| key := "b"; createdAt := 200 |}]))])
    as Hfresh by (repeat constructor; discriminate).
  split; [exact Hfresh|].
  exact (proj1 (proj1 (C9_unsubscribed_listener_is_silent demo_parse demo_api
    "u1" demo_focus_a _ Hfresh))).
Defined.
(** ** Further properties, outside the section *)

(** *** The address of the stream *)

Lemma substring_all (s : string) : String.substring 0 (String.length s) s = s.
Proof. induction s as [|c s IH]; [reflexivity|]. cbn. by rewrite IH. Qed.

Lemma prefix_append (p s : string) : String.prefix p (p +:+ s) = true.
Proof.
  induction p as [|a p IH].
  - by destruct s.
  - change (String a p +:+ s) with (String a (p +:+ s)). cbn [String.prefix].
    by destruct (Ascii.ascii_dec a a).
Qed.

Lemma length_append (p s : string) :
  String.length (p +:+ s) = (String.length p + String.length s)%nat.
Proof.
  induction p as [|a p IH]; [reflexivity|].
  change (String a p +:+ s) with (String a (p +:+ s)). cbn. by rewrite IH.
Qed.

Lemma substring_append (p s : string) :
  String.substring (String.length p) (String.length s) (p +:+ s) = s.
Proof.
  induction p as [|a p IH]; [apply substring_all|].
  change (String a p +:+ s) with (String a (p +:+ s)). cbn. exact IH.
Qed.

Lemma replace_http_ws_http (rest : string) :
  replace_http_ws ("http" +:+ rest) = "ws" +:+ rest.
Proof.
  unfold replace_http_ws. rewrite prefix_append, length_append.
  replace (String.length "http" + String.length rest - 4)%nat
    with (String.length rest) by (cbn; lia).
  change 4%nat with (String.length "http"). by rewrite substring_append.
Qed.

(** X2: the stream address takes the scheme of [apiUrl]: a leading [http]
    becomes [ws] (so [https] becomes [wss]) and the rest is kept; an
    address that does not start with [http] (the test is case sensitive) is
    kept whole.  The path names the vault. *)
Theorem X2_stream_address (rest vaultSecretKey : string) :
  fullWsUrl ("http" +:+ rest) vaultSecretKey
  = "ws" +:+ rest +:+ "/vaults/traces/" +:+ vaultSecretKey +:+ "/stream" ∧
  fullWsUrl ("HTTP" +:+ rest) vaultSecretKey
  = "HTTP" +:+ rest +:+ "/vaults/traces/" +:+ vaultSecretKey +:+ "/stream" ∧
  fullWsUrl "" vaultSecretKey
  = "/vaults/traces/" +:+ vaultSecretKey +:+ "/stream".
Proof.
  unfold fullWsUrl. rewrite replace_http_ws_http. repeat split.
Qed.

(** ** Further properties at work on the concrete instance *)

(** Vault ["a"] was accepted at 100; after a restart of the monitoring a pass
    that finds only ["a"] again leaves the manager without a focus. *)
Lemma X4_witness :
  let w1 := world_of (startVaultKeyMonitoring demo_focus_a) in
  focusedVault w1 = None ∧
  checkVaultKeyAndUpdateConnection demo_api
    (Some [None; Some {| key := "a"; createdAt := 100 |}]) w1 = (tt, w1, []).
Proof.
  apply (X4_restart_keeps_no_focus demo_api
           (Some [None; Some {| key := "a"; createdAt := 100 |}]) demo_focus_a).
  intros c Hc. apply list_elem_of_singleton in Hc. subst c. by vm_compute.
Defined.

(** Switching from ["a"] to ["b"] makes object 1 and opens its stream. *)
Lemma X5_witness :
  focusedVault_key demo_focus_a ≠ Some "b" ∧
  focusedVault (world_of (switchFocusedVault demo_api "b" 0 demo_focus_a)) = Some 1%nat ∧
  opened_sockets (log_of (switchFocusedVault demo_api "b" 0 demo_focus_a))
  = [(10, 1%nat, "ws://localhost:8080/vaults/traces/b/stream")].
Proof.
  assert (focusedVault_key demo_focus_a ≠ Some "b") as Hne by (by vm_compute).
  split; [exact Hne|].
  split.
  - exact (proj1 (X5_switch_focuses_a_new_object demo_api "b" 0 demo_focus_a Hne)).
  - exact (proj1 (proj2 (proj2 (proj2 (proj2 (proj2 (proj2
      (X5_switch_focuses_a_new_object demo_api "b" 0 demo_focus_a Hne)))))))).
Defined.

(** A subscription under a new identifier, taken back at once, leaves the
    manager as it was. *)
Lemma X6_witness :
  call_unsubscribe (subscribeToFocusedVaultChange "u3" 3%nat demo_focus_a).1.1
    (world_of (subscribeToFocusedVaultChange "u3" 3%nat demo_focus_a))
  = (tt, demo_focus_a, []) ∧
  call_unsubscribe (subscribeToBatchTrace "u3" 3%nat demo_focus_a).1.1
    (world_of (subscribeToBatchTrace "u3" 3%nat demo_focus_a))
  = (tt, demo_focus_a, []).
Proof.
  split.
  - apply (proj1 (X6_subscribe_then_unsubscribe "u3" 3%nat demo_focus_a)).
    apply (bool_decide_unpack _). by vm_compute.
  - apply (proj2 (X6_subscribe_then_unsubscribe "u3" 3%nat demo_focus_a)).
    apply (bool_decide_unpack _). by vm_compute.
Defined.

(** A third listener subscribes while ["a"] is focused.  The pass of 5010
    switches to ["b"] and the retry of its closure fires at 5122: the
    listener is called both times, as the first listener is, and a switch
    to ["c"] after that calls it once with the new object. *)
Lemma X7_witness :
  let w0 := world_of (subscribeToFocusedVaultChange "u3" 3%nat demo_focus_a) in
  let w1 := world_of (run demo_parse demo_api demo_schedule_switches w0) in
  told "u3" (log_of (run demo_parse demo_api demo_schedule_switches w0))
  = [(5010, 3%nat, Some 1%nat); (5122, 3%nat, Some 1%nat)] ∧
  told "u3" (log_of (switchFocusedVault demo_api "c" 0 w1))
  = [(6000, 3%nat, Some 2%nat)] ∧
  heard "u3" (log_of (run demo_parse demo_api demo_schedule_switches w0))
  = heard "u1" (log_of (run demo_parse demo_api demo_schedule_switches w0)).
Proof.
  assert ("u3" ∉ JsMap.keys (focusedVaultSubscribers demo_focus_a)) as Hfresh
    by (apply (bool_decide_unpack _); by vm_compute).
  assert (Forall (λ ti, leaves_focus_subscription "u3" ti.2) demo_schedule_switches)
    as Hok by (repeat constructor; by vm_compute).
  assert (Forall (λ ti, leaves_focus_subscription "u1" ti.2) demo_schedule_switches)
    as Hok1 by (repeat constructor; by vm_compute).
  pose proof (X7_subscribed_listener_is_notified demo_parse demo_api "u3" 3%nat
                demo_schedule_switches demo_focus_a Hfresh Hok) as (Hswitch & _ & _ & Hrun).
  split; [reflexivity|]. split.
  - exact (Hswitch "c" 0%nat).
  - apply (Hrun "u1" 1%nat); [by vm_compute|reflexivity|exact Hok1].
Defined.

(** The two orders of the folders ["a"] (100) and ["b"] (200) give the same
    pass. *)
Lemma X8_witness :
  checkVaultKeyAndUpdateConnection demo_api
    (Some [Some {| key := "a"; createdAt := 100 |};
           Some {| key := "b"; createdAt := 200 |}]) demo_fresh
  = checkVaultKeyAndUpdateConnection demo_api
      (Some [Some {| key := "b"; createdAt := 200 |};
             Some {| key := "a"; createdAt := 100 |}]) demo_fresh.
Proof.
  apply (X8_pass_ignores_folder_order demo_api).
  - apply perm_swap.
  - apply (bool_decide_unpack _). by vm_compute.
Defined.

(** A backlog, two single records and a frame that does not decode: the
    four records are delivered, each once and in order. *)
Lemma X9_witness :
  let r := (run demo_parse demo_api demo_schedule_frames;; advance demo_api 850)
             demo_focus_a in
  delivered 0 (log_of r) = [1; 2; 3; 4]%nat ∧
  batcher 0 (world_of r) = Some ([], None, 800) ∧
  flush_timers 0 (world_of r) = [].
Proof.
  refine (X9_every_record_is_delivered_once demo_parse demo_api 0
    (connected demo_api "a" 0) demo_schedule_frames 50 850 demo_focus_a
    eq_refl (λ _, eq_refl) eq_refl eq_refl eq_refl _ _ _).
  - by vm_compute.
  - repeat constructor; by vm_compute.
  - by vm_compute.
Defined.

(** The same frames: the event view holds the four records. *)
Lemma X10_witness :
  getFocusedVaultTraces (world_of (run demo_parse demo_api demo_schedule_frames demo_focus_a))
  = [1; 2; 3; 4]%nat.
Proof.
  refine (proj2 (X10_event_view_is_all_received demo_parse demo_api 0
    (connected demo_api "a" 0) demo_schedule_frames demo_focus_a
    eq_refl (λ _, eq_refl)) _).
  reflexivity.
Defined.

(** The stream of ["a"] closes at 10; the retry fires at 112 and the pass
    of 5010 finds ["a"] again: no socket is opened. *)
Lemma X12_witness :
  let r := (on_close 0;; run demo_parse demo_api demo_schedule_after_close;;
            advance demo_api 10000) demo_focus_a in
  opened_sockets (log_of r) = [] ∧
  lastVaultFoundTimestamp (world_of r) = lastVaultFoundTimestamp demo_focus_a ∧
  (∀ v, heap (world_of r) !! 0%nat = Some v → wsConnection v = None).
Proof.
  apply (X12_closed_stream_is_not_reopened demo_parse demo_api 0
           demo_schedule_after_close 10000 demo_focus_a).
  constructor; [exact I|]. constructor; [|constructor].
  intros c Hc. apply list_elem_of_singleton in Hc. subst c. by vm_compute.
Defined.
